(** * flowbro: the partition-consumer orchestration of consumer.go

    A shallow embedding of [src/consumer.go] and the properties of its
    offset resolution, cluster registry, bootstrap, teardown and fan-in.

    Go values are modelled as follows.
    - [int64], [int32] and [int] are [Z]; where the source computes on them
      the wrap-around is written out ([wrap64], [wrap32]).
    - a Go [string] is a [string] (a sequence of 8-bit characters).
    - a value of interface type ([sarama.Client], [sarama.Consumer],
      [sarama.PartitionConsumer], [error]) is an [option]: [None] is Go's
      [nil].  Calling a method on a nil interface value panics.
    - a map [map[string]*cluster] is a [gmap string loc] together with a heap
      [gmap loc cluster] holding the pointed-to structs.
    - calls into sarama, and everything else that touches the outside, are
      atomic operations of a small program monad [prog]; goroutines are
      programs of that monad run under an arbitrary schedule. *)

From Stdlib Require Import ZArith Lia Ascii String.
From stdpp Require Import base gmap strings list fin_maps.

Local Open Scope Z_scope.

(** ** Machine integers *)

Module Int.

Definition min64 : Z := - 2 ^ 63.
Definition max64 : Z := 2 ^ 63 - 1.

(** The value of a Go [int64] computation whose exact result is [z]. *)
Definition wrap64 (z : Z) : Z := (z + 2 ^ 63) mod 2 ^ 64 - 2 ^ 63.

(** Go's [int32(x)] conversion. *)
Definition wrap32 (z : Z) : Z := (z + 2 ^ 31) mod 2 ^ 32 - 2 ^ 31.

Definition in64 (z : Z) : Prop := min64 <= z <= max64.

(** Go's [a + b] on [int64]. *)
Definition add64 (a b : Z) : Z := wrap64 (a + b).

End Int.

(** ** strconv.ParseInt(s, 10, 64)

    [strconv] is Go's standard library, not code of this repository; the
    model follows its documented behaviour for base 10 and bit size 64: an
    optional sign, then one or more decimal digits; a value outside of
    [int64] is a range error.  The source only looks at [err == nil]. *)

Module Strconv.

Inductive NumError := ErrSyntax | ErrRange.

Definition digit (c : ascii) : option Z :=
  let n := Z.of_N (N_of_ascii c) in
  if (48 <=? n) && (n <=? 57) then Some (n - 48) else None.

(** The digits of [s] read most significant first, starting from [acc]. *)
Fixpoint digits (s : string) (acc : Z) : option Z :=
  match s with
  | EmptyString => Some acc
  | String c s' =>
      match digit c with
      | Some d => digits s' (10 * acc + d)
      | None => None
      end
  end.

(** [ParseUint(s, 10, 64)]. *)
Definition ParseUint (s : string) : NumError + Z :=
  match s with
  | EmptyString => inl ErrSyntax
  | _ =>
      match digits s 0 with
      | None => inl ErrSyntax
      | Some un => if 2 ^ 64 <=? un then inl ErrRange else inr un
      end
  end.

(** [ParseInt(s, 10, 64)]: picks off the sign, parses the rest unsigned
    and checks the range against the cutoff [1 << 63]. *)
Definition ParseInt (s : string) : NumError + Z :=
  match s with
  | EmptyString => inl ErrSyntax
  | String c rest =>
      let neg := if Ascii.eqb c "-" then true else false in
      let body := if Ascii.eqb c "+" || Ascii.eqb c "-" then rest else s in
      match ParseUint body with
      | inl e => inl e
      | inr un =>
          let cutoff := 2 ^ 63 in
          if negb neg && (cutoff <=? un) then inl ErrRange
          else if neg && (cutoff <? un) then inl ErrRange
          else inr (if neg then - un else un)
      end
  end.

(** [strconv.FormatInt(i, 10)]: the decimal digits of [i], most significant
    first, after a minus sign when [i] is negative.  An [int64] has at
    most 19 digits; [fuel] bounds their number. *)
Definition digit_char (d : Z) : ascii := ascii_of_N (Z.to_N (48 + d)).

Fixpoint format_digits (fuel : nat) (un : Z) (acc : string) : string :=
  match fuel with
  | O => acc
  | S fuel' =>
      let acc' := String (digit_char (un mod 10)) acc in
      if un <? 10 then acc' else format_digits fuel' (un / 10) acc'
  end.

Definition FormatUint (un : Z) : string := format_digits 20 un EmptyString.

Definition FormatInt (i : Z) : string :=
  if i <? 0 then String "-" (FormatUint (- i)) else FormatUint i.

End Strconv.

(** ** sarama: handles, constants and the broker as an environment

    The sarama library is an external collaborator.  Its interface values
    are identified by numbers; what its calls answer is given by a
    [Broker] instance over an arbitrary environment state [W], which every
    call may change. *)

Module Sarama.

(** [sarama.OffsetNewest] and [sarama.OffsetOldest]. *)
Definition OffsetNewest : Z := -1.
Definition OffsetOldest : Z := -2.

Definition Client := nat.
Definition Consumer := nat.
Definition PartitionConsumer := nat.
(** A [<-chan *sarama.ConsumerMessage]. *)
Definition chan := nat.

End Sarama.
Import Sarama.

(** Go [error] values: those sarama hands back, and those the source builds
    with [fmt.Errorf], one constructor per call site. *)
Inductive error :=
| ExternalError (msg : string)
| InvalidOffsetValue
| ErrorCreatingClient (err : error)
| ErrorCreatingConsumer (err : error)
| ErrorFetchingPartitions (err : error)
| CouldNotResolveOffset (brokers : list string) (topic : string) (partition : Z) (err : error)
| FailedToConsumePartition (partition : Z) (err : error).

(** The [log.Printf] and [log.Println] lines, one constructor per call site. *)
Inductive logline :=
| LogTryCloseCluster (brokers : list string)
| LogTryClosePartitionConsumers (n : nat) (brokers : list string)
| LogErrClosePartitionConsumer (brokers : list string) (err : error)
| LogTryCloseConsumer (brokers : list string)
| LogErrCloseConsumer (brokers : list string) (err : error)
| LogClosedConsumer (brokers : list string)
| LogTryCloseClient (brokers : list string)
| LogErrCloseClient (brokers : list string) (err : error)
| LogClosedClient (brokers : list string)
| LogFinishedCloseCluster (brokers : list string)
| LogTryCloseAll
| LogFinishedCloseAll
| LogAddingClientConsumer (brokers : list string)
| LogSetupConsumersErrors (n : nat)
| LogSetupPartitionConsumersErrors (n : nat)
| LogErrorNumber (i : nat) (e : error)
| LogAddedPartitionConsumers (n : nat) (topic : string)
| LogReady.

(** What an execution does to the outside, in order. *)
Inductive event :=
| EvLog (l : logline)
| EvNewClient (brokers : list string)
| EvNewConsumerFromClient (c : option Client)
| EvGetOffset (c : Client) (topic : string) (partition : Z) (time : Z)
| EvPartitions (c : Consumer) (topic : string)
| EvConsumePartition (c : Consumer) (topic : string) (partition : Z) (offset : Z)
| EvMessages (pc : PartitionConsumer)
| EvClosePartitionConsumer (pc : PartitionConsumer)
| EvCloseConsumer (c : Consumer)
| EvCloseClient (c : Client).

(** The answers of the library.  A Go call returning [(T, error)] answers a
    pair; nothing is assumed about which of the two is nil. *)
Class Broker (W : Type) := {
  newClient : list string -> W -> (option Client * option error) * W;
  newConsumerFromClient : option Client -> W -> (option Consumer * option error) * W;
  GetOffset : Client -> string -> Z -> Z -> W -> (Z * option error) * W;
  Partitions : Consumer -> string -> W -> (list Z * option error) * W;
  ConsumePartition :
    Consumer -> string -> Z -> Z -> W -> (option PartitionConsumer * option error) * W;
  Messages : PartitionConsumer -> W -> chan * W;
  ClosePartitionConsumer : PartitionConsumer -> W -> option error * W;
  CloseConsumer : Consumer -> W -> option error * W;
  CloseClient : Client -> W -> option error * W;
}.

(** ** The cluster struct and the shared memory *)

Definition loc := nat.

(** [type cluster struct].  The mutex [pcL] holds no data and is left out;
    see [forPartitions] for what its locking amounts to. *)
Record cluster := Cluster {
  brokers : list string;
  consumer : option Consumer;
  client : option Client;
  partitionConsumers : list (option PartitionConsumer);
}.

Section Program.

Context {W : Type} `{!Broker W}.

(** The memory a call of [setupPartitionConsumers] works on: the cluster
    structs behind the pointers of the registry, the [errors] slice and
    the [partitionConsumerChans] slice its goroutines share, together
    with the environment and the trace of events so far. *)
Record state := State {
  world : W;
  trace : list event;
  heap : gmap loc cluster;
  errors : list error;
  partitionConsumerChans : list chan;
}.

Definition emit (e : event) (w : W) (s : state) : state :=
  State w (trace s ++ [e]) (heap s) (errors s) (partitionConsumerChans s).

Definition set_heap (h : gmap loc cluster) (s : state) : state :=
  State (world s) (trace s) h (errors s) (partitionConsumerChans s).

Definition set_errors (es : list error) (s : state) : state :=
  State (world s) (trace s) (heap s) es (partitionConsumerChans s).

Definition set_chans (cs : list chan) (s : state) : state :=
  State (world s) (trace s) (heap s) (errors s) cs.

(** The atomic operations: library calls, log lines, and the accesses to
    shared memory. [AppendError] and [AppendChan] are the appends the
    source does under a mutex all goroutines share. *)
Inductive op : Type -> Type :=
| NewClient (bs : list string) : op (option Client * option error)
| NewConsumerFromClient (c : option Client) : op (option Consumer * option error)
| CallGetOffset (c : Client) (topic : string) (partition time : Z) : op (Z * option error)
| CallPartitions (c : Consumer) (topic : string) : op (list Z * option error)
| CallConsumePartition (c : Consumer) (topic : string) (partition offset : Z)
  : op (option PartitionConsumer * option error)
| CallMessages (pc : PartitionConsumer) : op chan
| CallClosePartitionConsumer (pc : PartitionConsumer) : op (option error)
| CallCloseConsumer (c : Consumer) : op (option error)
| CallCloseClient (c : Client) : op (option error)
| Log (l : logline) : op unit
| AppendError (e : error) : op unit
| AppendChan (ch : chan) : op unit
| Load (l : loc) : op cluster
| StoreClient (l : loc) (c : option Client) : op unit
| StoreConsumer (l : loc) (c : option Consumer) : op unit
| StorePartitionConsumers (l : loc) (pcs : list (option PartitionConsumer)) : op unit.

(** Programs: a return, a panic, or an operation and what follows it. *)
Inductive prog (A : Type) : Type :=
| Ret (a : A)
| Panic
| Do {R : Type} (o : op R) (k : R -> prog A).

Global Arguments Ret {A} a.
Global Arguments Panic {A}.
Global Arguments Do {A R} o k.

Fixpoint bind {A B : Type} (p : prog A) (f : A -> prog B) : prog B :=
  match p with
  | Ret a => f a
  | Panic => Panic
  | Do o k => Do o (fun r => bind (k r) f)
  end.

Definition call {R : Type} (o : op R) : prog R := Do o Ret.

(** One operation on a state; [None] is a nil-pointer dereference. *)
Definition exec_op {R : Type} (o : op R) (s : state) : option (R * state) :=
  match o in op R return option (R * state) with
  | NewClient bs =>
      let '(r, w) := newClient bs (world s) in Some (r, emit (EvNewClient bs) w s)
  | NewConsumerFromClient c =>
      let '(r, w) := newConsumerFromClient c (world s) in
      Some (r, emit (EvNewConsumerFromClient c) w s)
  | CallGetOffset c topic partition time =>
      let '(r, w) := GetOffset c topic partition time (world s) in
      Some (r, emit (EvGetOffset c topic partition time) w s)
  | CallPartitions c topic =>
      let '(r, w) := Partitions c topic (world s) in
      Some (r, emit (EvPartitions c topic) w s)
  | CallConsumePartition c topic partition offset =>
      let '(r, w) := ConsumePartition c topic partition offset (world s) in
      Some (r, emit (EvConsumePartition c topic partition offset) w s)
  | CallMessages pc =>
      let '(r, w) := Messages pc (world s) in Some (r, emit (EvMessages pc) w s)
  | CallClosePartitionConsumer pc =>
      let '(r, w) := ClosePartitionConsumer pc (world s) in
      Some (r, emit (EvClosePartitionConsumer pc) w s)
  | CallCloseConsumer c =>
      let '(r, w) := CloseConsumer c (world s) in Some (r, emit (EvCloseConsumer c) w s)
  | CallCloseClient c =>
      let '(r, w) := CloseClient c (world s) in Some (r, emit (EvCloseClient c) w s)
  | Log l => Some (tt, emit (EvLog l) (world s) s)
  | AppendError e => Some (tt, set_errors (errors s ++ [e]) s)
  | AppendChan ch => Some (tt, set_chans (partitionConsumerChans s ++ [ch]) s)
  | Load l =>
      match heap s !! l with
      | Some c => Some (c, s)
      | None => None
      end
  | StoreClient l c =>
      match heap s !! l with
      | Some cl =>
          Some (tt, set_heap (<[l := Cluster (brokers cl) (consumer cl) c
                                      (partitionConsumers cl)]> (heap s)) s)
      | None => None
      end
  | StoreConsumer l c =>
      match heap s !! l with
      | Some cl =>
          Some (tt, set_heap (<[l := Cluster (brokers cl) c (client cl)
                                      (partitionConsumers cl)]> (heap s)) s)
      | None => None
      end
  | StorePartitionConsumers l pcs =>
      match heap s !! l with
      | Some cl =>
          Some (tt, set_heap (<[l := Cluster (brokers cl) (consumer cl) (client cl) pcs]>
                                (heap s)) s)
      | None => None
      end
  end.

(** How a program ends. *)
Inductive outcome (A : Type) : Type :=
| Returned (a : A) (s : state)
| Panicked (s : state).

Global Arguments Returned {A} a s.
Global Arguments Panicked {A} s.

(** A program run on its own, to its end. *)
Fixpoint run {A : Type} (p : prog A) (s : state) : outcome A :=
  match p with
  | Ret a => Returned a s
  | Panic => Panicked s
  | Do o k =>
      match exec_op o s with
      | Some (r, s') => run (k r) s'
      | None => Panicked s
      end
  end.

End Program.

Declare Scope prog_scope.
Delimit Scope prog_scope with prog.
Notation "'let*' x ':=' p 'in' k" := (bind p (fun x => k))
  (at level 10, x pattern, p at level 100, k at level 200) : prog_scope.
Notation "p ;; k" := (bind p (fun _ => k))
  (at level 100, k at level 200, right associativity) : prog_scope.
Local Open Scope prog_scope.

(** ** Configuration *)

Module Config.

(** Modelled from the spec: the type [consumerConfig] is declared outside
    of [consumer.go]; the source reads its fields [brokers], [topic],
    [partition] (compared with [-1] and converted with [int32(...)]) and
    [offset] (the offset specifier). *)
Record consumerConfig := ConsumerConfig {
  brokers : list string;
  topic : string;
  partition : Z;
  offset : string;
}.

(** Modelled from the spec: of the type [Config] the source reads the
    field [consumers], an ordered list of consumer specs. *)
Record Config := MkConfig {
  consumers : list consumerConfig;
}.

End Config.
Import (coercions) Config.
Abbreviation consumerConfig := Config.consumerConfig.
Abbreviation Config := Config.Config.

(** [strings.Join(elems, sep)]. *)
Fixpoint Join (elems : list string) (sep : string) : string :=
  match elems with
  | [] => EmptyString
  | [x] => x
  | x :: rest => String.append x (String.append sep (Join rest sep))
  end.

(** The order in which one [for ... range m] visits a Go map is not
    specified: it is some enumeration of the entries. *)
Class MapRange := {
  range_order : gmap string loc -> list (string * loc);
  range_order_perm : forall m, range_order m ≡ₚ map_to_list m;
}.

Section Source.

Context {W : Type} `{!Broker W} `{!MapRange}.

(** A method call on a value of interface type: on nil it panics. *)
Definition method {A B : Type} (recv : option A) (m : A -> prog B) : prog B :=
  match recv with
  | Some x => m x
  | None => Panic
  end.

(** *** resolveOffset *)

Definition resolveOffset (configOffset : string) (brokers : list string)
    (topic : string) (partition : Z) (client : option Client) : prog (Z * option error) :=
  if String.eqb configOffset "oldest" then
    Ret (OffsetOldest, None)
  else if String.eqb configOffset "newest" then
    Ret (OffsetNewest, None)
  else
    match Strconv.ParseInt configOffset with
    | inr numericOffset =>
        if numericOffset >=? -2 then
          Ret (numericOffset, None)
        else
          let* (oldest, err) :=
            method client (fun c => call (CallGetOffset c topic partition OffsetOldest)) in
          match err with
          | Some e => Ret (0, Some e)
          | None =>
              let* (newest, err) :=
                method client (fun c => call (CallGetOffset c topic partition OffsetNewest)) in
              match err with
              | Some e => Ret (0, Some e)
              | None =>
                  if Int.add64 newest numericOffset <? oldest then
                    Ret (oldest, None)
                  else
                    Ret (Int.add64 newest numericOffset, None)
              end
          end
    | inl _ => Ret (0, Some InvalidOffsetValue)
    end.

(** *** cluster.close and closeAll *)

(** The loop of [close] over [c.partitionConsumers]. *)
Fixpoint closePartitionConsumers (bs : list string)
    (pcs : list (option PartitionConsumer)) : prog unit :=
  match pcs with
  | [] => Ret tt
  | pc :: rest =>
      let* err := method pc (fun p => call (CallClosePartitionConsumer p)) in
      match err with
      | Some e => call (Log (LogErrClosePartitionConsumer bs e))
      | None => Ret tt
      end;;
      closePartitionConsumers bs rest
  end.

(** [func (c *cluster) close()], on the struct [c] points to. *)
Definition close (l : loc) : prog unit :=
  let* c := call (Load l) in
  call (Log (LogTryCloseCluster (brokers c)));;
  call (Log (LogTryClosePartitionConsumers (length (partitionConsumers c)) (brokers c)));;
  closePartitionConsumers (brokers c) (partitionConsumers c);;
  call (Log (LogTryCloseConsumer (brokers c)));;
  let* err := method (consumer c) (fun k => call (CallCloseConsumer k)) in
  match err with
  | Some e => call (Log (LogErrCloseConsumer (brokers c) e))
  | None => call (Log (LogClosedConsumer (brokers c)))
  end;;
  call (Log (LogTryCloseClient (brokers c)));;
  let* err := method (client c) (fun k => call (CallCloseClient k)) in
  match err with
  | Some e => call (Log (LogErrCloseClient (brokers c) e))
  | None => call (Log (LogClosedClient (brokers c)))
  end;;
  call (Log (LogFinishedCloseCluster (brokers c))).

Fixpoint closeEach (ls : list loc) : prog unit :=
  match ls with
  | [] => Ret tt
  | l :: rest => close l;; closeEach rest
  end.

Definition closeAll (clusters : gmap string loc) : prog unit :=
  call (Log LogTryCloseAll);;
  closeEach (map snd (range_order clusters));;
  call (Log LogFinishedCloseAll).

(** *** The registry of clusters *)

(** [&cluster{brokers: bs}]: a fresh struct, its other fields zero. *)
Definition new_cluster (bs : list string) (h : gmap loc cluster) : loc * gmap loc cluster :=
  let l := fresh (dom h) in
  (l, <[l := Cluster bs None None []]> h).

(** One round of the first loop of [setupPartitionConsumers]. *)
Definition addCluster (rh : gmap string loc * gmap loc cluster) (c : consumerConfig)
  : gmap string loc * gmap loc cluster :=
  let '(clusters, h) := rh in
  let b := Join (Config.brokers c) "," in
  match clusters !! b with
  | Some _ => (clusters, h)
  | None =>
      let '(l, h') := new_cluster (Config.brokers c) h in
      (<[b := l]> clusters, h')
  end.

Definition buildClusters (cs : list consumerConfig) (h : gmap loc cluster)
  : gmap string loc * gmap loc cluster :=
  fold_left addCluster cs (∅, h).

(** *** Goroutines

    A pool of goroutines is a list of programs.  One step of the pool
    runs one operation of the goroutine a schedule names; when the
    schedule is used up the goroutines left are run one after the
    other, so every schedule describes a whole execution up to
    [wg.Wait()], and every interleaving of the operations is the
    execution of some schedule.  A panic in any goroutine ends the
    process. *)

Local Abbreviation pool := (list (prog unit)).

Fixpoint run_all (p : pool) (s : state) : outcome unit :=
  match p with
  | [] => Returned tt s
  | t :: rest =>
      match run t s with
      | Returned _ s' => run_all rest s'
      | Panicked s' => Panicked s'
      end
  end.

(** One step of goroutine [i]; a goroutine that has ended, or an index
    outside of the pool, leaves everything as it is. *)
Definition step_at (i : nat) (p : pool) (s : state) : option (pool * state) :=
  match p !! i with
  | Some (Do o k) =>
      match exec_op o s with
      | Some (r, s') => Some (<[i := k r]> p, s')
      | None => None
      end
  | Some Panic => None
  | Some (Ret _) | None => Some (p, s)
  end.

Fixpoint run_sched (sched : list nat) (p : pool) (s : state) : outcome unit :=
  match sched with
  | [] => run_all p s
  | i :: sched' =>
      match step_at i p s with
      | Some (p', s') => run_sched sched' p' s'
      | None => Panicked s
      end
  end.

(** *** setupClusters *)

(** The body of the goroutine [setupClusters] starts for the key [b];
    [c := clusters[b]] is a pointer, nil when the key is missing. *)
Definition clusterWorker (clusters : gmap string loc) (b : string) : prog unit :=
  method (clusters !! b) (fun l =>
    let* c := call (Load l) in
    call (Log (LogAddingClientConsumer (brokers c)));;
    let* (client, err) := call (NewClient (brokers c)) in
    match err with
    | Some e => call (AppendError (ErrorCreatingClient e))
    | None => Ret tt
    end;;
    let* (consumer, err) := call (NewConsumerFromClient client) in
    match err with
    | Some e => call (AppendError (ErrorCreatingConsumer e))
    | None => Ret tt
    end;;
    call (StoreClient l client);;
    call (StoreConsumer l consumer)).

(** [setupClusters(clusters, utils)], [utils] being the [Broker]. *)
Definition setupClusters (sched : list nat) (clusters : gmap string loc) (s : state)
  : outcome (list error) :=
  let s := set_errors [] s in
  match run_sched sched (map (fun e => clusterWorker clusters (fst e)) (range_order clusters)) s with
  | Returned _ s' => Returned (errors s') s'
  | Panicked s' => Panicked s'
  end.

(** *** setupPartitionConsumers *)

(** The loop over [partitions] in a worker; [after] is what follows the
    loop, and a [return] inside it ends the goroutine.  The mutex locked
    around the append to [cluster.partitionConsumers] is the worker's own
    copy of [cluster.pcL] (the struct field is copied by value into the
    local [pcL]), so the append is a read of the slice and a later write. *)
Fixpoint forPartitions (l : loc) (consumerConf : consumerConfig)
    (client : option Client) (consumer : option Consumer)
    (partitions : list Z) (after : prog unit) : prog unit :=
  match partitions with
  | [] => after
  | partition :: rest =>
      let* (offset, err) :=
        resolveOffset (Config.offset consumerConf) (Config.brokers consumerConf)
          (Config.topic consumerConf) partition client in
      match err with
      | Some e =>
          call (AppendError (CouldNotResolveOffset (Config.brokers consumerConf)
                               (Config.topic consumerConf) partition e))
      | None =>
          let* (partitionConsumer, err) :=
            method consumer (fun k =>
              call (CallConsumePartition k (Config.topic consumerConf) partition offset)) in
          match err with
          | Some e => call (AppendError (FailedToConsumePartition partition e))
          | None =>
              let* c := call (Load l) in
              call (StorePartitionConsumers l (partitionConsumers c ++ [partitionConsumer]));;
              let* ch := method partitionConsumer (fun p => call (CallMessages p)) in
              call (AppendChan ch);;
              forPartitions l consumerConf client consumer rest after
          end
      end
  end.

(** The body of the goroutine started for one consumer spec. *)
Definition partitionWorker (clusters : gmap string loc) (consumerConf : consumerConfig)
  : prog unit :=
  let brokStr := Join (Config.brokers consumerConf) "," in
  method (clusters !! brokStr) (fun l =>
    let* c := call (Load l) in
    let after (partitions : list Z) :=
      call (Log (LogAddedPartitionConsumers (length partitions) (Config.topic consumerConf))) in
    if Config.partition consumerConf =? -1 then
      let* (partitions, err) :=
        method (consumer c) (fun k => call (CallPartitions k (Config.topic consumerConf))) in
      match err with
      | Some e => call (AppendError (ErrorFetchingPartitions e))
      | None =>
          forPartitions l consumerConf (client c) (consumer c) partitions (after partitions)
      end
    else
      let partitions := [Int.wrap32 (Config.partition consumerConf)] in
      forPartitions l consumerConf (client c) (consumer c) partitions (after partitions)).

Fixpoint logErrors (i : nat) (es : list error) : prog unit :=
  match es with
  | [] => Ret tt
  | e :: rest => call (Log (LogErrorNumber i e));; logErrors (S i) rest
  end.

(** The three results of [setupPartitionConsumers]; [None] is a nil
    slice or a nil map. *)
Definition setup_result : Type := option (list chan) * option (gmap string loc) * bool.

Definition setupPartitionConsumers (sched1 sched2 : list nat) (conf : Config) (s : state)
  : outcome setup_result :=
  let '(clusters, h) := buildClusters (Config.consumers conf) (heap s) in
  match setupClusters sched1 clusters (set_heap h s) with
  | Panicked s1 => Panicked s1
  | Returned errs s1 =>
      if (0 <? length errs)%nat then
        run (call (Log (LogSetupConsumersErrors (length errs)));;
             logErrors 0 errs;;
             closeAll clusters;;
             Ret (None, None, false)) s1
      else
        match run_sched sched2 (map (partitionWorker clusters) (Config.consumers conf))
                (set_chans [] s1) with
        | Panicked s2 => Panicked s2
        | Returned _ s2 =>
            if (0 <? length (errors s2))%nat then
              run (call (Log (LogSetupPartitionConsumersErrors (length (errors s2))));;
                   logErrors 0 (errors s2);;
                   closeAll clusters;;
                   Ret (None, None, false)) s2
            else
              run (call (Log LogReady);;
                   Ret (Some (partitionConsumerChans s2), Some clusters, true)) s2
        end
  end.

End Source.

Abbreviation pool := (list (prog unit)).

(** ** The concrete client type

    [type client struct{}] implements [iClient] by two methods whose whole
    body is a call of the same method on the same receiver with the same
    arguments.  [fuel] bounds the depth of calls an evaluation may use;
    [None] says the bound was reached before any call returned. *)

Module ClientType.

Fixpoint GetOffset (fuel : nat) (topic : string) (partition time : Z)
  : option (Z * option error) :=
  match fuel with
  | O => None
  | S fuel' => GetOffset fuel' topic partition time
  end.

Fixpoint Close (fuel : nat) : option (option error) :=
  match fuel with
  | O => None
  | S fuel' => Close fuel'
  end.

(** The same as a big-step relation "the call returns [r]": the only way
    for a call to return is that the call in its body returns. *)
Inductive GetOffset_returns (topic : string) (partition time : Z)
  : Z * option error -> Prop :=
| GetOffset_body r :
    GetOffset_returns topic partition time r ->
    GetOffset_returns topic partition time r.

Inductive Close_returns : option error -> Prop :=
| Close_body r : Close_returns r -> Close_returns r.

End ClientType.

(** ** Reading traces *)

Definition is_call (e : event) : bool :=
  match e with
  | EvLog _ => false
  | _ => true
  end.

(** The library calls of a trace, in order, the log lines left out. *)
Definition calls (t : list event) : list event := List.filter is_call t.

Definition is_consume (e : event) : bool :=
  match e with
  | EvConsumePartition _ _ _ _ => true
  | _ => false
  end.

Definition is_log (l : logline) (e : event) : Prop := e = EvLog l.

(** [s'] comes from [s] by the events [new], the memory left as it is. *)
Definition emitted {W : Type} (s s' : @state W) (new : list event) : Prop :=
  trace s' = trace s ++ new /\ heap s' = heap s /\ errors s' = errors s
  /\ partitionConsumerChans s' = partitionConsumerChans s.

(** The key of a consumer spec in the registry. *)
Definition brokerKey (c : consumerConfig) : string := Join (Config.brokers c) ",".

(** ** Reasoning about goroutines

    The steps of a pool as a relation, and a rely/guarantee reading of a
    goroutine: [wpr R G t Q s] says that from [s], with the other
    goroutines changing the state only along [R] between any two of its
    operations, [t] changes the state only along [G] and, if it returns
    [a], does so in a state with [Q a]. *)

Section PoolLogic.

Context {W : Type} `{!Broker W}.

Definition ended (t : prog unit) : Prop :=
  match t with
  | Ret _ => True
  | _ => False
  end.

Inductive pool_step : pool * state -> pool * state -> Prop :=
| pool_step_op (p : pool) (s : state) (i : nat) {R : Type} (o : op R) k r s' :
    p !! i = Some (Do o k) ->
    exec_op o s = Some (r, s') ->
    pool_step (p, s) (<[i := k r]> p, s').

Fixpoint wpr {A : Type} (R G : relation state) (t : prog A)
    (Q : A -> state -> Prop) (s : state) : Prop :=
  match t with
  | Ret a => forall s', R s s' -> Q a s'
  | Panic => True
  | Do o k =>
      forall s1, R s s1 ->
        match exec_op o s1 with
        | Some (r, s2) => G s1 s2 /\ wpr R G (k r) Q s2
        | None => True
        end
  end.

(** Every goroutine of the pool [p] keeps to the reading [wpr] of index
    [i]: it relies on [Rl i], guarantees [Gl i] and ends with [Ql i]. *)
Definition pool_safe (Rl Gl : nat -> relation state) (Ql : nat -> state -> Prop)
    (p : pool) (s : state) : Prop :=
  forall i t, p !! i = Some t -> wpr (Rl i) (Gl i) t (fun _ => Ql i) s.

(** The state an execution ends in. *)
Definition final {A : Type} (out : @outcome W A) : @state W :=
  match out with
  | Returned _ s => s
  | Panicked s => s
  end.

Definition opens_partition {R : Type} (o : op R) : Prop :=
  match o with
  | CallConsumePartition _ _ _ _ => True
  | _ => False
  end.

(** A program none of whose operations, on any of its paths, is in [P]. *)
Fixpoint never {A : Type} (P : forall R : Type, op R -> Prop) (t : prog A) : Prop :=
  match t with
  | Do o k => ~ P _ o /\ forall r, never P (k r)
  | _ => True
  end.

(** A program that ends with any operation in [P] it makes: on every path,
    whatever the operations answer, an operation in [P] is the last. *)
Fixpoint ends_with {A : Type} (P : forall R : Type, op R -> Prop) (t : prog A) : Prop :=
  match t with
  | Do o k => (P _ o -> forall r, exists a, k r = Ret a) /\ forall r, ends_with P (k r)
  | _ => True
  end.

(** The append of a could-not-resolve-offset error to [errors]. *)
Definition records_unresolved {R : Type} (o : op R) : Prop :=
  match o with
  | AppendError (CouldNotResolveOffset _ _ _ _) => True
  | _ => False
  end.

(** The [ConsumePartition] calls of a trace. *)
Definition consumes (t : list event) : list event := List.filter is_consume t.

(** The library never answers a nil handle together with a nil error. *)
Definition handles_or_errors : Prop :=
  (forall bs w, fst (newClient bs w) <> (None, None))
  /\ (forall c w, fst (newConsumerFromClient c w) <> (None, None)).

(** Every pointer of the registry points into the heap, and no two keys
    share a pointer. *)
Definition registry_ok (clusters : gmap string loc) (h : gmap loc cluster) : Prop :=
  (forall b l, clusters !! b = Some l -> is_Some (h !! l))
  /\ (forall b1 b2 l, clusters !! b1 = Some l -> clusters !! b2 = Some l -> b1 = b2).

(** Both handles of every cluster of the registry are set. *)
Definition all_opened (clusters : gmap string loc) (h : gmap loc cluster) : Prop :=
  forall b l, clusters !! b = Some l ->
    exists c, h !! l = Some c /\ is_Some (client c) /\ is_Some (consumer c).

End PoolLogic.

(** A program that never calls [ConsumePartition]. *)
Abbreviation quiet := (never (@opens_partition)).

(** What holds of the registry and the heap after the specs [cs] have been
    gone through, starting from the heap [h]: the keys are those of the
    specs; every key points to a struct allocated for it, still as it was
    allocated; no two keys share a struct; the structs of [h] are
    untouched and nothing else was allocated. *)
Record registry_inv (h : gmap loc cluster) (cs : list consumerConfig)
    (clusters : gmap string loc) (h' : gmap loc cluster) : Prop := {
  reg_keys : forall b, is_Some (clusters !! b) <-> exists c, c ∈ cs /\ brokerKey c = b;
  reg_fresh : forall b l, clusters !! b = Some l ->
    (l ∉ dom h) /\ (exists c, c ∈ cs /\ brokerKey c = b
                        /\ h' !! l = Some (Cluster (Config.brokers c) None None []));
  reg_inj : forall b1 b2 l, clusters !! b1 = Some l -> clusters !! b2 = Some l -> b1 = b2;
  reg_old : forall l, l ∈ dom h -> h' !! l = h !! l;
  reg_new : forall l, l ∈ dom h' -> l ∈ dom h \/ exists b, clusters !! b = Some l;
}.

(** ** What a cluster worker relies on and guarantees

    The goroutine that opens the cluster at [l] relies on the others
    leaving that struct alone and never emptying the [errors] slice; it
    changes no other struct; and when it ends, its cluster has the broker
    list and the partition-consumers it had in the heap [h0] the goroutine
    started from, and a handle unset only if an error has been recorded. *)

Section ClusterWorkerSpec.

Context {W : Type}.

Definition cw_rely (l : loc) (s s' : @state W) : Prop :=
  heap s' !! l = heap s !! l /\ (errors s <> [] -> errors s' <> []).

Definition cw_guar (l : loc) (s s' : @state W) : Prop :=
  (forall l', l' <> l -> heap s' !! l' = heap s !! l')
  /\ (errors s <> [] -> errors s' <> []).

Definition cw_post (h0 : gmap loc cluster) (l : loc) (s : @state W) : Prop :=
  exists c0 c, h0 !! l = Some c0 /\ heap s !! l = Some c
    /\ brokers c = brokers c0
    /\ partitionConsumers c = partitionConsumers c0
    /\ (client c = None \/ consumer c = None -> errors s <> []).

End ClusterWorkerSpec.

(** ** What a partition worker relies on and guarantees

    A cluster is ready when its client and consumer are set and none of
    its partition-consumers is nil.  The goroutines of the second phase
    leave every cluster of the registry ready. *)

Definition cluster_ready (c : cluster) : Prop :=
  is_Some (client c) /\ is_Some (consumer c) /\ Forall is_Some (partitionConsumers c).

Definition all_ready (clusters : gmap string loc) (h : gmap loc cluster) : Prop :=
  forall b l, clusters !! b = Some l -> exists c, h !! l = Some c /\ cluster_ready c.

Definition keeps_ready {W : Type} (clusters : gmap string loc) (s s' : @state W) : Prop :=
  all_ready clusters (heap s) -> all_ready clusters (heap s').

(** [ConsumePartition] never answers a nil partition-consumer together
    with a nil error. *)
Definition consumers_or_errors {W : Type} `{!Broker W} : Prop :=
  forall k topic partition offset w,
    fst (ConsumePartition k topic partition offset w) <> (None, None).

(** An operation that leaves the heap as it is. *)
Definition heap_kept {W : Type} `{!Broker W} {X : Type} (o : op X) : Prop :=
  forall (s : @state W) r s', exec_op o s = Some (r, s') -> heap s' = heap s.

(** ** The fan-in: demuxMessages and sendMessagesToWsBlocking

    The goroutines of the forwarding stage communicate over channels, so
    they are modelled as a transition system.  Its state holds, for every
    input stream, the messages buffered on it and the place its worker is
    at; the place the forwarding loop is at; whether the quit channel [q]
    has been closed; and the messages that have passed over the merged
    channel [c], in order.  The channel [c] is unbuffered: a worker's
    [c <- msg] and the loop's [cMsg := <-c] happen together.  A [select]
    with several cases ready takes any one of them.  The input streams
    stay open, and what the loop does with a message it received (the
    formatting and [sender.Send]) is part of the move that receives it. *)

Module Demux.

(** [sarama.ConsumerMessage], the fields the source reads. *)
Record ConsumerMessage := Message {
  Topic : string;
  Partition : Z;
  Offset : Z;
  Key : string;
  Value : string;
}.

(** Where a worker of [demuxMessages] is: at its [select], blocked in
    [c <- msg], or returned. *)
Inductive worker := AtSelect | Sending (msg : ConsumerMessage) | Exited.

(** Where [sendMessagesToWsBlocking] is: at its [select], or returned. *)
Inductive forwarder := Forwarding | ForwarderReturned.

Record pipeline := Pipeline {
  inputs : list (list ConsumerMessage);
  workers : list worker;
  loop : forwarder;
  cancelled : bool;
  merged : list ConsumerMessage;
}.

(** [demuxMessages(pc, q)] followed by [sendMessagesToWsBlocking]: one
    worker per input stream, all at their [select], and the loop at
    its own. *)
Definition demuxMessages (pc : list (list ConsumerMessage)) : pipeline :=
  Pipeline pc (map (fun _ => AtSelect) pc) Forwarding false [].

(** The moves of the system.  [Arrive] and [Cancel] are the
    environment's: a message becomes ready on an input stream, [q] is
    closed.  [Receive i] and [Quit i] are the two cases of the [select]
    of worker [i].  [Forward i ok] is the first case of the [select] of
    the loop, taking the message worker [i] is sending, [ok] telling
    whether [sender.Send] succeeds; [LoopQuit] is its second case. *)
Inductive move :=
| Arrive (i : nat) (msg : ConsumerMessage)
| Cancel
| Receive (i : nat)
| Quit (i : nat)
| Forward (i : nat) (ok : bool)
| LoopQuit.

Definition step (mv : move) (p : pipeline) : option pipeline :=
  match mv with
  | Arrive i msg =>
      match inputs p !! i with
      | Some buf =>
          Some (Pipeline (<[i := buf ++ [msg]]> (inputs p)) (workers p) (loop p)
                  (cancelled p) (merged p))
      | None => None
      end
  | Cancel => Some (Pipeline (inputs p) (workers p) (loop p) true (merged p))
  | Receive i =>
      match workers p !! i, inputs p !! i with
      | Some AtSelect, Some (msg :: buf) =>
          Some (Pipeline (<[i := buf]> (inputs p)) (<[i := Sending msg]> (workers p))
                  (loop p) (cancelled p) (merged p))
      | _, _ => None
      end
  | Quit i =>
      match workers p !! i with
      | Some AtSelect =>
          if cancelled p then
            Some (Pipeline (inputs p) (<[i := Exited]> (workers p)) (loop p)
                    (cancelled p) (merged p))
          else None
      | _ => None
      end
  | Forward i ok =>
      match workers p !! i, loop p with
      | Some (Sending msg), Forwarding =>
          Some (Pipeline (inputs p) (<[i := AtSelect]> (workers p))
                  (if ok then Forwarding else ForwarderReturned)
                  (cancelled p) (merged p ++ [msg]))
      | _, _ => None
      end
  | LoopQuit =>
      match loop p with
      | Forwarding =>
          if cancelled p then
            Some (Pipeline (inputs p) (workers p) ForwarderReturned (cancelled p) (merged p))
          else None
      | ForwarderReturned => None
      end
  end.

(** A sequence of moves, each enabled where it is made. *)
Fixpoint steps (mvs : list move) (p : pipeline) : option pipeline :=
  match mvs with
  | [] => Some p
  | mv :: rest =>
      match step mv p with
      | Some p' => steps rest p'
      | None => None
      end
  end.

(** The moves a goroutine of the program makes, the environment's left
    out. *)
Definition of_program (mv : move) : Prop :=
  match mv with
  | Arrive _ _ | Cancel => False
  | _ => True
  end.

(** The moves of worker [i]. *)
Definition of_worker (i : nat) (mv : move) : Prop :=
  match mv with
  | Receive j | Quit j | Forward j _ => i = j
  | _ => False
  end.

(** A message, for examples. *)
Definition m1 : ConsumerMessage := Message "t" 0 41 "k" "v".

End Demux.

(** ** Lanes of the fan-in

    The messages of one kind, picked out by [P], along their way through
    the pipeline when they all enter by input stream [i]: those that have
    passed over the merged channel, the one worker [i] is sending, and
    those still buffered on the stream. *)

Module DemuxLanes.
Import Demux.

Definition sending_of (w : option worker) : list ConsumerMessage :=
  match w with
  | Some (Sending msg) => [msg]
  | _ => []
  end.

Definition buffered (p : pipeline) (i : nat) : list ConsumerMessage :=
  default [] (inputs p !! i).

Definition lane (P : ConsumerMessage -> bool) (i : nat) (p : pipeline)
  : list ConsumerMessage :=
  List.filter P (merged p) ++ List.filter P (sending_of (workers p !! i))
  ++ List.filter P (buffered p i).

(** No message of the kind [P] is on another stream than [i]. *)
Definition exclusive (P : ConsumerMessage -> bool) (i : nat) (p : pipeline) : Prop :=
  forall j, j <> i ->
    List.filter P (sending_of (workers p !! j)) = []
    /\ List.filter P (buffered p j) = [].

(** The messages of the kind [P] that arrive during the moves [mvs]. *)
Fixpoint arrivals (P : ConsumerMessage -> bool) (mvs : list move) : list ConsumerMessage :=
  match mvs with
  | [] => []
  | Arrive _ msg :: rest => List.filter P [msg] ++ arrivals P rest
  | _ :: rest => arrivals P rest
  end.

(** The moves in which a message of the kind [P] arrives arrive on [i]. *)
Definition arrive_on (P : ConsumerMessage -> bool) (i : nat) (mv : move) : Prop :=
  match mv with
  | Arrive j msg => j = i \/ P msg = false
  | _ => True
  end.

(** A [Forward] whose [sender.Send] fails. *)
Definition failed_send (mv : move) : Prop :=
  match mv with
  | Forward _ false => True
  | _ => False
  end.

(** After the moves [mvs]: a worker has returned only when [q] is closed,
    [q] is closed only by a [Cancel] among the moves, and the loop has
    returned only when [q] is closed or a send has failed. *)
Definition stopped_by_cause (mvs : list move) (p : pipeline) : Prop :=
  (forall i, workers p !! i = Some Exited -> cancelled p = true)
  /\ (cancelled p = true -> In Cancel mvs)
  /\ (loop p = ForwarderReturned -> cancelled p = true \/ Exists failed_send mvs).

End DemuxLanes.

(** ** The text sent for a message

    [sendMessagesToWsBlocking] builds, for every message it receives, one
    line of text from the fields of the message and the time of
    consumption, and hands it to [sender.Send]. *)

Module Format.
Import Demux.

Definition quote : ascii := "034"%char.
Definition backslash : ascii := "092"%char.
Definition newline : ascii := "010"%char.

(** [strings.Replace(s, old, new, -1)] for a non-empty [old]: every
    occurrence of [old] in [s], found from the left and not overlapping
    the one before, is replaced by [new].  [skip] counts the characters
    of the occurrence just replaced that are still to be passed. *)
Fixpoint Replace_from (skip : nat) (s old new : string) : string :=
  match s with
  | EmptyString => EmptyString
  | String c s' =>
      match skip with
      | S k => Replace_from k s' old new
      | O =>
          if String.prefix old s
          then new +:+ Replace_from (String.length old - 1) s' old new
          else String c (Replace_from 0 s' old new)
      end
  end.

Definition Replace (s old new : string) : string := Replace_from 0 s old new.

(** The one-character string of a double quote. *)
Definition q : string := String quote EmptyString.

(** [strings.Replace(string(b), `"`, `\"`, -1)], the treatment of the key
    and of the value. *)
Definition escape (s : string) : string := Replace s q (String backslash q).

(** The line built for [cMsg] consumed at the time [now]
    ([timeNow.Unix()]). *)
Definition message_text (cMsg : ConsumerMessage) (now : Z) : string :=
  ("{" +:+ q +:+ "topic" +:+ q +:+ ": " +:+ q) +:+ Topic cMsg +:+
  (q +:+ ", " +:+ q +:+ "partition" +:+ q +:+ ": " +:+ q)
    +:+ Strconv.FormatInt (Partition cMsg) +:+
  (q +:+ ", " +:+ q +:+ "offset" +:+ q +:+ ": " +:+ q)
    +:+ Strconv.FormatInt (Offset cMsg) +:+
  (q +:+ ", " +:+ q +:+ "key" +:+ q +:+ ": " +:+ q) +:+ escape (Key cMsg) +:+
  (q +:+ ", " +:+ q +:+ "value" +:+ q +:+ ": " +:+ q) +:+ escape (Value cMsg) +:+
  (q +:+ ", " +:+ q +:+ "consumedUnixTimestamp" +:+ q +:+ ": " +:+ q)
    +:+ Strconv.FormatInt now +:+
  (q +:+ "}") +:+ String newline EmptyString.

(** Every double quote of [s] stands right after a backslash; [prev] is
    the character before [s]. *)
Fixpoint guarded_after (prev : ascii) (s : list ascii) : bool :=
  match s with
  | [] => true
  | c :: s' =>
      (negb (Ascii.eqb c quote) || Ascii.eqb prev backslash) && guarded_after c s'
  end.

Definition guarded (s : string) : bool :=
  guarded_after "{"%char (list_ascii_of_string s).

(** [s] holds no double quote. *)
Definition quote_free (s : string) : Prop :=
  Forall (fun c => c <> quote) (list_ascii_of_string s).

(** The number of double quotes in [s]. *)
Definition quotes (s : string) : nat :=
  List.length (List.filter (fun c => Ascii.eqb c quote) (list_ascii_of_string s)).

(** What [escape] does to one character. *)
Definition escape_char (c : ascii) : list ascii :=
  if Ascii.eqb c quote then [backslash; quote] else [c].

End Format.

(** ** Broker addresses

    The key of a cluster is its broker list joined with commas.  An
    address is plain when it is not empty and holds no comma. *)

Definition plain_address (a : string) : bool :=
  negb (String.eqb a "")
  && forallb (fun c => negb (Ascii.eqb c ",")) (list_ascii_of_string a).

Definition plain_brokers (c : consumerConfig) : bool :=
  forallb plain_address (Config.brokers c).

(** An offset specifier that names an end of the partition; for these
    [resolveOffset] asks the broker nothing. *)
Definition named_offset (o : string) : bool :=
  String.eqb o "oldest" || String.eqb o "newest".

(** ** Programs that cannot panic

    [runs_under I t Q]: from every state with the invariant [I], each
    operation of [t] can be executed and keeps [I], [t] has no panic on
    any path so taken, and what it returns is in [Q]. *)

Section Total.

Context {W : Type} `{!Broker W}.

Fixpoint runs_under {A : Type} (I : @state W -> Prop) (t : prog A) (Q : A -> Prop) : Prop :=
  match t with
  | Ret a => Q a
  | Panic => False
  | Do o k =>
      forall s, I s ->
        match exec_op o s with
        | Some (r, s') => I s' /\ runs_under I (k r) Q
        | None => False
        end
  end.

(** Every pointer of the registry points into the heap. *)
Definition allocated (clusters : gmap string loc) (s : @state W) : Prop :=
  forall b l, clusters !! b = Some l -> is_Some (heap s !! l).

End Total.

(** The errors [setupClusters] builds. *)
Definition setup_error (e : error) : Prop :=
  match e with
  | ErrorCreatingClient _ | ErrorCreatingConsumer _ => True
  | _ => False
  end.

(** What the goroutines of [setupClusters] keep: the registry's structs
    stay allocated, and [errors] holds setup errors only. *)
Definition setup_inv {W : Type} (clusters : gmap string loc) (s : @state W) : Prop :=
  allocated clusters s /\ Forall setup_error (errors s).

(** ** Concrete environments

    Small brokers with fixed answers, for running the model on examples. *)

Module Fixtures.

#[export] Program Instance listRange : MapRange := {|
  range_order m := map_to_list m;
|}.
Next Obligation. done. Qed.

(** A broker described by its answers; the environment has no state. *)
Record answers := Answers {
  a_newClient : list string -> option Client * option error;
  a_newConsumerFromClient : option Client -> option Consumer * option error;
  a_GetOffset : Client -> string -> Z -> Z -> Z * option error;
  a_Partitions : Consumer -> string -> list Z * option error;
  a_ConsumePartition : Consumer -> string -> Z -> Z -> option PartitionConsumer * option error;
  a_Close : nat -> option error;
}.

Definition scripted (a : answers) : Broker unit := {|
  newClient bs w := (a_newClient a bs, w);
  newConsumerFromClient c w := (a_newConsumerFromClient a c, w);
  GetOffset c t p time w := (a_GetOffset a c t p time, w);
  Partitions c t w := (a_Partitions a c t, w);
  ConsumePartition c t p off w := (a_ConsumePartition a c t p off, w);
  Messages pc w := (pc, w);
  ClosePartitionConsumer pc w := (a_Close a pc, w);
  CloseConsumer c w := (a_Close a c, w);
  CloseClient c w := (a_Close a c, w);
|}.

(** Every call succeeds: client 1, consumer 2, partitions 0 and 1 of
    every topic, oldest offset 10 and newest offset 100, and the
    partition-consumer of partition [p] is number [10 + p]. *)
Definition healthy : answers := {|
  a_newClient _ := (Some 1%nat, None);
  a_newConsumerFromClient _ := (Some 2%nat, None);
  a_GetOffset _ _ _ time := (if time =? OffsetOldest then 10 else 100, None);
  a_Partitions _ _ := ([0; 1], None);
  a_ConsumePartition _ _ p _ := (Some (10 + Z.to_nat p)%nat, None);
  a_Close _ := None;
|}.

Definition unreachable : error := ExternalError "kafka: client has run out of available brokers to talk to".

(** No cluster can be reached: [newClient] fails, and so does the
    consumer made from the nil client. *)
Definition no_client : answers := {|
  a_newClient _ := (None, Some unreachable);
  a_newConsumerFromClient c :=
    match c with
    | Some _ => (Some 2%nat, None)
    | None => (None, Some (ExternalError "no client"))
    end;
  a_GetOffset := a_GetOffset healthy;
  a_Partitions := a_Partitions healthy;
  a_ConsumePartition := a_ConsumePartition healthy;
  a_Close := a_Close healthy;
|}.

(** The client opens, the consumer made from it does not. *)
Definition no_consumer : answers := {|
  a_newClient := a_newClient healthy;
  a_newConsumerFromClient _ := (None, Some (ExternalError "kafka: tried to use a client that was closed"));
  a_GetOffset := a_GetOffset healthy;
  a_Partitions := a_Partitions healthy;
  a_ConsumePartition := a_ConsumePartition healthy;
  a_Close := a_Close healthy;
|}.

(** The offsets of partition 0 cannot be queried; partition 1 is fine. *)
Definition partition0_down : answers := {|
  a_newClient := a_newClient healthy;
  a_newConsumerFromClient := a_newConsumerFromClient healthy;
  a_GetOffset c t p time :=
    if p =? 0 then (-1, Some (ExternalError "kafka: leader not available"))
    else a_GetOffset healthy c t p time;
  a_Partitions := a_Partitions healthy;
  a_ConsumePartition := a_ConsumePartition healthy;
  a_Close := a_Close healthy;
|}.

(** Every close fails. *)
Definition close_fails : answers := {|
  a_newClient := a_newClient healthy;
  a_newConsumerFromClient := a_newConsumerFromClient healthy;
  a_GetOffset := a_GetOffset healthy;
  a_Partitions := a_Partitions healthy;
  a_ConsumePartition := a_ConsumePartition healthy;
  a_Close _ := Some (ExternalError "close failed");
|}.

(** The state a call starts from: nothing allocated, nothing logged. *)
Definition start : @state unit := State tt [] ∅ [] [].

(** One cluster, opened, with two partition-consumers. *)
Definition open_cluster : cluster :=
  Cluster ["b:9092"] (Some 2%nat) (Some 1%nat) [Some 10%nat; Some 11%nat].

Definition opened : @state unit := State tt [] {[0%nat := open_cluster]} [] [].

End Fixtures.

Module ConfigFixtures.

(** Two specs on the same cluster, a third naming the same two
    addresses in the other order. *)
Definition spec_ab_all : consumerConfig := Config.ConsumerConfig ["a:9092"; "b:9092"] "t" (-1) "-50".
Definition spec_ab_3 : consumerConfig := Config.ConsumerConfig ["a:9092"; "b:9092"] "u" 3 "oldest".
Definition spec_ba : consumerConfig := Config.ConsumerConfig ["b:9092"; "a:9092"] "t" 0 "newest".

End ConfigFixtures.

Module RunFixtures.
Import Fixtures ConfigFixtures.

(** The registry and the heap of a configuration with the one spec
    [spec_ba], before any cluster is opened. *)
Definition one_registry : gmap string loc := (buildClusters [spec_ba] ∅).1.
Definition one_state : @state unit := set_heap (buildClusters [spec_ba] ∅).2 start.

(** One spec asking for all partitions of topic "t", fifty messages
    back. *)
Definition one_conf : Config := Config.MkConfig [spec_ab_all].

End RunFixtures.

(** * Properties *)

(** ** Machine integers and ParseInt *)

Module IntFacts.
Import Int.

Lemma wrap64_id z : in64 z -> wrap64 z = z.
Proof.
  unfold in64, min64, max64, wrap64. intros Hz.
  rewrite Z.mod_small; lia.
Qed.

Lemma wrap64_range z : in64 (wrap64 z).
Proof.
  unfold in64, min64, max64, wrap64.
  pose proof (Z.mod_pos_bound (z + 2 ^ 63) (2 ^ 64) ltac:(lia)). lia.
Qed.

Lemma add64_exact a b : in64 (a + b) -> add64 a b = a + b.
Proof. apply wrap64_id. Qed.

End IntFacts.

Module StrconvFacts.
Import Strconv.

Example ParseInt_minus50 : ParseInt "-50" = inr (-50).
Proof. reflexivity. Qed.
Example ParseInt_plus7 : ParseInt "+7" = inr 7.
Proof. reflexivity. Qed.
Example ParseInt_abc : ParseInt "abc" = inl ErrSyntax.
Proof. reflexivity. Qed.
Example ParseInt_empty : ParseInt "" = inl ErrSyntax.
Proof. reflexivity. Qed.
Example ParseInt_sign_only : ParseInt "-" = inl ErrSyntax.
Proof. reflexivity. Qed.
Example ParseInt_min : ParseInt "-9223372036854775808" = inr Int.min64.
Proof. reflexivity. Qed.
Example ParseInt_over : ParseInt "9223372036854775808" = inl ErrRange.
Proof. reflexivity. Qed.

Example FormatInt_minus50 : FormatInt (-50) = "-50"%string.
Proof. reflexivity. Qed.
Example FormatInt_zero : FormatInt 0 = "0"%string.
Proof. reflexivity. Qed.
Example FormatInt_min : FormatInt Int.min64 = "-9223372036854775808"%string.
Proof. reflexivity. Qed.

Lemma digit_digit_char d : 0 <= d < 10 -> digit (digit_char d) = Some d.
Proof.
  intros Hd.
  assert (d = 0 \/ d = 1 \/ d = 2 \/ d = 3 \/ d = 4 \/ d = 5 \/ d = 6 \/ d = 7
          \/ d = 8 \/ d = 9) as Hcases by lia.
  repeat (destruct Hcases as [->|Hcases]; [reflexivity|]). by subst.
Qed.

(** Reading the digits that [format_digits] wrote gives the number back. *)
Lemma digits_format_digits fuel : forall un acc a,
  0 <= un < 10 ^ Z.of_nat fuel -> 0 <= a ->
  exists k, 0 <= k /\ digits (format_digits fuel un acc) a = digits acc (a * 10 ^ k + un).
Proof.
  induction fuel as [|fuel IH]; intros un acc a Hun Ha.
  - exists 0. split; [lia|]. cbn [format_digits]. f_equal. simpl in Hun. lia.
  - cbn [format_digits].
    assert (0 <= un mod 10 < 10) as Hd by (apply Z.mod_pos_bound; lia).
    destruct (Z.ltb_spec un 10) as [Hsmall|Hbig].
    + exists 1. split; [lia|]. cbn [digits]. rewrite digit_digit_char by done.
      rewrite Z.mod_small by lia. f_equal. lia.
    + destruct (IH (un / 10) (String (digit_char (un mod 10)) acc) a) as (k & Hk & ->);
        [|done|].
      { split; [apply Z.div_pos; lia|].
        apply Z.div_lt_upper_bound; [lia|].
        rewrite Nat2Z.inj_succ, Z.pow_succ_r in Hun by lia. lia. }
      exists (k + 1). split; [lia|]. cbn [digits]. rewrite digit_digit_char by done.
      f_equal. rewrite Z.pow_add_r by lia.
      pose proof (Z.div_mod un 10 ltac:(lia)). lia.
Qed.

Lemma format_digits_acc fuel : forall un c acc,
  format_digits fuel un (String c acc) <> EmptyString.
Proof.
  induction fuel as [|fuel IH]; intros un c acc; cbn [format_digits]; [done|].
  destruct (un <? 10); [done | apply IH].
Qed.

Lemma format_digits_nonempty fuel un acc :
  (0 < fuel)%nat -> format_digits fuel un acc <> EmptyString.
Proof.
  destruct fuel as [|fuel]; [lia|]. intros _. cbn [format_digits].
  destruct (un <? 10); [done | apply format_digits_acc].
Qed.

Lemma FormatUint_nonempty un : FormatUint un <> EmptyString.
Proof. unfold FormatUint. apply format_digits_nonempty. lia. Qed.

Lemma digits_FormatUint un : 0 <= un < 10 ^ 20 -> digits (FormatUint un) 0 = Some un.
Proof.
  intros Hun. unfold FormatUint.
  destruct (digits_format_digits 20%nat un EmptyString 0) as (k & _ & ->);
    [by change (Z.of_nat 20) with 20 | lia |]. by rewrite Z.mul_0_l.
Qed.

Lemma ParseUint_FormatUint un : 0 <= un < 2 ^ 64 -> ParseUint (FormatUint un) = inr un.
Proof.
  intros Hun. unfold ParseUint.
  pose proof (FormatUint_nonempty un) as Hne.
  destruct (FormatUint un) as [|c rest] eqn:Hs; [done|].
  rewrite <- Hs, digits_FormatUint by lia.
  destruct (Z.leb_spec (2 ^ 64) un); [lia | done].
Qed.

(** Every [int64] is the value of a specifier: [ParseInt] reads back what
    [FormatInt] writes. *)
Lemma ParseInt_FormatInt i : Int.in64 i -> ParseInt (FormatInt i) = inr i.
Proof.
  unfold Int.in64, Int.min64, Int.max64. intros Hi. unfold FormatInt.
  destruct (Z.ltb_spec i 0) as [Hneg|Hpos].
  - unfold ParseInt. cbn [Ascii.eqb Bool.eqb orb andb negb].
    rewrite ParseUint_FormatUint by lia. cbn [negb andb].
    destruct (Z.ltb_spec (2 ^ 63) (- i)); [lia|]. f_equal. lia.
  - pose proof (FormatUint_nonempty i) as Hne.
    pose proof (digits_FormatUint i ltac:(lia)) as Hdig.
    unfold ParseInt. destruct (FormatUint i) as [|c rest] eqn:Hs; [done|].
    assert (Ascii.eqb c "-" = false /\ Ascii.eqb c "+" = false) as [-> ->].
    { cbn [digits] in Hdig.
      split; [destruct (Ascii.eqb_spec c "-") as [->|] | destruct (Ascii.eqb_spec c "+") as [->|]];
        done. }
    cbn [orb negb andb]. rewrite <- Hs, ParseUint_FormatUint by lia.
    destruct (Z.leb_spec (2 ^ 63) i); [lia | done].
Qed.

End StrconvFacts.

(** ** resolveOffset *)

Section ResolveOffsetFacts.

Context {W : Type} `{!Broker W}.

Lemma ParseInt_in64 s n : Strconv.ParseInt s = inr n -> Int.in64 n.
Proof.
  unfold Strconv.ParseInt. destruct s as [|c rest]; [discriminate|].
  destruct (Strconv.ParseUint _) as [e|un] eqn:Hun; [discriminate|].
  assert (0 <= un) as Hpos.
  { unfold Strconv.ParseUint in Hun.
    assert (forall t acc r, 0 <= acc -> Strconv.digits t acc = Some r -> 0 <= r) as Hdig.
    { induction t as [|d t IH]; simpl; intros acc r Hacc Hr.
      - congruence.
      - unfold Strconv.digit in Hr.
        destruct (_ && _) eqn:Hd; [|discriminate].
        apply andb_prop in Hd as [Hd1 Hd2].
        eapply IH; [|exact Hr]. lia. }
    destruct (if _ || _ then rest else _); [discriminate|].
    destruct (Strconv.digits _ 0) as [r|] eqn:Hr; [|discriminate].
    destruct (2 ^ 64 <=? r); [discriminate|].
    injection Hun as <-. eapply Hdig; [|exact Hr]. lia. }
  unfold Int.in64, Int.min64, Int.max64.
  destruct (Ascii.eqb c "-"); simpl.
  - destruct (2 ^ 63 <? un) eqn:Hlt; [discriminate|].
    intros [= <-]. lia.
  - destruct (2 ^ 63 <=? un) eqn:Hle; [discriminate|].
    intros [= <-]. lia.
Qed.

Lemma ParseInt_not_oldest n : Strconv.ParseInt "oldest" <> inr n.
Proof. discriminate. Qed.

Lemma ParseInt_not_newest n : Strconv.ParseInt "newest" <> inr n.
Proof. discriminate. Qed.

(** A specifier that parses is none of the two names, so the first two
    tests of [resolveOffset] fail on it. *)
Lemma resolveOffset_numeric configOffset n brokers topic partition client :
  Strconv.ParseInt configOffset = inr n ->
  resolveOffset configOffset brokers topic partition client =
    if n >=? -2 then Ret (n, None)
    else
      let* (oldest, err) :=
        method client (fun c => call (CallGetOffset c topic partition OffsetOldest)) in
      match err with
      | Some e => Ret (0, Some e)
      | None =>
          let* (newest, err) :=
            method client (fun c => call (CallGetOffset c topic partition OffsetNewest)) in
          match err with
          | Some e => Ret (0, Some e)
          | None =>
              if Int.add64 newest n <? oldest then Ret (oldest, None)
              else Ret (Int.add64 newest n, None)
          end
      end.
Proof.
  intros Hn. unfold resolveOffset.
  destruct (String.eqb_spec configOffset "oldest") as [->|_].
  { by destruct (ParseInt_not_oldest n). }
  destruct (String.eqb_spec configOffset "newest") as [->|_].
  { by destruct (ParseInt_not_newest n). }
  by rewrite Hn.
Qed.

(** C5: the names "oldest" and "newest" resolve to the two sentinels, and
    an integer specifier [n >= -2] resolves to [n] itself: every string
    that [ParseInt] reads as such an [n], and so, for every [int64]
    [n >= -2], its decimal form.  In each case the call returns in the
    state it started from: no broker query, no event at all.  The client
    may even be nil. *)
Theorem resolveOffset_without_query (s : state) brokers topic partition client :
  run (resolveOffset "oldest" brokers topic partition client) s
    = Returned (OffsetOldest, None) s
  /\ run (resolveOffset "newest" brokers topic partition client) s
    = Returned (OffsetNewest, None) s
  /\ (forall configOffset n,
        Strconv.ParseInt configOffset = inr n -> n >= -2 ->
        run (resolveOffset configOffset brokers topic partition client) s
          = Returned (n, None) s)
  /\ (forall n,
        Int.in64 n -> n >= -2 ->
        run (resolveOffset (Strconv.FormatInt n) brokers topic partition client) s
          = Returned (n, None) s).
Proof.
  assert (forall configOffset n,
             Strconv.ParseInt configOffset = inr n -> n >= -2 ->
             run (resolveOffset configOffset brokers topic partition client) s
             = Returned (n, None) s) as Hnum.
  { intros configOffset n Hn Hge.
    rewrite (resolveOffset_numeric _ n) by done.
    destruct (Z.geb_spec n (-2)); [reflexivity | lia]. }
  split; [reflexivity|]. split; [reflexivity|]. split; [exact Hnum|].
  intros n Hin Hge. apply Hnum; [|done]. by apply StrconvFacts.ParseInt_FormatInt.
Qed.

(** C6: a specifier that is neither of the two names and does not parse
    as a signed 64-bit decimal integer makes [resolveOffset] return the
    error "Invalid value for consumer offset", in the state it started
    from: no broker query. *)
Theorem resolveOffset_invalid (s : state) configOffset brokers topic partition client e :
  configOffset <> "oldest" -> configOffset <> "newest" ->
  Strconv.ParseInt configOffset = inl e ->
  run (resolveOffset configOffset brokers topic partition client) s
    = Returned (0, Some InvalidOffsetValue) s.
Proof.
  intros Ho Hn He. unfold resolveOffset.
  destruct (String.eqb_spec configOffset "oldest"); [done|].
  destruct (String.eqb_spec configOffset "newest"); [done|].
  by rewrite He.
Qed.

(** C2: for an integer specifier [n < -2], [resolveOffset] asks the
    client for the oldest offset [O], then for the newest offset [N].
    When the first query fails the call returns its error, and the
    second is not made; when the second fails the call returns that
    error; when both succeed the result is [O] if [N + n < O] and
    [N + n] otherwise, that is [max O (N + n)], the sum being Go's
    [int64] sum.  The events of the call are these queries, in this
    order.  For a newest offset that is not negative the sum does not
    wrap. *)
Theorem resolveOffset_lookback (s : state) configOffset n brokers topic partition c
    O errO w1 N errN w2 :
  Strconv.ParseInt configOffset = inr n -> n < -2 ->
  GetOffset c topic partition OffsetOldest (world s) = ((O, errO), w1) ->
  GetOffset c topic partition OffsetNewest w1 = ((N, errN), w2) ->
  let s1 := emit (EvGetOffset c topic partition OffsetOldest) w1 s in
  let s2 := emit (EvGetOffset c topic partition OffsetNewest) w2 s1 in
  run (resolveOffset configOffset brokers topic partition (Some c)) s =
    match errO, errN with
    | Some e, _ => Returned (0, Some e) s1
    | None, Some e => Returned (0, Some e) s2
    | None, None =>
        Returned (if Int.add64 N n <? O then O else Int.add64 N n, None) s2
    end
  /\ (if Int.add64 N n <? O then O else Int.add64 N n) = Z.max O (Int.add64 N n)
  /\ (0 <= N <= Int.max64 -> Int.add64 N n = N + n).
Proof.
  intros Hn Hlt HO HN s1 s2. split; [|split].
  - rewrite (resolveOffset_numeric _ n) by done.
    destruct (Z.geb_spec n (-2)); [lia|].
    simpl. rewrite HO. destruct errO as [e|]; [reflexivity|].
    simpl. fold s1. replace (world s1) with w1 by reflexivity. rewrite HN.
    destruct errN as [e|]; [reflexivity|].
    fold s2. by destruct (_ <? _).
  - destruct (Z.ltb_spec (Int.add64 N n) O); lia.
  - intros HNr. apply IntFacts.add64_exact.
    pose proof (ParseInt_in64 _ _ Hn) as Hr.
    unfold Int.in64, Int.min64, Int.max64 in *. lia.
Qed.

End ResolveOffsetFacts.

Section ResolveOffsetExamples.

Import Fixtures.
#[local] Existing Instance scripted.

(** With oldest offset 10 and newest offset 100, "-50" resolves to 50 and
    "-95" to 10. *)
Lemma resolveOffset_lookback_examples :
  run (Broker0 := scripted healthy) (resolveOffset "-50" ["b:9092"] "t" 0 (Some 1%nat)) start
    = Returned (50, None)
        (State tt [EvGetOffset 1%nat "t" 0 OffsetOldest; EvGetOffset 1%nat "t" 0 OffsetNewest]
           ∅ [] [])
  /\ run (Broker0 := scripted healthy) (resolveOffset "-95" ["b:9092"] "t" 0 (Some 1%nat)) start
    = Returned (10, None)
        (State tt [EvGetOffset 1%nat "t" 0 OffsetOldest; EvGetOffset 1%nat "t" 0 OffsetNewest]
           ∅ [] []).
Proof.
  split.
  - exact (proj1 (resolveOffset_lookback (Broker0 := scripted healthy)
             start "-50" (-50) ["b:9092"] "t" 0 1%nat 10 None tt 100 None tt
             eq_refl eq_refl eq_refl eq_refl)).
  - exact (proj1 (resolveOffset_lookback (Broker0 := scripted healthy)
             start "-95" (-95) ["b:9092"] "t" 0 1%nat 10 None tt 100 None tt
             eq_refl eq_refl eq_refl eq_refl)).
Defined.

(** "-1", "-2" and "7" come back as they are, from a nil client. *)
Lemma resolveOffset_without_query_examples :
  run (Broker0 := scripted healthy) (resolveOffset "-1" [] "t" 0 None) start
    = Returned (-1, None) start
  /\ run (Broker0 := scripted healthy) (resolveOffset "-2" [] "t" 0 None) start
    = Returned (-2, None) start
  /\ run (Broker0 := scripted healthy) (resolveOffset "7" [] "t" 0 None) start
    = Returned (7, None) start.
Proof.
  pose proof (resolveOffset_without_query (Broker0 := scripted healthy)
                start [] "t" 0 None) as (_ & _ & Hnum & _).
  split; [|split].
  - apply (Hnum "-1" (-1)); [reflexivity | lia].
  - apply (Hnum "-2" (-2)); [reflexivity | lia].
  - apply (Hnum "7" 7); [reflexivity | lia].
Defined.

(** "abc" is refused. *)
Lemma resolveOffset_invalid_example :
  run (Broker0 := scripted healthy) (resolveOffset "abc" [] "t" 0 (Some 1%nat)) start
    = Returned (0, Some InvalidOffsetValue) start.
Proof.
  apply (resolveOffset_invalid (Broker0 := scripted healthy) start "abc" [] "t" 0
           (Some 1%nat) Strconv.ErrSyntax); [discriminate | discriminate | reflexivity].
Defined.

End ResolveOffsetExamples.

(** ** The concrete client type *)

Module ClientTypeFacts.
Import ClientType.

Lemma GetOffset_fuel fuel topic partition time r :
  GetOffset fuel topic partition time = Some r -> GetOffset_returns topic partition time r.
Proof. induction fuel as [|fuel IH]; simpl; [discriminate | auto]. Qed.

(** C10: a call of [client.GetOffset] or of [client.Close] never returns,
    whatever its arguments: no depth of calls is enough for a result,
    and no result is derivable for the call. *)
Theorem client_methods_never_return :
  (forall fuel topic partition time, GetOffset fuel topic partition time = None)
  /\ (forall fuel, Close fuel = None)
  /\ (forall topic partition time r, ~ GetOffset_returns topic partition time r)
  /\ (forall r, ~ Close_returns r).
Proof.
  repeat split.
  - intros fuel topic partition time. induction fuel as [|fuel IH]; simpl; auto.
  - intros fuel. induction fuel as [|fuel IH]; simpl; auto.
  - intros topic partition time r Hr. induction Hr as [r _ IH]. exact IH.
  - intros r Hr. induction Hr as [r _ IH]. exact IH.
Qed.

End ClientTypeFacts.

(** ** Running programs *)

Section RunFacts.

Context {W : Type} `{!Broker W}.

Lemma run_bind {A B : Type} (p : prog A) (f : A -> prog B) (s : state) :
  run (bind p f) s =
    match run p s with
    | Returned a s' => run (f a) s'
    | Panicked s' => Panicked s'
    end.
Proof.
  revert s. induction p as [a| |R o k IH]; intros s; simpl; try reflexivity.
  destruct (exec_op o s) as [[r s']|]; [apply IH | reflexivity].
Qed.

Lemma run_call {R : Type} (o : op R) (s : state) :
  run (call o) s =
    match exec_op o s with
    | Some (r, s') => Returned r s'
    | None => Panicked s
    end.
Proof. unfold call. simpl. by destruct (exec_op o s) as [[r s']|]. Qed.

Lemma run_log (l : logline) (s : state) :
  run (call (Log l)) s = Returned tt (emit (EvLog l) (world s) s).
Proof. reflexivity. Qed.

Lemma run_method {A B : Type} (x : A) (m : A -> prog B) (s : state) :
  run (method (Some x) m) s = run (m x) s.
Proof. reflexivity. Qed.

Lemma calls_app (t1 t2 : list event) : calls (t1 ++ t2) = calls t1 ++ calls t2.
Proof. apply List.filter_app. Qed.

Lemma emitted_refl (s : @state W) : emitted s s [].
Proof. unfold emitted. by rewrite app_nil_r. Qed.

Lemma emitted_emit (s : @state W) e w : emitted s (emit e w s) [e].
Proof. by unfold emitted. Qed.

Lemma emitted_trans (s1 s2 s3 : @state W) n1 n2 :
  emitted s1 s2 n1 -> emitted s2 s3 n2 -> emitted s1 s3 (n1 ++ n2).
Proof.
  unfold emitted. intros (Ht1 & Hh1 & He1 & Hc1) (Ht2 & Hh2 & He2 & Hc2).
  rewrite Ht2, Ht1, Hh2, Hh1, He2, He1, Hc2, Hc1. by rewrite app_assoc.
Qed.

End RunFacts.

(** ** cluster.close *)

Section CloseFacts.

Context {W : Type} `{!Broker W} `{!MapRange}.

(** The loop over the partition-consumers closes each of them, in order,
    whatever the closes answer. *)
Lemma closePartitionConsumers_calls bs (pcs : list PartitionConsumer) (s : state) :
  exists s' new,
    run (closePartitionConsumers bs (map Some pcs)) s = Returned tt s'
    /\ emitted s s' new
    /\ calls new = map EvClosePartitionConsumer pcs.
Proof.
  revert s. induction pcs as [|pc pcs IH]; intros s.
  - exists s, []. split; [reflexivity|]. split; [apply emitted_refl | reflexivity].
  - simpl. destruct (ClosePartitionConsumer pc (world s)) as [err w] eqn:Hc.
    set (s1 := emit (EvClosePartitionConsumer pc) w s).
    destruct err as [e|]; simpl.
    + destruct (IH (emit (EvLog (LogErrClosePartitionConsumer bs e)) (world s1) s1))
        as (s' & new & Hrun & Hem & Hcalls).
      exists s', ([EvClosePartitionConsumer pc; EvLog (LogErrClosePartitionConsumer bs e)] ++ new).
      split; [exact Hrun|]. split.
      * eapply emitted_trans; [|exact Hem].
        apply (emitted_trans s s1 _ [_] [_]); apply emitted_emit.
      * rewrite calls_app, Hcalls. reflexivity.
    + destruct (IH s1) as (s' & new & Hrun & Hem & Hcalls).
      exists s', ([EvClosePartitionConsumer pc] ++ new).
      split; [exact Hrun|]. split.
      * eapply emitted_trans; [apply emitted_emit | exact Hem].
      * rewrite calls_app, Hcalls. reflexivity.
Qed.

(** The run of [close] on an opened cluster, event by event: [mid] is
    what the loop over the partition-consumers emits, [lk] and [lc] are
    the log lines after the closes of the consumer and of the client. *)
Lemma close_run (s : state) (l : loc) (c : cluster)
    (pcs : list PartitionConsumer) (k : Consumer) (cl : Client) :
  heap s !! l = Some c ->
  partitionConsumers c = map Some pcs ->
  consumer c = Some k ->
  client c = Some cl ->
  exists s' mid lk lc,
    run (close l) s = Returned tt s'
    /\ emitted s s'
         ([EvLog (LogTryCloseCluster (brokers c));
           EvLog (LogTryClosePartitionConsumers (length (partitionConsumers c)) (brokers c))]
          ++ mid
          ++ [EvLog (LogTryCloseConsumer (brokers c)); EvCloseConsumer k; EvLog lk;
              EvLog (LogTryCloseClient (brokers c)); EvCloseClient cl; EvLog lc;
              EvLog (LogFinishedCloseCluster (brokers c))])
    /\ calls mid = map EvClosePartitionConsumer pcs.
Proof.
  intros Hl Hpcs Hk Hcl. unfold close.
  rewrite run_bind, run_call. cbn [exec_op]. rewrite Hl.
  rewrite run_bind, run_log. rewrite run_bind, run_log.
  set (s1 := emit _ _ (emit _ _ s)).
  rewrite run_bind, Hpcs.
  destruct (closePartitionConsumers_calls (brokers c) pcs s1) as (s2 & new & -> & Hem & Hcalls).
  rewrite run_bind, run_log. set (s3 := emit _ _ s2).
  rewrite run_bind, Hk, run_method, run_call. cbn [exec_op].
  destruct (CloseConsumer k (world s3)) as [errk wk] eqn:Hck.
  set (s4 := emit (EvCloseConsumer k) wk s3).
  rewrite run_bind.
  set (lk := match errk with
             | Some e => LogErrCloseConsumer (brokers c) e
             | None => LogClosedConsumer (brokers c)
             end).
  assert (run (match errk with
               | Some e => call (Log (LogErrCloseConsumer (brokers c) e))
               | None => call (Log (LogClosedConsumer (brokers c)))
               end) s4 = Returned tt (emit (EvLog lk) (world s4) s4)) as ->.
  { subst lk. by destruct errk. }
  set (s5 := emit (EvLog lk) _ s4).
  rewrite run_bind, run_log. set (s6 := emit _ _ s5).
  rewrite run_bind, Hcl, run_method, run_call. cbn [exec_op].
  destruct (CloseClient cl (world s6)) as [errc wc] eqn:Hcc.
  set (s7 := emit (EvCloseClient cl) wc s6).
  rewrite run_bind.
  set (lc := match errc with
             | Some e => LogErrCloseClient (brokers c) e
             | None => LogClosedClient (brokers c)
             end).
  assert (run (match errc with
               | Some e => call (Log (LogErrCloseClient (brokers c) e))
               | None => call (Log (LogClosedClient (brokers c)))
               end) s7 = Returned tt (emit (EvLog lc) (world s7) s7)) as ->.
  { subst lc. by destruct errc. }
  set (s8 := emit (EvLog lc) _ s7).
  rewrite run_log. set (s9 := emit _ _ s8).
  exists s9, new, lk, lc.
  split; [reflexivity|]. split; [|exact Hcalls].
  destruct Hem as (Ht & Hh & He & Hc).
  unfold emitted. subst s9 s8 s7 s6 s5 s4 s3 s1. simpl in *.
  rewrite Ht, Hh, He, Hc, Hpcs. repeat split.
  by rewrite <- !app_assoc.
Qed.


(** C8 at the failing inputs: [close] calls [Close] on [c.consumer] and
    on [c.client] without a nil check.  On a cluster whose consumer is
    nil it closes the partition-consumers and panics at
    [c.consumer.Close()]: the client is not closed, whatever it is.  On a
    cluster whose consumer is set and whose client is nil it closes the
    partition-consumers and the consumer and panics at
    [c.client.Close()].  In both cases [close] does not return. *)
Theorem close_panics_on_nil_handle (s : state) (l : loc) (c : cluster)
    (pcs : list PartitionConsumer) :
  heap s !! l = Some c ->
  partitionConsumers c = map Some pcs ->
  consumer c = None \/ client c = None ->
  exists s' new,
    run (close l) s = Panicked s'
    /\ emitted s s' new
    /\ (consumer c = None -> calls new = map EvClosePartitionConsumer pcs)
    /\ (forall k, consumer c = Some k ->
          calls new = map EvClosePartitionConsumer pcs ++ [EvCloseConsumer k]).
Proof.
  intros Hl Hpcs Hnil. unfold close.
  rewrite run_bind, run_call. cbn [exec_op]. rewrite Hl.
  rewrite run_bind, run_log. rewrite run_bind, run_log.
  set (s1 := emit _ _ (emit _ _ s)).
  rewrite run_bind, Hpcs.
  destruct (closePartitionConsumers_calls (brokers c) pcs s1) as (s2 & new & -> & Hem & Hcalls).
  rewrite run_bind, run_log. set (s3 := emit _ _ s2).
  assert (emitted s s3
            ([EvLog (LogTryCloseCluster (brokers c));
              EvLog (LogTryClosePartitionConsumers (length (partitionConsumers c)) (brokers c))]
             ++ new ++ [EvLog (LogTryCloseConsumer (brokers c))])) as Hem3.
  { apply (emitted_trans s s1 s3);
      [unfold emitted; subst s1; simpl; by rewrite <- app_assoc|].
    apply (emitted_trans s1 s2 s3); [exact Hem | apply emitted_emit]. }
  rewrite run_bind. destruct (consumer c) as [k|] eqn:Hk.
  - destruct Hnil as [Hnil|Hcl]; [discriminate|].
    rewrite run_method, run_call. cbn [exec_op].
    destruct (CloseConsumer k (world s3)) as [errk wk] eqn:Hck.
    set (s4 := emit (EvCloseConsumer k) wk s3).
    rewrite run_bind.
    set (lk := match errk with
               | Some e => LogErrCloseConsumer (brokers c) e
               | None => LogClosedConsumer (brokers c)
               end).
    assert (run (match errk with
                 | Some e => call (Log (LogErrCloseConsumer (brokers c) e))
                 | None => call (Log (LogClosedConsumer (brokers c)))
                 end) s4 = Returned tt (emit (EvLog lk) (world s4) s4)) as ->.
    { subst lk. by destruct errk. }
    set (s5 := emit (EvLog lk) _ s4).
    rewrite run_bind, run_log. set (s6 := emit _ _ s5).
    rewrite run_bind, Hcl. cbn [method run].
    exists s6, (([EvLog (LogTryCloseCluster (brokers c));
                  EvLog (LogTryClosePartitionConsumers (length (partitionConsumers c))
                           (brokers c))]
                 ++ new ++ [EvLog (LogTryCloseConsumer (brokers c))])
                ++ [EvCloseConsumer k; EvLog lk; EvLog (LogTryCloseClient (brokers c))]).
    split; [reflexivity|]. split.
    + apply (emitted_trans s s3 s6); [exact Hem3|].
      unfold emitted. subst s6 s5 s4. simpl. by rewrite <- !app_assoc.
    + split; [discriminate|]. intros k' [= <-].
      rewrite !calls_app, Hcalls. cbn. by rewrite app_nil_r.
  - cbn [method run]. eexists s3, _. split; [reflexivity|]. split; [exact Hem3|].
    split; [|discriminate]. intros _.
    rewrite !calls_app, Hcalls. cbn. by rewrite app_nil_r.
Qed.

(** X12: [close] on a cluster whose partition-consumers, consumer and
    client are set returns, and the library calls it makes are the close
    of every partition-consumer in order, then the close of the
    consumer, then the close of the client, whatever any of these
    closes answers; the memory is left as it is. *)
Theorem close_attempts_everything (s : state) (l : loc) (c : cluster)
    (pcs : list PartitionConsumer) (k : Consumer) (cl : Client) :
  heap s !! l = Some c ->
  partitionConsumers c = map Some pcs ->
  consumer c = Some k ->
  client c = Some cl ->
  exists s' new,
    run (close l) s = Returned tt s'
    /\ emitted s s' new
    /\ calls new = map EvClosePartitionConsumer pcs ++ [EvCloseConsumer k; EvCloseClient cl].
Proof.
  intros Hl Hpcs Hk Hcl.
  destruct (close_run s l c pcs k cl Hl Hpcs Hk Hcl) as (s' & mid & lk & lc & Hrun & Hem & Hmid).
  eexists s', _. split; [exact Hrun|]. split; [exact Hem|].
  rewrite !calls_app, Hmid. reflexivity.
Qed.

End CloseFacts.

Section CloseExamples.

Import Fixtures.

(** The cluster [setupClusters] leaves behind when the client opens and
    the consumer made from it does not: [close] panics and client 1 stays
    open. *)
Lemma close_panics_on_nil_handle_example :
  let c := Cluster ["a:9092"; "b:9092"] None (Some 1%nat) [] in
  let s : @state unit :=
    State tt [] {[0%nat := c]}
      [ErrorCreatingConsumer (ExternalError "kafka: tried to use a client that was closed")]
      [] in
  exists s' new,
    run (Broker0 := scripted no_consumer) (close 0%nat) s = Panicked s'
    /\ emitted s s' new
    /\ (consumer c = None -> calls new = [])
    /\ (forall k, consumer c = Some k -> calls new = [EvCloseConsumer k]).
Proof.
  intros c s.
  exact (close_panics_on_nil_handle (Broker0 := scripted no_consumer) s 0%nat c []
           eq_refl eq_refl (or_introl eq_refl)).
Defined.

(** Every close fails, and every close is attempted. *)
Lemma close_attempts_everything_example :
  exists s' new,
    run (Broker0 := scripted close_fails) (close 0%nat) opened = Returned tt s'
    /\ emitted opened s' new
    /\ calls new = [EvClosePartitionConsumer 10%nat; EvClosePartitionConsumer 11%nat;
                    EvCloseConsumer 2%nat; EvCloseClient 1%nat].
Proof.
  exact (close_attempts_everything (Broker0 := scripted close_fails)
           opened 0%nat open_cluster [10%nat; 11%nat] 2%nat 1%nat
           eq_refl eq_refl eq_refl eq_refl).
Defined.

End CloseExamples.

(** ** The registry of clusters *)

Section RegistryFacts.

Context {W : Type} `{!Broker W} `{!MapRange}.

Lemma registry_inv_empty h : registry_inv h [] ∅ h.
Proof.
  split.
  - intros b. rewrite lookup_empty. split.
    + by intros [? ?].
    + intros (c & Hc & _). by apply elem_of_nil in Hc.
  - intros b l. by rewrite lookup_empty.
  - intros b1 b2 l. by rewrite lookup_empty.
  - done.
  - auto.
Qed.

Lemma registry_inv_step h cs clusters h' c :
  registry_inv h cs clusters h' ->
  registry_inv h (cs ++ [c]) (addCluster (clusters, h') c).1 (addCluster (clusters, h') c).2.
Proof.
  intros [Hkeys Hfresh Hinj Hold Hnew]. unfold addCluster. fold (brokerKey c).
  destruct (clusters !! brokerKey c) as [l0|] eqn:Hc; simpl.
  - split; try done.
    + intros b. rewrite Hkeys. split.
      * intros (c' & Hc' & Hb). exists c'. split; [|done]. apply elem_of_app. by left.
      * intros (c' & [Hc'|Hc']%elem_of_app & Hb).
        -- by exists c'.
        -- apply list_elem_of_singleton in Hc' as ->. apply Hkeys. rewrite <- Hb. by exists l0.
    + intros b l Hl. destruct (Hfresh b l Hl) as (Hnot & c' & Hc' & Hb & Hh).
      split; [done|]. exists c'. split; [|done]. apply elem_of_app. by left.
  - set (l := fresh (dom h')).
    assert (l ∉ dom h') as Hl by apply is_fresh.
    assert (l ∉ dom h) as Hlh.
    { intros Hin. apply Hl. apply elem_of_dom. rewrite (Hold l Hin). by apply elem_of_dom. }
    assert (forall b l', clusters !! b = Some l' -> l' <> l) as Hrange.
    { intros b l' Hb ->. destruct (Hfresh b l Hb) as (_ & c' & _ & _ & Hh).
      apply Hl. apply elem_of_dom. by eexists. }
    split.
    + intros b. destruct (decide (b = brokerKey c)) as [->|Hne].
      * rewrite lookup_insert_eq. split; [|by eexists]. intros _.
        exists c. split; [|done]. apply elem_of_app. right. by apply list_elem_of_singleton.
      * rewrite lookup_insert_ne by done. rewrite Hkeys. split.
        -- intros (c' & Hc' & Hb). exists c'. split; [|done]. apply elem_of_app. by left.
        -- intros (c' & [Hc'|Hc']%elem_of_app & Hb).
           ++ by exists c'.
           ++ apply list_elem_of_singleton in Hc' as ->. by destruct Hne.
    + intros b l'. destruct (decide (b = brokerKey c)) as [->|Hne].
      * rewrite lookup_insert_eq. intros [= <-]. split; [done|].
        exists c. split; [|split; [done|]].
        -- apply elem_of_app. right. by apply list_elem_of_singleton.
        -- apply lookup_insert_eq.
      * rewrite lookup_insert_ne by done. intros Hb.
        destruct (Hfresh b l' Hb) as (Hnot & c' & Hc' & Hk & Hh).
        split; [done|]. exists c'. split; [|split; [done|]].
        -- apply elem_of_app. by left.
        -- rewrite lookup_insert_ne; [done|]. intros <-. by apply (Hrange b l).
    + intros b1 b2 l'.
      destruct (decide (b1 = brokerKey c)) as [->|Hne1];
        destruct (decide (b2 = brokerKey c)) as [->|Hne2]; try done.
      * rewrite lookup_insert_eq, lookup_insert_ne by done.
        intros [= <-] Hb. by destruct (Hrange _ _ Hb).
      * rewrite lookup_insert_eq, lookup_insert_ne by done.
        intros Hb [= <-]. by destruct (Hrange _ _ Hb).
      * rewrite !lookup_insert_ne by done. apply Hinj.
    + intros l' Hl'. rewrite lookup_insert_ne; [by apply Hold|]. by intros <-.
    + intros l'. rewrite dom_insert_L. intros [->%elem_of_singleton|Hin]%elem_of_union.
      * right. exists (brokerKey c). apply lookup_insert_eq.
      * destruct (Hnew l' Hin) as [?|[b Hb]]; [by left|]. right. exists b.
        rewrite lookup_insert_ne; [done|]. intros <-. by rewrite Hc in Hb.
Qed.

Lemma buildClusters_inv h cs :
  registry_inv h cs (buildClusters cs h).1 (buildClusters cs h).2.
Proof.
  unfold buildClusters. induction cs as [|c cs IH] using rev_ind.
  - apply registry_inv_empty.
  - rewrite fold_left_app. simpl.
    destruct (fold_left addCluster cs (∅, h)) as [clusters h'].
    by apply registry_inv_step.
Qed.

(** C7: the registry built from the specs [cs] has one entry for each
    key that occurs among the specs and no other; the entry of a key is
    a pointer to a struct allocated for it, with the broker list of a
    spec of that key and nothing opened; two keys never share a struct.
    So two specs with the same broker list, in the same order, find the
    same struct.  Two specs naming the same addresses in another order
    have different keys, and get two structs. *)
Theorem registry_one_cluster_per_key (cs : list consumerConfig) (h : gmap loc cluster) :
  let clusters := (buildClusters cs h).1 in
  let h' := (buildClusters cs h).2 in
  dom clusters = list_to_set (brokerKey <$> cs)
  /\ (forall c, c ∈ cs ->
        exists l c0, clusters !! brokerKey c = Some l
          /\ (l ∉ dom h)
          /\ c0 ∈ cs /\ brokerKey c0 = brokerKey c
          /\ h' !! l = Some (Cluster (Config.brokers c0) None None []))
  /\ (forall c1 c2, c1 ∈ cs -> c2 ∈ cs -> Config.brokers c1 = Config.brokers c2 ->
        is_Some (clusters !! brokerKey c1)
        /\ clusters !! brokerKey c1 = clusters !! brokerKey c2)
  /\ (forall b1 b2 l, clusters !! b1 = Some l -> clusters !! b2 = Some l -> b1 = b2)
  /\ (let two := (buildClusters [ConfigFixtures.spec_ab_all; ConfigFixtures.spec_ba] ∅).1 in
      two !! "a:9092,b:9092" = Some 0%nat /\ two !! "b:9092,a:9092" = Some 1%nat).
Proof.
  intros clusters h'. destruct (buildClusters_inv h cs) as [Hkeys Hfresh Hinj Hold Hnew].
  fold clusters in Hkeys, Hfresh, Hinj. fold h' in Hfresh.
  split; [|split; [|split; [|split]]].
  - apply set_eq. intros b. rewrite elem_of_dom, Hkeys, elem_of_list_to_set, list_elem_of_fmap.
    split; intros (c & ? & ?); exists c; done.
  - intros c Hc. destruct (proj2 (Hkeys (brokerKey c))) as [l Hl]; [by exists c|].
    destruct (Hfresh _ _ Hl) as (Hnot & c0 & Hc0 & Hk & Hh).
    by exists l, c0.
  - intros c1 c2 Hc1 Hc2 Hb. split.
    + apply Hkeys. by exists c1.
    + unfold brokerKey. by rewrite Hb.
  - exact Hinj.
  - by vm_compute.
Qed.

End RegistryFacts.

(** ** Goroutines *)

Section PoolFacts.

Context {W : Type} `{!Broker W}.

Lemma run_thread_steps (t : prog unit) : forall (p : pool) (i : nat) (s s' : state) a,
  p !! i = Some t -> run t s = Returned a s' ->
  rtc pool_step (p, s) (<[i := Ret a]> p, s').
Proof.
  induction t as [u| |R o k IH]; intros p i s s' a Hi Hrun; simpl in Hrun.
  - injection Hrun as <- <-. rewrite list_insert_id by done. apply rtc_refl.
  - discriminate.
  - destruct (exec_op o s) as [[r s1]|] eqn:Hex; [|discriminate].
    eapply rtc_l; [by eapply pool_step_op|].
    assert (i < length p)%nat as Hlt by (by eapply lookup_lt_Some).
    rewrite <- (list_insert_insert_eq p i (Ret a) (k r)).
    apply (IH r); [|done]. by apply list_lookup_insert_eq.
Qed.

Lemma run_all_steps (rest : pool) : forall (pre : pool) (s s' : state),
  Forall ended pre -> run_all rest s = Returned tt s' ->
  exists p', rtc pool_step (pre ++ rest, s) (p', s') /\ Forall ended p'
             /\ length p' = length (pre ++ rest).
Proof.
  induction rest as [|t rest IH]; intros pre s s' Hpre Hrun; simpl in Hrun.
  - injection Hrun as <-. exists (pre ++ []). split; [apply rtc_refl|].
    split; [by rewrite app_nil_r | done].
  - destruct (run t s) as [a s1|s1] eqn:Ht; [|discriminate].
    destruct (IH (pre ++ [Ret a]) s1 s') as (p' & Hsteps & Hend & Hlen); [|done|].
    { apply Forall_app. split; [done|]. by apply Forall_singleton. }
    exists p'. split; [|split; [done|]].
    + eapply rtc_trans; [|exact Hsteps].
      replace ((pre ++ [Ret a]) ++ rest) with (<[length pre := Ret a]> (pre ++ t :: rest)).
      * apply (run_thread_steps t); [|done]. by apply list_lookup_middle.
      * rewrite insert_app_r_alt by lia. rewrite Nat.sub_diag. simpl.
        by rewrite <- app_assoc.
    + rewrite Hlen, !length_app. simpl. lia.
Qed.

Lemma step_at_steps (i : nat) (p p' : pool) (s s' : state) :
  step_at i p s = Some (p', s') ->
  rtc pool_step (p, s) (p', s') /\ length p' = length p.
Proof.
  unfold step_at. destruct (p !! i) as [[u| |R o k]|] eqn:Hi.
  - intros [= <- <-]. split; [apply rtc_refl | done].
  - discriminate.
  - destruct (exec_op o s) as [[r s1]|] eqn:Hex; [|discriminate].
    intros [= <- <-]. split; [|by rewrite length_insert].
    apply rtc_once. by eapply pool_step_op.
  - intros [= <- <-]. split; [apply rtc_refl | done].
Qed.

(** Every execution of a schedule that returns is a sequence of steps of
    the pool to a pool in which every goroutine has ended. *)
Lemma run_sched_steps (sched : list nat) : forall (p : pool) (s s' : state),
  run_sched sched p s = Returned tt s' ->
  exists p', rtc pool_step (p, s) (p', s') /\ Forall ended p' /\ length p' = length p.
Proof.
  induction sched as [|i sched IH]; intros p s s' Hrun; simpl in Hrun.
  - by apply (run_all_steps p []).
  - destruct (step_at i p s) as [[p1 s1]|] eqn:Hstep; [|discriminate].
    apply step_at_steps in Hstep as [Hstep Hlen1].
    destruct (IH _ _ _ Hrun) as (p' & Hsteps & Hend & Hlen).
    exists p'. split; [by eapply rtc_trans|]. split; [done | congruence].
Qed.

(** *** Rely and guarantee *)

Section RelyGuarantee.

Variables (Rl Gl : nat -> relation (@state W)) (Ql : nat -> @state W -> Prop).
Hypothesis Rl_refl : forall i s, Rl i s s.
Hypothesis Rl_trans : forall i s1 s2 s3, Rl i s1 s2 -> Rl i s2 s3 -> Rl i s1 s3.
Hypothesis Gl_Rl : forall i j s s', i <> j -> Gl i s s' -> Rl j s s'.

Local Abbreviation pool_safe := (pool_safe Rl Gl Ql).

Lemma wpr_stable {A : Type} i (t : prog A) Q s s' :
  Rl i s s' -> wpr (Rl i) (Gl i) t Q s -> wpr (Rl i) (Gl i) t Q s'.
Proof.
  intros HR. destruct t as [a| |R o k]; simpl; [|done|].
  - intros Hq s2 HR2. apply Hq. by eapply Rl_trans.
  - intros Hq s2 HR2. apply Hq. by eapply Rl_trans.
Qed.

Lemma pool_safe_step p s p' s' :
  pool_safe p s -> pool_step (p, s) (p', s') -> pool_safe p' s'.
Proof.
  intros Hsafe Hstep. inversion Hstep as [p0 s0 i R o k r s1 Hi Hex]; subst.
  pose proof (Hsafe i _ Hi) as Hwp. simpl in Hwp.
  specialize (Hwp s (Rl_refl i s)). rewrite Hex in Hwp. destruct Hwp as [HG Hk].
  intros j t Hj. destruct (decide (i = j)) as [<-|Hne].
  - rewrite list_lookup_insert_eq in Hj by (by eapply lookup_lt_Some).
    by injection Hj as <-.
  - rewrite list_lookup_insert_ne in Hj by done.
    eapply wpr_stable; [by eapply Gl_Rl | by apply Hsafe].
Qed.

Lemma pool_safe_steps ps ps' :
  rtc pool_step ps ps' -> pool_safe ps.1 ps.2 -> pool_safe ps'.1 ps'.2.
Proof.
  induction 1 as [|[p s] [p1 s1] ps' Hstep _ IH]; [done|].
  intros Hsafe. apply IH. by eapply pool_safe_step.
Qed.

(** What every goroutine guarantees at its end holds when all of them
    have ended, under every schedule. *)
Lemma run_sched_safe sched p s s' :
  pool_safe p s -> run_sched sched p s = Returned tt s' ->
  forall i, (i < length p)%nat -> Ql i s'.
Proof.
  intros Hsafe Hrun i Hi.
  destruct (run_sched_steps _ _ _ _ Hrun) as (p' & Hsteps & Hend & Hlen).
  pose proof (pool_safe_steps _ _ Hsteps Hsafe) as Hsafe'. simpl in Hsafe'.
  destruct (lookup_lt_is_Some_2 p' i) as [t Ht]; [lia|].
  pose proof (Hsafe' i t Ht) as Hwp.
  rewrite Forall_lookup in Hend. specialize (Hend i t Ht).
  destruct t as [u| |R o k]; try done. simpl in Hwp. by apply Hwp.
Qed.

End RelyGuarantee.

Lemma wpr_bind {A B : Type} (R G : relation state) (t : prog A) (f : A -> prog B) Q s :
  (forall s, R s s) ->
  wpr R G t (fun a s' => wpr R G (f a) Q s') s -> wpr R G (bind t f) Q s.
Proof.
  intros Hrefl. revert s. induction t as [a| |X o k IH]; intros s; simpl; [|done|].
  - intros Hq. by apply Hq.
  - intros Hq s1 HR. specialize (Hq s1 HR).
    destruct (exec_op o s1) as [[r s2]|]; [|done].
    destruct Hq as [HG Hk]. split; [done|]. by apply IH.
Qed.

Lemma wpr_mono {A : Type} (R G : relation state) (t : prog A) (Q Q' : A -> state -> Prop) s :
  (forall a s', Q a s' -> Q' a s') -> wpr R G t Q s -> wpr R G t Q' s.
Proof.
  intros HQ. revert s. induction t as [a| |X o k IH]; intros s; simpl; [|done|].
  - intros Hq s' HR. by apply HQ, Hq.
  - intros Hq s1 HR. specialize (Hq s1 HR).
    destruct (exec_op o s1) as [[r s2]|]; [|done].
    destruct Hq as [HG Hk]. split; [done|]. by apply IH.
Qed.

Lemma wpr_call {X : Type} (R G : relation state) (o : op X) (Q : X -> state -> Prop) s :
  (forall s1, R s s1 ->
     match exec_op o s1 with
     | Some (r, s2) => G s1 s2 /\ forall s3, R s2 s3 -> Q r s3
     | None => True
     end) ->
  wpr R G (call o) Q s.
Proof. intros Hq. unfold call. simpl. exact Hq. Qed.

Lemma wpr_ret {A : Type} (R G : relation state) (a : A) (Q : A -> state -> Prop) s :
  (forall s1, R s s1 -> Q a s1) -> wpr R G (Ret a) Q s.
Proof. done. Qed.

(** *** Programs that open no partition *)

Lemma consumes_app (t1 t2 : list event) : consumes (t1 ++ t2) = consumes t1 ++ consumes t2.
Proof. apply List.filter_app. Qed.

Lemma exec_op_consumes {R : Type} (o : op R) (s s' : state) r :
  ~ opens_partition o -> exec_op o s = Some (r, s') ->
  consumes (trace s') = consumes (trace s).
Proof.
  intros Hq. destruct o; simpl; try (by destruct Hq);
    repeat match goal with
    | |- context [let '(_, _) := ?x in _] => destruct x
    | |- context [match heap s !! ?l with _ => _ end] => destruct (heap s !! l)
    end;
    intros [= <- <-] || discriminate; simpl;
    rewrite ?consumes_app, ?app_nil_r; done.
Qed.

Lemma never_bind {A B : Type} P (t : prog A) (f : A -> prog B) :
  never P t -> (forall a, never P (f a)) -> never P (bind t f).
Proof.
  intros Ht Hf. induction t as [a| |R o k IH]; simpl; [done|done|].
  destruct Ht as [Ho Hk]. split; [done|]. intros r. by apply IH.
Qed.

Lemma ends_with_bind {A B : Type} P (t : prog A) (f : A -> prog B) :
  never P t -> (forall a, ends_with P (f a)) -> ends_with P (bind t f).
Proof.
  intros Ht Hf. induction t as [a| |R o k IH]; simpl; [done|done|].
  destruct Ht as [Ho Hk]. split; [done|]. intros r. by apply IH.
Qed.

Lemma run_quiet {A : Type} (t : prog A) : forall (s : state),
  quiet t -> consumes (trace (final (run t s))) = consumes (trace s).
Proof.
  induction t as [a| |R o k IH]; intros s Hq; simpl; [done|done|].
  destruct Hq as [Ho Hk].
  destruct (exec_op o s) as [[r s1]|] eqn:Hex; [|done].
  rewrite IH by done. by eapply exec_op_consumes.
Qed.

Lemma run_all_quiet (p : pool) : forall (s : state),
  Forall quiet p -> consumes (trace (final (run_all p s))) = consumes (trace s).
Proof.
  induction p as [|t p IH]; intros s Hq; simpl; [done|].
  apply Forall_cons in Hq as [Ht Hp].
  pose proof (run_quiet t s Ht) as Hrun.
  destruct (run t s) as [a s1|s1]; simpl in *; [|done].
  by rewrite IH.
Qed.

Lemma run_sched_quiet (sched : list nat) : forall (p : pool) (s : state),
  Forall quiet p -> consumes (trace (final (run_sched sched p s))) = consumes (trace s).
Proof.
  induction sched as [|i sched IH]; intros p s Hq; simpl.
  - by apply run_all_quiet.
  - unfold step_at. destruct (p !! i) as [[u| |R o k]|] eqn:Hi; try by apply IH.
    + done.
    + rewrite Forall_lookup in Hq. pose proof (Hq i _ Hi) as [Ho Hk].
      destruct (exec_op o s) as [[r s1]|] eqn:Hex; [|done].
      rewrite IH.
      * by eapply exec_op_consumes.
      * apply Forall_insert; [by apply Forall_lookup | apply Hk].
Qed.

End PoolFacts.

(** ** setupClusters *)

Section SetupClustersFacts.

Context {W : Type} `{!Broker W} `{!MapRange}.

Lemma cw_rely_refl l (s : @state W) : cw_rely l s s.
Proof. by split. Qed.

Lemma cw_rely_trans l (s1 s2 s3 : @state W) :
  cw_rely l s1 s2 -> cw_rely l s2 s3 -> cw_rely l s1 s3.
Proof. intros [Hh1 He1] [Hh2 He2]. split; [congruence | auto]. Qed.

Lemma cw_guar_rely l l' (s s' : @state W) : l <> l' -> cw_guar l s s' -> cw_rely l' s s'.
Proof. intros Hne [Hh He]. split; [apply Hh; congruence | done]. Qed.

Lemma cw_guar_emit l (s : @state W) e w : cw_guar l s (emit e w s).
Proof. by split. Qed.

Ltac wp_call :=
  apply wpr_bind; [apply cw_rely_refl|]; apply wpr_call;
  let s1 := fresh "s" in let Hh := fresh "Hh" in let He := fresh "He" in
  intros s1 [Hh He]; cbn [exec_op].

Lemma clusterWorker_wpr clusters b l h0 c (s : @state W) :
  handles_or_errors -> clusters !! b = Some l -> h0 !! l = Some c -> heap s !! l = Some c ->
  wpr (cw_rely l) (cw_guar l) (clusterWorker clusters b) (fun _ => cw_post h0 l) s.
Proof.
  intros [Hnc Hnk] Hb Hc0 Hc. unfold clusterWorker. rewrite Hb. cbn [method].
  (* c := clusters[b] *)
  wp_call. rewrite Hh, Hc. split; [by split|].
  intros s1 [Hh1 _]. rewrite Hh in Hh1. rewrite Hc in Hh1. clear dependent s. clear s0.
  (* log *)
  wp_call. split; [apply cw_guar_emit|].
  intros s2 [Hh2 _]. simpl in Hh2. rewrite Hh in Hh2. rewrite Hh1 in Hh2.
  clear dependent s. clear dependent s1.
  (* newClient *)
  wp_call. pose proof (Hnc (brokers c) (world s)) as Hwb.
  destruct (newClient (brokers c) (world s)) as [[cl err] w]. simpl in Hwb.
  split; [apply cw_guar_emit|].
  intros s3 [Hh3 _]. simpl in Hh3. rewrite Hh in Hh3. rewrite Hh2 in Hh3.
  clear dependent s. clear dependent s2.
  assert (wpr (cw_rely l) (cw_guar l)
            (match err with
             | Some e => call (AppendError (ErrorCreatingClient e))
             | None => Ret tt
             end)
            (fun _ s => heap s !! l = Some c /\ (cl = None -> errors s <> [])) s3) as Hfirst.
  { destruct err as [e|].
    - apply wpr_call. intros s [Hh _]. cbn [exec_op]. split.
      + split; [done|]. intros _. simpl. by destruct (errors s).
      + intros s' [Hh' He']. simpl in *. split; [congruence|].
        intros _. apply He'. by destruct (errors s).
    - apply wpr_ret. intros s [Hh _]. split; [congruence|].
      intros ->. by destruct Hwb. }
  apply wpr_bind; [apply cw_rely_refl|].
  eapply wpr_mono; [|exact Hfirst]. clear dependent s3. cbn beta.
  intros _ s [Hc Hcl].
  (* newConsumerFromClient *)
  wp_call. pose proof (Hnk cl (world s0)) as Hwk.
  destruct (newConsumerFromClient cl (world s0)) as [[k err'] w']. simpl in Hwk.
  split; [apply cw_guar_emit|].
  intros s1 [Hh1 He1]. simpl in Hh1, He1.
  assert (heap s1 !! l = Some c) as Hc1 by congruence.
  assert (cl = None -> errors s1 <> []) as Hcl1 by auto.
  clear dependent s. clear dependent s0.
  assert (wpr (cw_rely l) (cw_guar l)
            (match err' with
             | Some e => call (AppendError (ErrorCreatingConsumer e))
             | None => Ret tt
             end)
            (fun _ s => heap s !! l = Some c
                        /\ (cl = None \/ k = None -> errors s <> [])) s1) as Hsecond.
  { destruct err' as [e|].
    - apply wpr_call. intros s [Hh _]. cbn [exec_op]. split.
      + split; [done|]. intros _. simpl. by destruct (errors s).
      + intros s' [Hh' He']. simpl in *. split; [congruence|].
        intros _. apply He'. by destruct (errors s).
    - apply wpr_ret. intros s [Hh He]. split; [congruence|].
      intros [->| ->]; [auto | by destruct Hwk]. }
  apply wpr_bind; [apply cw_rely_refl|].
  eapply wpr_mono; [|exact Hsecond]. clear dependent s1. cbn beta.
  intros _ s [Hc Herr].
  (* c.client = client *)
  wp_call. rewrite Hh, Hc. split.
  { split; [|done]. intros l' Hne. simpl. by rewrite lookup_insert_ne. }
  intros s1 [Hh1 He1]. simpl in Hh1, He1. rewrite lookup_insert_eq in Hh1.
  assert (cl = None \/ k = None -> errors s1 <> []) as Herr1 by auto.
  clear dependent s. clear dependent s0.
  (* c.consumer = consumer *)
  apply wpr_call. intros s [Hh He]. cbn [exec_op]. rewrite Hh, Hh1. split.
  { split; [|done]. intros l' Hne. simpl. by rewrite lookup_insert_ne. }
  intros s2 [Hh2 He2]. simpl in Hh2, He2. rewrite lookup_insert_eq in Hh2.
  exists c. eexists. split; [exact Hc0|]. split; [exact Hh2|]. simpl.
  split; [done|]. split; [done|]. auto.
Qed.

Lemma range_order_lookup clusters b l :
  clusters !! b = Some l <-> exists i, range_order clusters !! i = Some (b, l).
Proof.
  rewrite <- list_elem_of_lookup, (range_order_perm clusters).
  by rewrite elem_of_map_to_list.
Qed.

Lemma range_order_distinct clusters h i j bi li bj lj :
  registry_ok clusters h -> i <> j ->
  range_order clusters !! i = Some (bi, li) ->
  range_order clusters !! j = Some (bj, lj) -> li <> lj.
Proof.
  intros [_ Hinj] Hij Hi Hj ->.
  assert (bi = bj) as ->.
  { eapply Hinj; apply range_order_lookup; eauto. }
  apply Hij. eapply NoDup_lookup; [|exact Hi|exact Hj].
  rewrite (range_order_perm clusters). apply NoDup_map_to_list.
Qed.

(** Under every schedule, when all cluster workers have ended each
    cluster of the registry has a handle unset only if an error has
    been recorded. *)
Lemma setupClusters_post sched clusters (s : @state W) errs s' :
  handles_or_errors -> registry_ok clusters (heap s) ->
  setupClusters sched clusters s = Returned errs s' ->
  errs = errors s' /\ forall b l, clusters !! b = Some l -> cw_post (heap s) l s'.
Proof.
  intros Hwb Hok. unfold setupClusters.
  set (ro := range_order clusters).
  set (p := map _ ro).
  destruct (run_sched sched p (set_errors [] s)) as [[] s1|s1] eqn:Hrun; [|discriminate].
  intros [= <- <-]. split; [done|].
  set (Rl := fun i => match ro !! i with
                      | Some (_, l) => cw_rely l
                      | None => fun _ _ : @state W => True
                      end).
  set (Gl := fun i => match ro !! i with
                      | Some (_, l) => cw_guar l
                      | None => fun _ _ : @state W => False
                      end).
  set (Ql := fun i => match ro !! i with
                      | Some (_, l) => cw_post (heap s) l
                      | None => fun _ : @state W => True
                      end).
  assert (forall i, (i < length p)%nat -> Ql i s1) as Hall.
  { eapply (run_sched_safe Rl Gl Ql); [| | | |exact Hrun].
    - intros i s0. unfold Rl. destruct (ro !! i) as [[b l]|]; [apply cw_rely_refl | done].
    - intros i s2 s3 s4. unfold Rl.
      destruct (ro !! i) as [[b l]|]; [apply cw_rely_trans | done].
    - intros i j s2 s3 Hij. unfold Rl, Gl.
      destruct (ro !! i) as [[bi li]|] eqn:Hi; [|done].
      destruct (ro !! j) as [[bj lj]|] eqn:Hj; [|done].
      apply cw_guar_rely. by eapply range_order_distinct.
    - intros i t Hi. unfold p in Hi. rewrite list_lookup_fmap in Hi.
      unfold Rl, Gl, Ql.
      destruct (ro !! i) as [[b l]|] eqn:Hro; [|discriminate].
      simpl in Hi. injection Hi as <-.
      assert (clusters !! b = Some l) as Hb by (apply range_order_lookup; eauto).
      destruct (proj1 Hok b l Hb) as [c Hc].
      by apply (clusterWorker_wpr clusters b l (heap s) c (set_errors [] s)). }
  intros b l Hb. apply range_order_lookup in Hb as [i Hi].
  specialize (Hall i). unfold Ql in Hall. fold ro in Hi. rewrite Hi in Hall.
  apply Hall. unfold p. rewrite length_map. by eapply lookup_lt_Some.
Qed.

(** *** Which programs open no partition *)

Create HintDb quiet.

Ltac quiet_tac :=
  repeat first
    [ solve [auto with quiet nocore]
    | progress intros
    | apply never_bind
    | match goal with
      | |- never _ (method ?r _) => destruct r; cbn [method]
      | |- never _ (match ?x with _ => _ end) => destruct x
      | |- never _ (call _) => split; [by intros [] | by intros]
      | |- never _ (Ret _) => exact I
      | |- never _ Panic => exact I
      end ].

Lemma quiet_closePartitionConsumers bs pcs : quiet (closePartitionConsumers bs pcs).
Proof.
  induction pcs as [|pc pcs IH]; cbn [closePartitionConsumers]; [done|]. quiet_tac.
Qed.
#[local] Hint Resolve quiet_closePartitionConsumers : quiet.

Lemma quiet_close l : quiet (close l).
Proof. unfold close. quiet_tac. Qed.
#[local] Hint Resolve quiet_close : quiet.

Lemma quiet_closeEach ls : quiet (closeEach ls).
Proof. induction ls as [|l ls IH]; cbn [closeEach]; [done|]. quiet_tac. Qed.
#[local] Hint Resolve quiet_closeEach : quiet.

Lemma quiet_closeAll clusters : quiet (closeAll clusters).
Proof. unfold closeAll. quiet_tac. Qed.
#[local] Hint Resolve quiet_closeAll : quiet.

Lemma quiet_logErrors es : forall i, quiet (logErrors i es).
Proof. induction es as [|e es IH]; intros i; cbn [logErrors]; [done|]. quiet_tac. Qed.
#[local] Hint Resolve quiet_logErrors : quiet.

Lemma quiet_clusterWorker clusters b : quiet (clusterWorker clusters b).
Proof. unfold clusterWorker. quiet_tac. Qed.

Lemma setupClusters_quiet sched clusters (s : @state W) :
  consumes (trace (final (setupClusters sched clusters s))) = consumes (trace s).
Proof.
  unfold setupClusters.
  pose proof (run_sched_quiet sched
                (map (fun e => clusterWorker clusters e.1) (range_order clusters))
                (set_errors [] s)) as Hq.
  destruct (run_sched _ _ _) as [[] s1|s1]; simpl in *; apply Hq;
    apply Forall_forall; intros t [e [-> _]]%list_elem_of_fmap; apply quiet_clusterWorker.
Qed.

(** The teardown of a failed bootstrap opens no partition. *)
Lemma teardown_quiet (first : logline) errs clusters (s : @state W) :
  consumes (trace (final (run (call (Log first);; logErrors 0 errs;; closeAll clusters;;
                                Ret (None : option (list chan),
                                     None : option (gmap string loc), false)) s)))
    = consumes (trace s).
Proof.
  apply run_quiet. quiet_tac.
Qed.

End SetupClustersFacts.

Section SetupClustersTheorems.

Context {W : Type} `{!Broker W} `{!MapRange}.

Lemma buildClusters_registry_ok cs (h : gmap loc cluster) :
  registry_ok (buildClusters cs h).1 (buildClusters cs h).2.
Proof.
  destruct (buildClusters_inv h cs) as [_ Hfresh Hinj _ _]. split; [|done].
  intros b l Hl. destruct (Hfresh b l Hl) as (_ & c & _ & _ & Hc). by eexists.
Qed.

(** C4, as the code has it: with a library that never answers a nil
    handle together with a nil error, when [setupClusters] returns no
    error every cluster of the registry has both its client and its
    consumer set, under every schedule of its goroutines; and
    [setupPartitionConsumers] calls [ConsumePartition] only in
    executions in which [setupClusters] returned no error, that is only
    when every cluster has both handles set. *)
Theorem setupClusters_no_error_all_opened :
  handles_or_errors ->
  (forall sched clusters (s : @state W) errs s',
      registry_ok clusters (heap s) ->
      setupClusters sched clusters s = Returned errs s' ->
      errs = [] -> all_opened clusters (heap s'))
  /\ (forall sched1 sched2 conf (s : @state W),
        consumes (trace (final (setupPartitionConsumers sched1 sched2 conf s)))
          <> consumes (trace s) ->
        exists s1,
          setupClusters sched1 (buildClusters (Config.consumers conf) (heap s)).1
            (set_heap (buildClusters (Config.consumers conf) (heap s)).2 s) = Returned [] s1
          /\ all_opened (buildClusters (Config.consumers conf) (heap s)).1 (heap s1)).
Proof.
  intros Hwb.
  assert (forall sched clusters (s : @state W) errs s',
             registry_ok clusters (heap s) ->
             setupClusters sched clusters s = Returned errs s' ->
             errs = [] -> all_opened clusters (heap s')) as Hfirst.
  { intros sched clusters s errs s' Hok Hrun ->.
    destruct (setupClusters_post _ _ _ _ _ Hwb Hok Hrun) as [Herrs Hpost].
    intros b l Hb. destruct (Hpost b l Hb) as (c0 & c & _ & Hc & _ & _ & Hunset).
    exists c. split; [done|].
    destruct (client c) as [cl|] eqn:Hcl; [|by destruct Hunset; auto].
    destruct (consumer c) as [k|] eqn:Hk; [|by destruct Hunset; auto].
    split; by eexists. }
  split; [exact Hfirst|].
  intros sched1 sched2 conf s. unfold setupPartitionConsumers.
  pose proof (buildClusters_registry_ok (Config.consumers conf) (heap s)) as Hok.
  destruct (buildClusters (Config.consumers conf) (heap s)) as [clusters h].
  cbn [fst snd] in *.
  pose proof (setupClusters_quiet sched1 clusters (set_heap h s)) as Hq.
  destruct (setupClusters sched1 clusters (set_heap h s)) as [errs s1|s1] eqn:Hsetup;
    cbn [final] in Hq; [|by intros []].
  destruct errs as [|e errs].
  - intros _. exists s1. split; [done|]. 
    by apply (Hfirst sched1 clusters (set_heap h s) [] s1 Hok Hsetup).
  - cbn [length Nat.ltb Nat.leb]. rewrite teardown_quiet, Hq. by intros [].
Qed.

End SetupClustersTheorems.

Section SetupClustersExamples.

Import Fixtures ConfigFixtures RunFixtures.

Lemma healthy_handles_or_errors : handles_or_errors (Broker0 := scripted healthy).
Proof. split; intros; discriminate. Qed.

(** The client opens and the consumer does not: [setupClusters] returns
    with the one cluster holding a client and no consumer. *)
Lemma setupClusters_client_without_consumer :
  one_registry !! "b:9092,a:9092" = Some 0%nat
  /\ setupClusters (Broker0 := scripted no_consumer) [] one_registry one_state
     = Returned
         [ErrorCreatingConsumer (ExternalError "kafka: tried to use a client that was closed")]
         (State tt
            [EvLog (LogAddingClientConsumer ["b:9092"; "a:9092"]);
             EvNewClient ["b:9092"; "a:9092"];
             EvNewConsumerFromClient (Some 1%nat)]
            {[0%nat := Cluster ["b:9092"; "a:9092"] None (Some 1%nat) []]}
            [ErrorCreatingConsumer (ExternalError "kafka: tried to use a client that was closed")]
            []).
Proof. split; by vm_compute. Qed.

(** Every call succeeds: the one cluster ends up with both handles. *)
Lemma setupClusters_no_error_all_opened_example :
  all_opened one_registry
    (heap (final (setupClusters (Broker0 := scripted healthy) [] one_registry one_state))).
Proof.
  refine (proj1 (setupClusters_no_error_all_opened (Broker0 := scripted healthy)
                   healthy_handles_or_errors)
            [] one_registry one_state [] _ _ _ eq_refl).
  - apply (buildClusters_registry_ok [spec_ba] ∅).
  - by vm_compute.
Defined.

End SetupClustersExamples.

(** ** setupPartitionConsumers *)

Section SingleGoroutine.

Context {W : Type} `{!Broker W}.

(** With one goroutine in the pool the schedule makes no difference. *)
Lemma run_sched_single (sched : list nat) : forall (t : prog unit) (s : @state W),
  run_sched sched [t] s = run_all [t] s.
Proof.
  induction sched as [|i sched IH]; intros t s; [reflexivity|].
  cbn [run_sched]. unfold step_at. destruct i as [|i]; cbn [lookup list_lookup].
  - destruct t as [u| |R o k]; [apply IH | reflexivity |].
    cbn [run_all run]. destruct (exec_op o s) as [[r s']|]; [|reflexivity].
    cbn [insert list_insert]. rewrite IH. reflexivity.
  - apply IH.
Qed.

Lemma run_sched_one (sched : list nat) (p : pool) (s : @state W) :
  length p = 1%nat -> run_sched sched p s = run_all p s.
Proof.
  destruct p as [|t [|t' p]]; try discriminate. intros _. apply run_sched_single.
Qed.

End SingleGoroutine.

Section PartitionLoopFacts.

Context {W : Type} `{!Broker W} `{!MapRange}.

(** [resolveOffset] touches neither the heap nor the shared slices. *)
Lemma resolveOffset_emitted configOffset bs topic partition client (s : @state W) r s' :
  run (resolveOffset configOffset bs topic partition client) s = Returned r s' ->
  exists new, emitted s s' new.
Proof.
  unfold resolveOffset.
  destruct (String.eqb configOffset "oldest").
  { intros [= <- <-]. exists []. apply emitted_refl. }
  destruct (String.eqb configOffset "newest").
  { intros [= <- <-]. exists []. apply emitted_refl. }
  destruct (Strconv.ParseInt configOffset) as [e|n].
  { intros [= <- <-]. exists []. apply emitted_refl. }
  destruct (n >=? -2).
  { intros [= <- <-]. exists []. apply emitted_refl. }
  destruct client as [c|]; [|discriminate]. cbn [method].
  rewrite run_bind, run_call. cbn [exec_op].
  destruct (GetOffset c topic partition OffsetOldest (world s)) as [[O errO] w1].
  destruct errO as [e|].
  { intros [= <- <-]. exists [EvGetOffset c topic partition OffsetOldest]. apply emitted_emit. }
  rewrite run_bind, run_call. cbn [exec_op].
  destruct (GetOffset c topic partition OffsetNewest _) as [[N errN] w2].
  assert (emitted s (emit (EvGetOffset c topic partition OffsetNewest) w2
                       (emit (EvGetOffset c topic partition OffsetOldest) w1 s))
            ([EvGetOffset c topic partition OffsetOldest]
             ++ [EvGetOffset c topic partition OffsetNewest])) as Hem.
  { eapply emitted_trans; apply emitted_emit. }
  destruct errN as [e|].
  { intros [= <- <-]. by eexists. }
  destruct (_ <? _); intros [= <- <-]; by eexists.
Qed.

Lemma snoc_neq {A : Type} (l : list A) (x : A) : l ++ [x] <> l.
Proof.
  intros Heq. apply (f_equal length) in Heq. rewrite length_app in Heq. simpl in Heq. lia.
Qed.

(** A run of the loop that returns without a new error went through
    all its partitions, so whatever follows the loop runs next. *)
Lemma forPartitions_completed l cc client consumer (after : prog unit) partitions :
  forall (s s0 : @state W),
    run (forPartitions l cc client consumer partitions (Ret tt)) s = Returned tt s0 ->
    errors s0 = errors s ->
    run (forPartitions l cc client consumer partitions after) s = run after s0.
Proof.
  induction partitions as [|p partitions IH]; intros s s0 Hrun Herr.
  - simpl in Hrun. injection Hrun as <-. reflexivity.
  - cbn [forPartitions] in *. rewrite run_bind in *.
    destruct (run (resolveOffset _ _ _ p client) s) as [[off err] sa|sa] eqn:Hres;
      [|discriminate].
    destruct (resolveOffset_emitted _ _ _ _ _ _ _ _ Hres) as (na & _ & _ & Hea & _).
    destruct err as [e|].
    { rewrite run_call in Hrun. cbn [exec_op] in Hrun. injection Hrun as <-.
      simpl in Herr. rewrite Hea in Herr. by destruct (snoc_neq _ _ Herr). }
    destruct consumer as [k|]; [|discriminate]. cbn [method] in *.
    rewrite run_bind, run_call in *. cbn [exec_op] in *.
    destruct (ConsumePartition k (Config.topic cc) p off (world sa)) as [[pc err] w].
    destruct err as [e|].
    { rewrite run_call in Hrun. cbn [exec_op] in Hrun. injection Hrun as <-.
      simpl in Herr. rewrite Hea in Herr. by destruct (snoc_neq _ _ Herr). }
    rewrite run_bind, run_call in *. cbn [exec_op] in *.
    change (heap (emit (EvConsumePartition k (Config.topic cc) p off) w sa)) with (heap sa) in *.
    destruct (heap sa !! l) as [c|] eqn:Hl; [|discriminate].
    rewrite run_bind, run_call in *. cbn [exec_op] in *.
    change (heap (emit (EvConsumePartition k (Config.topic cc) p off) w sa)) with (heap sa) in *.
    rewrite Hl in *.
    rewrite run_bind in *.
    destruct pc as [pc|]; [|discriminate]. cbn [method] in *.
    rewrite run_call in *. cbn [exec_op] in *.
    destruct (Messages pc _) as [ch w'].
    rewrite run_bind, run_call in *. cbn [exec_op] in *.
    apply IH; [exact Hrun|]. rewrite Herr. simpl. by rewrite Hea.
Qed.

Ltac path_tac :=
  repeat first
    [ progress intros
    | apply ends_with_bind
    | apply never_bind
    | match goal with
      | |- _ (method ?r _) => destruct r; cbn [method]
      | |- _ (match ?x with _ => _ end) => destruct x
      | |- _ (if ?x then _ else _) => destruct x
      | |- never _ (call _) => split; [by intros [] | by intros]
      | |- ends_with _ (call _) => split; [by eauto | by intros]
      | |- _ (Ret _) => exact I
      | |- _ Panic => exact I
      end ].

Lemma resolveOffset_records_nothing configOffset bs topic partition client :
  never (@records_unresolved) (resolveOffset configOffset bs topic partition client).
Proof. unfold resolveOffset. path_tac. Qed.

Lemma forPartitions_ends_with l cc client consumer (after : prog unit) partitions :
  ends_with (@records_unresolved) after ->
  ends_with (@records_unresolved) (forPartitions l cc client consumer partitions after).
Proof.
  intros Hafter. induction partitions as [|p partitions IH]; cbn [forPartitions]; [done|].
  apply ends_with_bind; [apply resolveOffset_records_nothing|].
  path_tac. exact IH.
Qed.

(** C3, as the code has it: when the loop of a worker has gone through
    the partitions [done] without an error and the offset of the next
    target partition [p] cannot be resolved, the worker records that one
    error and ends: its run stops in the state [resolveOffset] left, with
    the error appended, whatever partitions [rest] remain and whatever
    follows the loop, so nothing is resolved or opened for [rest].  And on
    every path a worker can take, whatever the library answers, the
    recording of such an error is its last operation. *)
Theorem forPartitions_stops_at_failed_resolve clusters l cc client consumer done p rest
    (after : prog unit) (s s0 s1 : @state W) v e :
  run (forPartitions l cc client consumer done (Ret tt)) s = Returned tt s0 ->
  errors s0 = errors s ->
  run (resolveOffset (Config.offset cc) (Config.brokers cc) (Config.topic cc) p client) s0
    = Returned (v, Some e) s1 ->
  run (forPartitions l cc client consumer (done ++ p :: rest) after) s
    = Returned tt
        (set_errors
           (errors s1 ++ [CouldNotResolveOffset (Config.brokers cc) (Config.topic cc) p e])
           s1)
  /\ ends_with (@records_unresolved) (partitionWorker clusters cc).
Proof.
  intros Hdone Herr Hres. split.
  - assert (forall qs K (s : @state W),
               run (forPartitions l cc client consumer (done ++ qs) K) s
               = run (forPartitions l cc client consumer done
                        (forPartitions l cc client consumer qs K)) s) as Happ.
    { clear. induction done as [|q done IH]; intros qs K s; [reflexivity|].
      cbn [app forPartitions]. rewrite !run_bind.
      destruct (run (resolveOffset _ _ _ q client) s) as [[off err] sa|sa]; [|reflexivity].
      destruct err as [e|]; [reflexivity|].
      rewrite !run_bind. destruct (run (method consumer _) sa) as [[pc err] sb|sb]; [|reflexivity].
      destruct err as [e|]; [reflexivity|].
      rewrite !run_bind. destruct (run (call (Load l)) sb) as [c sc|sc]; [|reflexivity].
      rewrite !run_bind. destruct (run (call (StorePartitionConsumers l _)) sc) as [u sd|sd];
        [|reflexivity].
      rewrite !run_bind. destruct (run (method pc _) sd) as [ch se|se]; [|reflexivity].
      rewrite !run_bind. destruct (run (call (AppendChan ch)) se) as [u' sf|sf]; [|reflexivity].
      apply IH. }
    rewrite Happ, (forPartitions_completed _ _ _ _ _ _ _ _ Hdone Herr).
    cbn [forPartitions]. rewrite run_bind, Hres. reflexivity.
  - unfold partitionWorker.
    destruct (clusters !! Join (Config.brokers cc) ","); cbn [method]; [|done].
    apply ends_with_bind; [path_tac|]. intros c.
    destruct (Config.partition cc =? -1).
    + apply ends_with_bind; [path_tac|]. intros [partitions [e'|]]; [path_tac|].
      apply forPartitions_ends_with. path_tac.
    + apply forPartitions_ends_with. path_tac.
Qed.

End PartitionLoopFacts.

Section BootstrapExamples.

Import Fixtures ConfigFixtures RunFixtures.

(** Partition 1 resolves and opens, partition 0 cannot be resolved: the
    loop over 1, 0, 1 stops at 0, and what follows the loop is not run. *)
Lemma forPartitions_stops_at_failed_resolve_example :
  let s0 := final (run (Broker0 := scripted partition0_down)
                     (forPartitions 0%nat spec_ab_all (Some 1%nat) (Some 2%nat) [1] (Ret tt))
                     opened) in
  let s1 := final (run (Broker0 := scripted partition0_down)
                     (resolveOffset "-50" ["a:9092"; "b:9092"] "t" 0 (Some 1%nat)) s0) in
  run (Broker0 := scripted partition0_down)
    (forPartitions 0%nat spec_ab_all (Some 1%nat) (Some 2%nat) ([1] ++ 0 :: [1])
       (call (Log LogReady))) opened
  = Returned tt
      (set_errors
         (errors s1 ++ [CouldNotResolveOffset ["a:9092"; "b:9092"] "t" 0
                          (ExternalError "kafka: leader not available")])
         s1).
Proof.
  intros s0 s1.
  refine (proj1 (forPartitions_stops_at_failed_resolve (Broker0 := scripted partition0_down)
                   ∅ 0%nat spec_ab_all (Some 1%nat) (Some 2%nat) [1] 0 [1] (call (Log LogReady))
                   opened s0 s1 0 (ExternalError "kafka: leader not available") _ _ _));
    by vm_compute.
Defined.

(** The spec asks for all partitions of "t", which are 0 and 1; the
    offsets of partition 0 cannot be queried, those of partition 1 can.
    The bootstrap queries partition 0 once and never turns to
    partition 1: no offset query and no [ConsumePartition] for it. *)
Lemma worker_abandons_remaining_partitions :
  a_Partitions partition0_down 2%nat "t" = ([0; 1], None)
  /\ a_GetOffset partition0_down 1%nat "t" 1 OffsetOldest = (10, None)
  /\ calls (trace (final (setupPartitionConsumers (Broker0 := scripted partition0_down)
                            [] [] one_conf start)))
     = [EvNewClient ["a:9092"; "b:9092"]; EvNewConsumerFromClient (Some 1%nat);
        EvPartitions 2%nat "t"; EvGetOffset 1%nat "t" 0 OffsetOldest;
        EvCloseConsumer 2%nat; EvCloseClient 1%nat]
  /\ errors (final (setupPartitionConsumers (Broker0 := scripted partition0_down)
                      [] [] one_conf start))
     = [CouldNotResolveOffset ["a:9092"; "b:9092"] "t" 0
          (ExternalError "kafka: leader not available")].
Proof. repeat split; by vm_compute. Qed.

(** C1 at a failing input: one spec, and a cluster that cannot be
    reached, so that [newClient] answers a nil client and an error.
    Under every schedule [setupPartitionConsumers] records the errors,
    starts the teardown and panics in [close] at the call of [Close] on
    the nil consumer: it does not return, and no close is made. *)
Theorem setupPartitionConsumers_unreachable_cluster_panics (sched1 sched2 : list nat) :
  exists s',
    setupPartitionConsumers (Broker0 := scripted no_client) sched1 sched2 one_conf start
      = Panicked s'
    /\ errors s' = [ErrorCreatingClient unreachable;
                    ErrorCreatingConsumer (ExternalError "no client")]
    /\ heap s' !! 0%nat = Some (Cluster ["a:9092"; "b:9092"] None None [])
    /\ calls (trace s') = [EvNewClient ["a:9092"; "b:9092"]; EvNewConsumerFromClient None].
Proof.
  unfold setupPartitionConsumers.
  destruct (buildClusters (Config.consumers one_conf) (heap start)) as [clusters h] eqn:Hb.
  vm_compute in Hb. injection Hb as <- <-.
  unfold setupClusters. rewrite run_sched_one by reflexivity.
  eexists. split; [by vm_compute|]. repeat split; by vm_compute.
Qed.

(** The same teardown when the client opens and the consumer made from
    it does not: under every schedule the one cluster is left with
    client 1 and a nil consumer, [closeAll] reaches [close] on it, and
    [close] panics before the client is closed. *)
Lemma setupPartitionConsumers_leaves_client_open (sched1 sched2 : list nat) :
  exists s',
    setupPartitionConsumers (Broker0 := scripted no_consumer) sched1 sched2 one_conf start
      = Panicked s'
    /\ errors s' = [ErrorCreatingConsumer
                      (ExternalError "kafka: tried to use a client that was closed")]
    /\ heap s' !! 0%nat = Some (Cluster ["a:9092"; "b:9092"] None (Some 1%nat) [])
    /\ calls (trace s') = [EvNewClient ["a:9092"; "b:9092"];
                           EvNewConsumerFromClient (Some 1%nat)].
Proof.
  unfold setupPartitionConsumers.
  destruct (buildClusters (Config.consumers one_conf) (heap start)) as [clusters h] eqn:Hb.
  vm_compute in Hb. injection Hb as <- <-.
  unfold setupClusters. rewrite run_sched_one by reflexivity.
  eexists. split; [by vm_compute|]. repeat split; by vm_compute.
Qed.

End BootstrapExamples.

(** ** The second phase and the teardown *)

Section PartitionPhaseFacts.

Context {W : Type} `{!Broker W} `{!MapRange}.
Variable clusters : gmap string loc.

Local Abbreviation ready := (fun s : @state W => all_ready clusters (heap s)).
Local Abbreviation R := (keeps_ready (W := W) clusters).

Lemma keeps_ready_refl (s : @state W) : R s s.
Proof. by intros H'. Qed.

Lemma keeps_ready_trans (s1 s2 s3 : @state W) : R s1 s2 -> R s2 s3 -> R s1 s3.
Proof. intros H1 H2 H'. by apply H2, H1. Qed.

(** One operation that keeps the clusters ready, then the rest. *)
Lemma wpr_ready_step {X A : Type} (o : op X) (k : X -> prog A) (P : X -> Prop)
    (Q : A -> @state W -> Prop) s :
  ready s ->
  (forall s1, ready s1 ->
     match exec_op o s1 with
     | Some (r, s2) => ready s2 /\ P r
     | None => True
     end) ->
  (forall r s2, P r -> ready s2 -> wpr R R (k r) Q s2) ->
  wpr R R (Do o k) Q s.
Proof.
  intros Hs Hop Hk. simpl. intros s1 HR. specialize (Hop s1 (HR Hs)).
  destruct (exec_op o s1) as [[r s2]|]; [|done].
  destruct Hop as [Hs2 HP]. split; [by intros _|]. by apply Hk.
Qed.

Lemma wpr_ready_ret {A : Type} (a : A) s :
  ready s -> wpr R R (Ret a) (fun _ s' => ready s') s.
Proof. intros Hs s1 HR. by apply HR. Qed.

Lemma wpr_ready_kept {X A : Type} (o : op X) (k : X -> prog A)
    (Q : A -> @state W -> Prop) s :
  heap_kept o -> ready s ->
  (forall r s2, ready s2 -> wpr R R (k r) Q s2) ->
  wpr R R (Do o k) Q s.
Proof.
  intros Hkept Hs Hk. apply (wpr_ready_step o k (fun _ => True)); [done| |by auto].
  intros s1 Hs1. destruct (exec_op o s1) as [[r s2]|] eqn:Hex; [|done].
  split; [|done]. cbn beta. by rewrite (Hkept _ _ _ Hex).
Qed.

Ltac kept_tac :=
  let s := fresh "s" in let r := fresh "r" in let s' := fresh "s'" in
  intros s r s'; cbn [exec_op];
  repeat match goal with
         | |- context [let '(_, _) := ?x in _] => destruct x
         end;
  by intros [= <- <-].

Lemma resolveOffset_wpr configOffset bs topic partition client s :
  ready s ->
  wpr R R (resolveOffset configOffset bs topic partition client) (fun _ s' => ready s') s.
Proof.
  intros Hs. unfold resolveOffset.
  destruct (String.eqb configOffset "oldest"); [by apply wpr_ready_ret|].
  destruct (String.eqb configOffset "newest"); [by apply wpr_ready_ret|].
  destruct (Strconv.ParseInt configOffset) as [e|n]; [by apply wpr_ready_ret|].
  destruct (n >=? -2); [by apply wpr_ready_ret|].
  destruct client as [c|]; [|done]. cbn [method].
  apply wpr_ready_kept; [kept_tac | done |]. intros [O errO] s1 Hs1. cbn [bind].
  destruct errO as [e|]; [by apply wpr_ready_ret|].
  apply wpr_ready_kept; [kept_tac | done |]. intros [N errN] s2 Hs2. cbn [bind].
  destruct errN as [e|]; [by apply wpr_ready_ret|].
  destruct (_ <? _); by apply wpr_ready_ret.
Qed.

Lemma call_AppendError_wpr e s :
  ready s -> wpr R R (call (AppendError e)) (fun _ s' => ready s') s.
Proof.
  intros Hs. apply wpr_ready_kept; [kept_tac | done |].
  intros r s2 Hs2. by apply wpr_ready_ret.
Qed.

(** The append of a partition-consumer that is not nil to the slice read
    from a ready cluster keeps the clusters ready. *)
Lemma store_ready l c pc (s s' : @state W) :
  ready s -> Forall is_Some (partitionConsumers c) ->
  exec_op (StorePartitionConsumers l (partitionConsumers c ++ [Some pc])) s = Some (tt, s') ->
  ready s'.
Proof.
  intros Hs Hpcs. cbn [exec_op].
  destruct (heap s !! l) as [cur|] eqn:Hcur; [|discriminate].
  intros [= <-]. intros b l' Hb. simpl.
  destruct (Hs b l' Hb) as (c' & Hc' & Hcl & Hk & Hall).
  destruct (decide (l' = l)) as [->|Hne].
  - rewrite lookup_insert_eq. eexists. split; [done|].
    rewrite Hcur in Hc'. injection Hc' as ->.
    split; [done|]. split; [done|]. simpl.
    apply Forall_app. split; [done|]. apply Forall_singleton. by eexists.
  - rewrite lookup_insert_ne by done. by exists c'.
Qed.

Lemma forPartitions_wpr l cc client consumer (after : prog unit) partitions :
  consumers_or_errors ->
  (exists b, clusters !! b = Some l) ->
  (forall s, ready s -> wpr R R after (fun _ s' => ready s') s) ->
  forall s, ready s ->
    wpr R R (forPartitions l cc client consumer partitions after) (fun _ s' => ready s') s.
Proof.
  intros Hwb [b Hb] Hafter.
  induction partitions as [|p partitions IH]; intros s Hs; cbn [forPartitions]; [by apply Hafter|].
  apply wpr_bind; [apply keeps_ready_refl|].
  eapply wpr_mono; [|by apply resolveOffset_wpr]. cbn beta.
  intros [off err] s1 Hs1. destruct err as [e|]; [by apply call_AppendError_wpr|].
  destruct consumer as [k|]; [|done]. cbn [method].
  apply (wpr_ready_step _ _ (fun r => r <> (None, None))); [done| |].
  { intros s2 Hs2. cbn [exec_op].
    pose proof (Hwb k (Config.topic cc) p off (world s2)) as Hne.
    destruct (ConsumePartition k (Config.topic cc) p off (world s2)) as [r w]. by split. }
  intros [pc err] s2 Hne Hs2. cbn [bind].
  destruct err as [e|]; [by apply call_AppendError_wpr|].
  destruct pc as [pc|]; [|done].
  apply (wpr_ready_step _ _ (fun c => Forall is_Some (partitionConsumers c))); [done| |].
  { intros s3 Hs3. cbn [exec_op].
    destruct (heap s3 !! l) as [c|] eqn:Hc; [|done]. split; [done|].
    destruct (Hs3 b l Hb) as (c' & Hc' & _ & _ & Hall). congruence. }
  intros c s3 Hpcs Hs3. cbn [bind].
  apply (wpr_ready_step _ _ (fun _ => True)); [done| |].
  { intros s4 Hs4.
    destruct (exec_op (StorePartitionConsumers l _) s4) as [[[] s5]|] eqn:Hex; [|done].
    split; [|done]. by eapply store_ready. }
  intros [] s4 _ Hs4. cbn [bind method].
  apply wpr_ready_kept; [kept_tac | done |]. intros ch s5 Hs5. cbn [bind].
  apply wpr_ready_kept; [kept_tac | done |]. intros [] s6 Hs6. cbn [bind].
  by apply IH.
Qed.

Lemma partitionWorker_wpr cc s :
  consumers_or_errors -> ready s ->
  wpr R R (partitionWorker clusters cc) (fun _ s' => ready s') s.
Proof.
  intros Hwb Hs. unfold partitionWorker.
  destruct (clusters !! Join (Config.brokers cc) ",") as [l|] eqn:Hl; [|done]. cbn [method].
  apply wpr_ready_kept.
  { intros s0 r s'. cbn [exec_op]. destruct (heap s0 !! l); [|done]. by intros [= <- <-]. }
  { done. }
  intros c s1 Hs1. cbn [bind].
  assert (forall n s, ready s ->
            wpr R R (call (Log (LogAddedPartitionConsumers n (Config.topic cc))))
              (fun _ s' => ready s') s) as Hafter.
  { intros n s2 Hs2. apply wpr_ready_kept; [kept_tac | done |].
    intros [] s3 Hs3. by apply wpr_ready_ret. }
  destruct (Config.partition cc =? -1).
  - destruct (consumer c) as [k|]; [|done]. cbn [method].
    apply wpr_ready_kept; [kept_tac | done |]. intros [partitions err] s2 Hs2. cbn [bind].
    destruct err as [e|]; [by apply call_AppendError_wpr|].
    apply forPartitions_wpr; [done | by eauto | by auto | done].
  - apply forPartitions_wpr; [done | by eauto | by auto | done].
Qed.

Lemma run_sched_empty (sched : list nat) (s : @state W) :
  run_sched sched [] s = Returned tt s.
Proof. induction sched as [|i sched IH]; [done|]. cbn [run_sched]. by unfold step_at. Qed.

(** Under every schedule, the second phase leaves every cluster of the
    registry ready. *)
Lemma partition_phase_ready sched cs (s s' : @state W) :
  consumers_or_errors -> ready s ->
  run_sched sched (map (partitionWorker clusters) cs) s = Returned tt s' ->
  ready s'.
Proof.
  intros Hwb Hs Hrun. destruct cs as [|c cs].
  { rewrite run_sched_empty in Hrun. by injection Hrun as <-. }
  refine (run_sched_safe (fun _ => R) (fun _ => R) (fun _ s' => ready s')
            (fun _ => keeps_ready_refl) (fun _ => keeps_ready_trans) (fun _ _ _ _ _ H' => H')
            sched (map (partitionWorker clusters) (c :: cs)) s s' _ Hrun 0%nat _);
    [|simpl; lia].
  intros i t [cc [-> _]]%list_lookup_fmap_Some. by apply partitionWorker_wpr.
Qed.

End PartitionPhaseFacts.

Section TeardownFacts.

Context {W : Type} `{!Broker W} `{!MapRange}.

(** The log of the collected errors: one line for each, with its index. *)
Lemma logErrors_run es : forall i (s : @state W),
  exists s', run (logErrors i es) s = Returned tt s'
    /\ emitted s s' (imap (fun j e => EvLog (LogErrorNumber (i + j) e)) es).
Proof.
  induction es as [|e es IH]; intros i s; cbn [logErrors].
  - exists s. split; [done|]. apply emitted_refl.
  - rewrite run_bind, run_log.
    destruct (IH (S i) (emit (EvLog (LogErrorNumber i e)) (world s) s)) as (s' & Hrun & Hem).
    exists s'. split; [done|]. cbn [imap]. rewrite Nat.add_0_r.
    eapply (emitted_trans _ _ _ [_]); [apply emitted_emit|].
    replace (imap ((fun j e0 => EvLog (LogErrorNumber (i + j) e0)) ∘ S) es)
      with (imap (fun j e0 => EvLog (LogErrorNumber (S i + j) e0)) es); [done|].
    apply imap_ext. intros j e0 _. simpl. do 2 f_equal. lia.
Qed.

Lemma all_Some_map {A : Type} (l : list (option A)) :
  Forall is_Some l -> exists xs, l = map Some xs.
Proof.
  induction 1 as [|o l [x ->] _ [xs ->]]; [by exists []|]. by exists (x :: xs).
Qed.

Lemma calls_elem (e : event) (t : list event) : e ∈ calls t -> e ∈ t.
Proof.
  unfold calls. rewrite !list_elem_of_In, List.filter_In. by intros [? _].
Qed.

(** [close] on a ready cluster returns, having called [Close] on each of
    its partition-consumers, on its consumer and on its client. *)
Lemma close_ready (l : loc) (c : cluster) (s : @state W) :
  heap s !! l = Some c -> cluster_ready c ->
  exists s' new k cl,
    run (close l) s = Returned tt s' /\ emitted s s' new
    /\ consumer c = Some k /\ client c = Some cl
    /\ EvCloseConsumer k ∈ new /\ EvCloseClient cl ∈ new
    /\ (forall pc, Some pc ∈ partitionConsumers c -> EvClosePartitionConsumer pc ∈ new).
Proof.
  intros Hl ([cl Hcl] & [k Hk] & Hall).
  destruct (all_Some_map _ Hall) as [pcs Hpcs].
  destruct (close_run s l c pcs k cl Hl Hpcs Hk Hcl) as (s' & mid & lk & lc & Hrun & Hem & Hmid).
  eexists s', _, k, cl. split; [exact Hrun|]. split; [exact Hem|].
  split; [done|]. split; [done|].
  split; [|split].
  - rewrite !elem_of_app. right. right. set_solver.
  - rewrite !elem_of_app. right. right. set_solver.
  - intros pc Hpc. rewrite !elem_of_app. right. left. apply calls_elem.
    rewrite Hmid. apply list_elem_of_fmap. exists pc. split; [done|].
    rewrite Hpcs in Hpc. by apply list_elem_of_fmap in Hpc as (pc' & [= ->] & ?).
Qed.

(** [closeAll]'s loop over ready clusters returns, having closed every
    one of them. *)
Lemma closeEach_ready (ls : list loc) : forall (s : @state W),
  (forall l, l ∈ ls -> exists c, heap s !! l = Some c /\ cluster_ready c) ->
  exists s' new,
    run (closeEach ls) s = Returned tt s' /\ emitted s s' new
    /\ (forall l, l ∈ ls ->
          exists c k cl, heap s !! l = Some c /\ consumer c = Some k /\ client c = Some cl
            /\ EvCloseConsumer k ∈ new /\ EvCloseClient cl ∈ new
            /\ (forall pc, Some pc ∈ partitionConsumers c -> EvClosePartitionConsumer pc ∈ new)).
Proof.
  induction ls as [|l ls IH]; intros s Hready; cbn [closeEach].
  - exists s, []. split; [done|]. split; [apply emitted_refl|].
    intros l Hl. by apply elem_of_nil in Hl.
  - destruct (Hready l) as (c & Hc & Hrdy); [by left|].
    destruct (close_ready l c s Hc Hrdy)
      as (s1 & new1 & k & cl & Hrun1 & Hem1 & Hk & Hcl & Hink & Hincl & Hinpc).
    rewrite run_bind, Hrun1.
    destruct (IH s1) as (s' & new2 & Hrun2 & Hem2 & Hrest).
    { intros l' Hl'. destruct Hem1 as (_ & -> & _). apply Hready. by right. }
    exists s', (new1 ++ new2). split; [done|]. split; [by eapply emitted_trans|].
    intros l' [->|Hl']%elem_of_cons.
    + exists c, k, cl. split; [done|]. split; [done|]. split; [done|].
      split; [apply elem_of_app; by left|]. split; [apply elem_of_app; by left|].
      intros pc Hpc. apply elem_of_app. left. by apply Hinpc.
    + destruct (Hrest l' Hl') as (c' & k' & cl' & Hc' & Hk' & Hcl' & Hink' & Hincl' & Hpcs').
      destruct Hem1 as (_ & Hh1 & _). rewrite Hh1 in Hc'.
      exists c', k', cl'. split; [done|]. split; [done|]. split; [done|].
      split; [apply elem_of_app; by right|]. split; [apply elem_of_app; by right|].
      intros pc Hpc. apply elem_of_app. right. by apply Hpcs'.
Qed.

(** The clusters are ready when [setupClusters] has returned no error. *)
Lemma setupClusters_ready sched cs (s s1 : @state W) :
  handles_or_errors ->
  setupClusters sched (buildClusters cs (heap s)).1 (set_heap (buildClusters cs (heap s)).2 s)
    = Returned [] s1 ->
  errors s1 = [] /\ all_ready (buildClusters cs (heap s)).1 (heap s1).
Proof.
  intros Hwb Hrun.
  pose proof (buildClusters_registry_ok cs (heap s)) as Hok.
  destruct (buildClusters_inv (heap s) cs) as [_ Hfresh _ _ _].
  destruct (setupClusters_post sched _ (set_heap (buildClusters cs (heap s)).2 s) [] s1
              Hwb Hok Hrun) as [Herrs Hpost].
  split; [done|]. intros b l Hb.
  destruct (Hpost b l Hb) as (c0 & c & Hc0 & Hc & _ & Hpcs & Hunset).
  destruct (Hfresh b l Hb) as (_ & spec & _ & _ & Hinit).
  simpl in Hc0. rewrite Hinit in Hc0. injection Hc0 as <-.
  exists c. split; [done|]. rewrite <- Herrs in Hunset.
  destruct (client c) as [cl|] eqn:Hcl; [|by destruct Hunset; auto].
  destruct (consumer c) as [k|] eqn:Hk; [|by destruct Hunset; auto].
  split; [by eexists|]. split; [by eexists|]. rewrite Hpcs. simpl. constructor.
Qed.

(** The teardown of a failed bootstrap, run on ready clusters: it logs
    every error with its index, closes every cluster and returns
    (nil, nil, false). *)
Lemma teardown_returns (first : logline) clusters (s2 : @state W) :
  all_ready clusters (heap s2) ->
  exists s3 new,
    run (call (Log first);; logErrors 0 (errors s2);; closeAll clusters;;
         Ret (None : option (list chan), None : option (gmap string loc), false)) s2
      = Returned (None, None, false) s3
    /\ emitted s2 s3 new
    /\ (forall i e, errors s2 !! i = Some e -> EvLog (LogErrorNumber i e) ∈ new)
    /\ (forall b l, clusters !! b = Some l ->
          exists c k cl, heap s2 !! l = Some c /\ consumer c = Some k /\ client c = Some cl
            /\ EvCloseConsumer k ∈ new /\ EvCloseClient cl ∈ new
            /\ (forall pc, Some pc ∈ partitionConsumers c ->
                  EvClosePartitionConsumer pc ∈ new)).
Proof.
  intros Hready2.
  rewrite run_bind, run_log. set (sa := emit _ _ s2).
  destruct (logErrors_run (errors s2) 0 sa) as (sb & Hlog & Hemb). rewrite run_bind, Hlog.
  unfold closeAll. rewrite !run_bind, run_log. set (sc := emit _ _ sb).
  destruct (closeEach_ready (map snd (range_order clusters)) sc) as (sd & newd & Hclose & Hemd & Hall).
  { intros l [[b l'] [-> Hin]]%list_elem_of_fmap. simpl.
    assert (clusters !! b = Some l') as Hbl.
    { apply range_order_lookup. by apply list_elem_of_lookup. }
    destruct (Hready2 b l' Hbl) as (c & Hc & Hrdy). exists c. split; [|done].
    subst sc sa. simpl. destruct Hemb as (_ & -> & _). done. }
  rewrite run_bind, Hclose, run_log. cbn [run].
  eexists _, ([EvLog first]
              ++ imap (fun j e => EvLog (LogErrorNumber (0 + j) e)) (errors s2)
              ++ [EvLog LogTryCloseAll] ++ newd ++ [EvLog LogFinishedCloseAll]).
  split; [reflexivity|]. split; [|split].
  - eapply emitted_trans; [apply emitted_emit|].
    eapply emitted_trans; [exact Hemb|].
    eapply emitted_trans; [apply emitted_emit|].
    eapply emitted_trans; [exact Hemd|]. apply emitted_emit.
  - intros i e Hi. rewrite !elem_of_app. right. left.
    apply list_elem_of_lookup. exists i. rewrite list_lookup_imap, Hi. done.
  - intros b l Hbl.
    destruct (Hall l) as (c & k & cl & Hc & Hk & Hcl & Hink & Hincl & Hpcs).
    { apply list_elem_of_fmap. exists (b, l). split; [done|].
      apply range_order_lookup in Hbl as [i Hi]. by eapply list_elem_of_lookup_2. }
    assert (heap sc = heap s2) as Hh.
    { subst sc sa. simpl. by destruct Hemb as (_ & -> & _). }
    rewrite Hh in Hc.
    assert (forall ev, ev ∈ newd ->
              ev ∈ [EvLog first]
                   ++ imap (fun j e => EvLog (LogErrorNumber (0 + j) e)) (errors s2)
                   ++ [EvLog LogTryCloseAll] ++ newd ++ [EvLog LogFinishedCloseAll]) as Hin.
    { intros ev Hev. rewrite !elem_of_app. auto. }
    exists c, k, cl. repeat split; auto.
Qed.

(** X1: when the clusters have been opened without an error and an error
    is recorded during partition-consumer setup, [setupPartitionConsumers]
    logs every collected error with its index, calls [Close] on every
    partition-consumer, on the consumer and on the client of every
    cluster of the registry, and returns (nil, nil, false); this under
    every schedule, for a library that never answers a nil handle
    together with a nil error. *)
Theorem partition_setup_failure_tears_down sched1 sched2 conf (s s1 s2 : @state W) :
  handles_or_errors -> consumers_or_errors ->
  let clusters := (buildClusters (Config.consumers conf) (heap s)).1 in
  let h := (buildClusters (Config.consumers conf) (heap s)).2 in
  setupClusters sched1 clusters (set_heap h s) = Returned [] s1 ->
  run_sched sched2 (map (partitionWorker clusters) (Config.consumers conf)) (set_chans [] s1)
    = Returned tt s2 ->
  errors s2 <> [] ->
  exists s3 new,
    setupPartitionConsumers sched1 sched2 conf s = Returned (None, None, false) s3
    /\ emitted s2 s3 new
    /\ (forall i e, errors s2 !! i = Some e -> EvLog (LogErrorNumber i e) ∈ new)
    /\ (forall b l, clusters !! b = Some l ->
          exists c k cl, heap s2 !! l = Some c /\ consumer c = Some k /\ client c = Some cl
            /\ EvCloseConsumer k ∈ new /\ EvCloseClient cl ∈ new
            /\ (forall pc, Some pc ∈ partitionConsumers c ->
                  EvClosePartitionConsumer pc ∈ new)).
Proof.
  intros Hwb Hwc clusters h Hsetup Hphase Herr.
  destruct (setupClusters_ready _ _ _ _ Hwb Hsetup) as [_ Hready1]. fold clusters in Hready1.
  pose proof (partition_phase_ready clusters sched2 _ (set_chans [] s1) s2 Hwc Hready1 Hphase)
    as Hready2.
  unfold setupPartitionConsumers.
  destruct (buildClusters (Config.consumers conf) (heap s)) as [clusters' h'] eqn:Hb.
  simpl in clusters, h. subst clusters h. rewrite Hsetup. cbn [length Nat.ltb Nat.leb].
  rewrite Hphase.
  assert (match length (errors s2) with 0%nat => false | S _ => true end = true) as ->.
  { by destruct (errors s2). }
  by apply teardown_returns.
Qed.

End TeardownFacts.

Section TeardownExample.

Import Fixtures ConfigFixtures RunFixtures.

Lemma partition0_down_handles_or_errors :
  handles_or_errors (Broker0 := scripted partition0_down)
  /\ consumers_or_errors (Broker0 := scripted partition0_down).
Proof. split; [split|]; intros; discriminate. Qed.

(** The offsets of partition 0 cannot be queried: the bootstrap logs the
    error, closes the consumer and the client of its one cluster, and
    returns failure. *)
Lemma partition_setup_failure_tears_down_example :
  let clusters := (buildClusters (Config.consumers one_conf) (heap start)).1 in
  let h := (buildClusters (Config.consumers one_conf) (heap start)).2 in
  let s1 := final (setupClusters (Broker0 := scripted partition0_down) [] clusters
                     (set_heap h start)) in
  let s2 := final (run_sched (Broker0 := scripted partition0_down) []
                     (map (partitionWorker clusters) (Config.consumers one_conf))
                     (set_chans [] s1)) in
  exists s3 new,
    setupPartitionConsumers (Broker0 := scripted partition0_down) [] [] one_conf start
      = Returned (None, None, false) s3
    /\ emitted s2 s3 new
    /\ (forall i e, errors s2 !! i = Some e -> EvLog (LogErrorNumber i e) ∈ new)
    /\ (forall b l, clusters !! b = Some l ->
          exists c k cl, heap s2 !! l = Some c /\ consumer c = Some k /\ client c = Some cl
            /\ EvCloseConsumer k ∈ new /\ EvCloseClient cl ∈ new
            /\ (forall pc, Some pc ∈ partitionConsumers c ->
                  EvClosePartitionConsumer pc ∈ new)).
Proof.
  intros clusters h s1 s2.
  apply (partition_setup_failure_tears_down (Broker0 := scripted partition0_down)
           [] [] one_conf start s1 s2
           (proj1 partition0_down_handles_or_errors)
           (proj2 partition0_down_handles_or_errors)); by vm_compute.
Defined.

End TeardownExample.

(** ** Executions that cannot panic *)

Section TotalFacts.

Context {W : Type} `{!Broker W}.
Variable I : @state W -> Prop.

Lemma runs_under_bind {A B : Type} (t : prog A) (f : A -> prog B) (Q : A -> Prop)
    (Q' : B -> Prop) :
  runs_under I t Q -> (forall a, Q a -> runs_under I (f a) Q') -> runs_under I (bind t f) Q'.
Proof.
  intros Ht Hf. induction t as [a| |R o k IH]; simpl in *; [by apply Hf | done |].
  intros s Hs. specialize (Ht s Hs).
  destruct (exec_op o s) as [[r s']|]; [|done].
  destruct Ht as [Hs' Hk]. split; [done|]. by apply IH.
Qed.

Lemma runs_under_mono {A : Type} (t : prog A) (Q Q' : A -> Prop) :
  (forall a, Q a -> Q' a) -> runs_under I t Q -> runs_under I t Q'.
Proof.
  intros HQ. induction t as [a| |R o k IH]; simpl; [by apply HQ | done |].
  intros Ht s Hs. specialize (Ht s Hs).
  destruct (exec_op o s) as [[r s']|]; [|done].
  destruct Ht as [Hs' Hk]. split; [done|]. by apply IH.
Qed.

(** A call that is always possible under [I] and keeps it. *)
Lemma runs_under_call {X : Type} (o : op X) (Q : X -> Prop) :
  (forall s, I s -> exists r s', exec_op o s = Some (r, s') /\ I s' /\ Q r) ->
  runs_under I (call o) Q.
Proof.
  intros Ho s Hs. destruct (Ho s Hs) as (r & s' & -> & Hs' & Hq). by split.
Qed.

Lemma run_under {A : Type} (t : prog A) (Q : A -> Prop) : forall s,
  runs_under I t Q -> I s -> exists a s', run t s = Returned a s' /\ I s' /\ Q a.
Proof.
  induction t as [a| |R o k IH]; intros s Ht Hs; simpl in *; [by eauto | done |].
  specialize (Ht s Hs). destruct (exec_op o s) as [[r s']|]; [|done].
  destruct Ht as [Hs' Hk]. by apply IH.
Qed.

Lemma run_all_under (p : pool) : forall s,
  Forall (fun t => runs_under I t (fun _ => True)) p -> I s ->
  exists s', run_all p s = Returned tt s' /\ I s'.
Proof.
  induction p as [|t p IH]; intros s Hp Hs; simpl; [by eauto|].
  apply Forall_cons in Hp as [Ht Hp].
  destruct (run_under t _ s Ht Hs) as (a & s1 & -> & Hs1 & _). by apply IH.
Qed.

(** Goroutines that cannot panic under an invariant they all keep reach
    their ends under every schedule. *)
Lemma run_sched_under (sched : list nat) : forall (p : pool) s,
  Forall (fun t => runs_under I t (fun _ => True)) p -> I s ->
  exists s', run_sched sched p s = Returned tt s' /\ I s'.
Proof.
  induction sched as [|i sched IH]; intros p s Hp Hs; cbn [run_sched].
  - by apply run_all_under.
  - unfold step_at. destruct (p !! i) as [[u| |R o k]|] eqn:Hi; try by apply IH.
    + rewrite Forall_lookup in Hp. by destruct (Hp i _ Hi).
    + pose proof Hp as Hp'. rewrite Forall_lookup in Hp'. pose proof (Hp' i _ Hi s Hs) as Ho.
      destruct (exec_op o s) as [[r s']|]; [|done]. destruct Ho as [Hs' Hk].
      apply IH; [|done]. by apply Forall_insert.
Qed.

End TotalFacts.

Section SetupClustersReturns.

Context {W : Type} `{!Broker W} `{!MapRange}.

Ltac runs_call :=
  apply runs_under_call;
  let s := fresh "s" in let Ha := fresh "Ha" in let He := fresh "He" in
  intros s [Ha He]; cbn [exec_op].

Lemma setup_inv_store clusters l (s : @state W) c :
  setup_inv clusters s -> setup_inv clusters (set_heap (<[l := c]> (heap s)) s).
Proof.
  intros [Ha He]. split; [|done]. intros b l' Hb. simpl.
  destruct (decide (l' = l)) as [->|Hne].
  - rewrite lookup_insert_eq. by eexists.
  - rewrite lookup_insert_ne by done. by eapply Ha.
Qed.

Lemma clusterWorker_runs clusters b l :
  clusters !! b = Some l ->
  runs_under (setup_inv (W := W) clusters) (clusterWorker clusters b) (fun _ => True).
Proof.
  intros Hb. unfold clusterWorker. rewrite Hb. cbn [method].
  apply (runs_under_bind _ _ _ (fun _ => True)).
  { runs_call. destruct (Ha b l Hb) as [c ->]. by eexists _, _. }
  intros c _. apply (runs_under_bind _ _ _ (fun _ => True)).
  { runs_call. by eexists _, _. }
  intros _ _. apply (runs_under_bind _ _ _ (fun _ => True)).
  { runs_call. destruct (newClient (brokers c) (world s)) as [r w]. by eexists _, _. }
  intros [cl err] _. apply (runs_under_bind _ _ _ (fun _ => True)).
  { destruct err as [e|]; [|done]. runs_call. eexists _, _. split; [done|]. split; [|done].
    split; [done|]. simpl. apply Forall_app. split; [done|]. by apply Forall_singleton. }
  intros _ _. apply (runs_under_bind _ _ _ (fun _ => True)).
  { runs_call. destruct (newConsumerFromClient cl (world s)) as [r w]. by eexists _, _. }
  intros [k err'] _. apply (runs_under_bind _ _ _ (fun _ => True)).
  { destruct err' as [e|]; [|done]. runs_call. eexists _, _. split; [done|]. split; [|done].
    split; [done|]. simpl. apply Forall_app. split; [done|]. by apply Forall_singleton. }
  intros _ _. apply (runs_under_bind _ _ _ (fun _ => True)).
  { runs_call. destruct (Ha b l Hb) as [c' ->]. eexists _, _. split; [done|]. split; [|done].
    by apply setup_inv_store. }
  intros _ _.
  runs_call. destruct (Ha b l Hb) as [c' ->]. eexists _, _. split; [done|]. split; [|done].
  by apply setup_inv_store.
Qed.

(** X2: on a registry whose pointers point into the heap, [setupClusters]
    returns under every schedule of its goroutines, whatever the calls of
    [utils] answer, nil handles included: it does not panic, the errors
    it returns are the [errors] slice, each of them an error of creating
    a client or a consumer, and the structs stay allocated. *)
Theorem setupClusters_returns sched clusters (s : @state W) :
  allocated clusters s ->
  exists errs s',
    setupClusters sched clusters s = Returned errs s'
    /\ errs = errors s'
    /\ Forall setup_error errs
    /\ allocated clusters s'.
Proof.
  intros Ha. unfold setupClusters.
  destruct (run_sched_under (setup_inv clusters) sched
              (map (fun e => clusterWorker clusters e.1) (range_order clusters))
              (set_errors [] s)) as (s' & -> & Ha' & He').
  - apply Forall_forall. intros t [[b l] [-> Hin]]%list_elem_of_fmap. simpl.
    apply (clusterWorker_runs clusters b l).
    apply range_order_lookup. by apply list_elem_of_lookup.
  - split; [done|]. simpl. constructor.
  - by exists (errors s'), s'.
Qed.

End SetupClustersReturns.

Section SetupClustersReturnsExample.

Import Fixtures ConfigFixtures RunFixtures.

(** The cluster cannot be reached: [setupClusters] still returns. *)
Lemma setupClusters_returns_example :
  exists errs s',
    setupClusters (Broker0 := scripted no_client) [0; 0; 0]%nat one_registry one_state
      = Returned errs s'
    /\ errs = errors s'
    /\ Forall setup_error errs
    /\ allocated one_registry s'.
Proof.
  apply (setupClusters_returns (Broker0 := scripted no_client) [0; 0; 0]%nat
           one_registry one_state).
  intros b l Hb.
  destruct (buildClusters_registry_ok [spec_ba] ∅) as [Hok _]. by apply (Hok b l).
Defined.

End SetupClustersReturnsExample.

Section PartitionPhaseRuns.

Context {W : Type} `{!Broker W} `{!MapRange}.
Variable clusters : gmap string loc.

Local Abbreviation ready := (fun s : @state W => all_ready clusters (heap s)).

Ltac kept_call :=
  apply runs_under_call;
  let s := fresh "s" in let Hs := fresh "Hs" in
  intros s Hs; cbn [exec_op];
  repeat match goal with
         | |- context [let '(_, _) := ?x in _] => destruct x
         end;
  eexists _, _; split; [reflexivity|]; split; [exact Hs|]; try exact I.

Lemma resolveOffset_runs configOffset bs topic partition c :
  runs_under ready (resolveOffset configOffset bs topic partition (Some c)) (fun _ => True).
Proof.
  unfold resolveOffset.
  destruct (String.eqb configOffset "oldest"); [done|].
  destruct (String.eqb configOffset "newest"); [done|].
  destruct (Strconv.ParseInt configOffset) as [e|n]; [done|].
  destruct (n >=? -2); [done|]. cbn [method].
  apply (runs_under_bind _ _ _ (fun _ => True)); [kept_call|].
  intros [O [e|]] _; [done|].
  apply (runs_under_bind _ _ _ (fun _ => True)); [kept_call|].
  intros [N [e|]] _; [done|]. by destruct (_ <? _).
Qed.

Lemma forPartitions_runs l cc cl k (after : prog unit) b :
  consumers_or_errors -> clusters !! b = Some l ->
  runs_under ready after (fun _ => True) ->
  forall partitions,
    runs_under ready (forPartitions l cc (Some cl) (Some k) partitions after) (fun _ => True).
Proof.
  intros Hwb Hb Hafter.
  induction partitions as [|p partitions IH]; cbn [forPartitions]; [done|].
  apply (runs_under_bind _ _ _ (fun _ => True)); [apply resolveOffset_runs|].
  intros [off [e|]] _; [kept_call|]. cbn [method].
  apply (runs_under_bind _ _ _ (fun r => r <> (None, None))).
  { apply runs_under_call. intros s Hs. cbn [exec_op].
    pose proof (Hwb k (Config.topic cc) p off (world s)) as Hne.
    destruct (ConsumePartition k (Config.topic cc) p off (world s)) as [r w].
    by eexists _, _. }
  intros [pc [e|]] Hne; [kept_call|].
  destruct pc as [pc|]; [|done].
  apply (runs_under_bind _ _ _ (fun c => Forall is_Some (partitionConsumers c))).
  { apply runs_under_call. intros s Hs. cbn [exec_op].
    destruct (Hs b l Hb) as (c & -> & _ & _ & Hall). by eexists _, _. }
  intros c Hpcs.
  apply (runs_under_bind _ _ _ (fun _ => True)).
  { apply runs_under_call. intros s Hs.
    destruct (Hs b l Hb) as (cur & Hcur & _).
    destruct (exec_op (StorePartitionConsumers l (partitionConsumers c ++ [Some pc])) s)
      as [[[] s']|] eqn:Hex.
    - exists tt, s'. split; [done|]. split; [|done]. by eapply (store_ready clusters).
    - cbn [exec_op] in Hex. by rewrite Hcur in Hex. }
  intros _ _. cbn [method].
  apply (runs_under_bind _ _ _ (fun _ => True)); [kept_call|]. intros ch _.
  apply (runs_under_bind _ _ _ (fun _ => True)); [kept_call|]. intros _ _.
  exact IH.
Qed.

Lemma partitionWorker_runs cc :
  consumers_or_errors -> is_Some (clusters !! brokerKey cc) ->
  runs_under ready (partitionWorker clusters cc) (fun _ => True).
Proof.
  intros Hwb [l Hl]. unfold partitionWorker. fold (brokerKey cc). rewrite Hl. cbn [method].
  apply (runs_under_bind _ _ _ cluster_ready).
  { apply runs_under_call. intros s Hs. cbn [exec_op].
    destruct (Hs _ l Hl) as (c & -> & Hc). by eexists _, _. }
  intros c ([cl Hcl] & [k Hk] & _). rewrite Hcl, Hk.
  assert (forall n, runs_under ready
            (call (Log (LogAddedPartitionConsumers n (Config.topic cc)))) (fun _ => True))
    as Hafter by (intros n; kept_call).
  destruct (Config.partition cc =? -1).
  - cbn [method]. apply (runs_under_bind _ _ _ (fun _ => True)); [kept_call|].
    intros [partitions [e|]] _; [kept_call|]. by eapply forPartitions_runs.
  - by eapply forPartitions_runs.
Qed.

End PartitionPhaseRuns.

Section BootstrapOutcome.

Context {W : Type} `{!Broker W} `{!MapRange}.

(** X3: when [setupClusters] has recorded no error, and the library never
    answers a nil handle together with a nil error,
    [setupPartitionConsumers] does not panic: under every schedule of
    its workers it returns, either (nil, nil, false) with an error
    recorded, or the collected streams, the registry and true with no
    error recorded; and either way every cluster of the registry still
    has its client and consumer set and no nil partition-consumer. *)
Theorem bootstrap_returns sched1 sched2 conf (s s1 : @state W) :
  handles_or_errors -> consumers_or_errors ->
  let clusters := (buildClusters (Config.consumers conf) (heap s)).1 in
  let h := (buildClusters (Config.consumers conf) (heap s)).2 in
  setupClusters sched1 clusters (set_heap h s) = Returned [] s1 ->
  exists res s3,
    setupPartitionConsumers sched1 sched2 conf s = Returned res s3
    /\ all_ready clusters (heap s3)
    /\ (res = (None, None, false) /\ errors s3 <> []
        \/ res = (Some (partitionConsumerChans s3), Some clusters, true) /\ errors s3 = []).
Proof.
  intros Hwb Hwc clusters h Hsetup.
  destruct (setupClusters_ready _ _ _ _ Hwb Hsetup) as [_ Hready1]. fold clusters in Hready1.
  destruct (buildClusters_inv (heap s) (Config.consumers conf)) as [Hkeys _ _ _ _].
  fold clusters in Hkeys.
  destruct (run_sched_under (fun s => all_ready clusters (heap s)) sched2
              (map (partitionWorker clusters) (Config.consumers conf)) (set_chans [] s1))
    as (s2 & Hphase & Hready2); [|done|].
  { apply Forall_forall. intros t [cc [-> Hin]]%list_elem_of_fmap.
    apply partitionWorker_runs; [done|]. apply Hkeys. by exists cc. }
  unfold setupPartitionConsumers.
  destruct (buildClusters (Config.consumers conf) (heap s)) as [clusters' h'] eqn:Hb.
  simpl in clusters, h. subst clusters h. rewrite Hsetup. cbn [length Nat.ltb Nat.leb].
  rewrite Hphase.
  destruct (decide (errors s2 = [])) as [Hnil|Hne].
  - rewrite Hnil. cbn [length]. rewrite run_bind, run_log. cbn [run].
    eexists _, _. split; [reflexivity|]. split; [done|]. right. by split.
  - assert (match length (errors s2) with 0%nat => false | S _ => true end = true) as ->.
    { by destruct (errors s2). }
    destruct (teardown_returns (LogSetupPartitionConsumersErrors (length (errors s2)))
                clusters' s2 Hready2) as (s3 & new & Hrun & (_ & Hh & He & _) & _).
    exists (None, None, false), s3. split; [exact Hrun|].
    split; [by rewrite Hh|]. left. split; [done|]. by rewrite He.
Qed.

End BootstrapOutcome.

Section BootstrapOutcomeExample.

Import Fixtures ConfigFixtures RunFixtures.

(** Every call succeeds: the bootstrap returns its three streams. *)
Lemma bootstrap_returns_example :
  let clusters := (buildClusters (Config.consumers one_conf) (heap start)).1 in
  exists res s3,
    setupPartitionConsumers (Broker0 := scripted healthy) [0; 0]%nat [0; 0; 0]%nat one_conf start
      = Returned res s3
    /\ all_ready clusters (heap s3)
    /\ (res = (None, None, false) /\ errors s3 <> []
        \/ res = (Some (partitionConsumerChans s3), Some clusters, true) /\ errors s3 = []).
Proof.
  intros clusters.
  refine (bootstrap_returns (Broker0 := scripted healthy) [0; 0]%nat [0; 0; 0]%nat one_conf
            start _ healthy_handles_or_errors _ _).
  - intros k topic partition offset w. discriminate.
  - by vm_compute.
Defined.

End BootstrapOutcomeExample.

(** ** resolveOffset and the client *)

Section ResolveOffsetClient.

Context {W : Type} `{!Broker W} `{!MapRange}.

(** X4: with a client that is not nil, [resolveOffset] returns for every
    specifier: it does not panic, it leaves the heap and the shared
    slices as they are, and the events of the call are no event, the
    query of the oldest offset, or that query followed by the query of
    the newest offset, both for the topic and partition given.  With a
    nil client it panics exactly on the specifiers that need the broker,
    the integers below -2, and before any event; on every other specifier
    it returns in the state it started from. *)
Theorem resolveOffset_panics_only_without_client configOffset bs topic partition (s : @state W) :
  (forall c,
      exists r s' new,
        run (resolveOffset configOffset bs topic partition (Some c)) s = Returned r s'
        /\ emitted s s' new
        /\ (new = []
            \/ new = [EvGetOffset c topic partition OffsetOldest]
            \/ new = [EvGetOffset c topic partition OffsetOldest;
                      EvGetOffset c topic partition OffsetNewest]))
  /\ (run (resolveOffset configOffset bs topic partition None) s = Panicked s
      <-> configOffset <> "oldest" /\ configOffset <> "newest"
          /\ exists n, Strconv.ParseInt configOffset = inr n /\ n < -2)
  /\ (run (resolveOffset configOffset bs topic partition None) s = Panicked s
      \/ exists r, run (resolveOffset configOffset bs topic partition None) s = Returned r s).
Proof.
  unfold resolveOffset.
  destruct (String.eqb_spec configOffset "oldest") as [->|Ho].
  { split; [|split].
    - intros c. exists (OffsetOldest, None), s, []. split; [done|].
      split; [apply emitted_refl | by left].
    - split; [discriminate | by intros [? _]].
    - right. by eexists. }
  destruct (String.eqb_spec configOffset "newest") as [->|Hn].
  { split; [|split].
    - intros c. exists (OffsetNewest, None), s, []. split; [done|].
      split; [apply emitted_refl | by left].
    - split; [discriminate | by intros (_ & ? & _)].
    - right. by eexists. }
  destruct (Strconv.ParseInt configOffset) as [e|n] eqn:Hparse.
  { split; [|split].
    - intros c. exists (0, Some InvalidOffsetValue), s, []. split; [done|].
      split; [apply emitted_refl | by left].
    - split; [discriminate | by intros (_ & _ & n & ? & _)].
    - right. by eexists. }
  destruct (Z.geb_spec n (-2)) as [Hge|Hlt].
  { split; [|split].
    - intros c. exists (n, None), s, []. split; [done|].
      split; [apply emitted_refl | by left].
    - split; [discriminate|]. intros (_ & _ & n' & [= <-] & Hlt). lia.
    - right. by eexists. }
  split; [|split].
  - intros c. cbn [method]. rewrite run_bind, run_call. cbn [exec_op].
    destruct (GetOffset c topic partition OffsetOldest (world s)) as [[O errO] w1].
    destruct errO as [e|].
    { eexists _, _, _. split; [done|]. split; [apply emitted_emit | by right; left]. }
    rewrite run_bind, run_call. cbn [exec_op].
    destruct (GetOffset c topic partition OffsetNewest _) as [[N errN] w2].
    assert (emitted s (emit (EvGetOffset c topic partition OffsetNewest) w2
                         (emit (EvGetOffset c topic partition OffsetOldest) w1 s))
              [EvGetOffset c topic partition OffsetOldest;
               EvGetOffset c topic partition OffsetNewest]) as Hem.
    { apply (emitted_trans s (emit (EvGetOffset c topic partition OffsetOldest) w1 s) _ [_] [_]);
        apply emitted_emit. }
    destruct errN as [e|]; [|destruct (_ <? _)];
      (eexists _, _, _; split; [done|]; split; [exact Hem | by right; right]).
  - split; [|done]. intros _. split; [done|]. split; [done|]. by exists n.
  - by left.
Qed.

End ResolveOffsetClient.

(** ** Two workers on one cluster *)

Section SharedCluster.

Context {W : Type} `{!Broker W} `{!MapRange}.

Lemma resolveOffset_named o :
  named_offset o = true ->
  exists off, forall bs topic p cl, resolveOffset o bs topic p cl = Ret (off, None).
Proof.
  intros Ho. unfold named_offset in Ho. unfold resolveOffset.
  destruct (String.eqb o "oldest"); [by eexists|].
  destruct (String.eqb o "newest"); [by eexists | done].
Qed.

Lemma elem_of_calls (e : event) (t : list event) :
  is_call e = true -> e ∈ calls t <-> e ∈ t.
Proof.
  intros He. unfold calls. rewrite !list_elem_of_In, List.filter_In. tauto.
Qed.

(** The partition-consumers [close] closes are those of its cluster. *)
Lemma close_closes_registered (l : loc) (c : cluster) (s : @state W) :
  heap s !! l = Some c -> cluster_ready c ->
  exists s' new,
    run (close l) s = Returned tt s' /\ emitted s s' new
    /\ (forall pc, EvClosePartitionConsumer pc ∈ new <-> Some pc ∈ partitionConsumers c).
Proof.
  intros Hl ([cl Hcl] & [k Hk] & Hall).
  destruct (all_Some_map _ Hall) as [pcs Hpcs].
  destruct (close_run s l c pcs k cl Hl Hpcs Hk Hcl) as (s' & mid & lk & lc & Hrun & Hem & Hmid).
  eexists s', _. split; [exact Hrun|]. split; [exact Hem|].
  intros pc. rewrite <- elem_of_calls by done.
  match goal with
  | |- _ ∈ calls ?t <-> _ =>
      assert (calls t = map EvClosePartitionConsumer pcs
                        ++ [EvCloseConsumer k; EvCloseClient cl]) as ->
        by (rewrite !calls_app, Hmid; reflexivity)
  end.
  rewrite Hpcs, elem_of_app, !list_elem_of_fmap. split.
  - intros [(x & [= ->] & Hx)|Hin]; [by exists x|].
    apply elem_of_cons in Hin as [?|Hin]; [done|].
    apply elem_of_cons in Hin as [?|Hin]; [done|]. by apply elem_of_nil in Hin.
  - intros (x & [= ->] & Hx). left. by exists x.
Qed.

Lemma closeEach_closes_registered (ls : list loc) : forall (s : @state W),
  (forall l, l ∈ ls -> exists c, heap s !! l = Some c /\ cluster_ready c) ->
  exists s' new,
    run (closeEach ls) s = Returned tt s' /\ emitted s s' new
    /\ (forall pc, EvClosePartitionConsumer pc ∈ new
          <-> exists l c, l ∈ ls /\ heap s !! l = Some c /\ Some pc ∈ partitionConsumers c).
Proof.
  induction ls as [|l ls IH]; intros s Hready; cbn [closeEach].
  - exists s, []. split; [done|]. split; [apply emitted_refl|].
    intros pc. split.
    + intros Hin. by apply elem_of_nil in Hin.
    + intros (l & c & Hl & _). by apply elem_of_nil in Hl.
  - destruct (Hready l) as (c & Hc & Hrdy); [by left|].
    destruct (close_closes_registered l c s Hc Hrdy) as (s1 & new1 & Hrun1 & Hem1 & Hpc1).
    assert (heap s1 = heap s) as Hh1 by (by destruct Hem1 as (_ & ? & _)).
    destruct (IH s1) as (s' & new2 & Hrun2 & Hem2 & Hpc2).
    { intros l' Hl'. rewrite Hh1. apply Hready. by right. }
    rewrite run_bind, Hrun1.
    exists s', (new1 ++ new2). split; [done|]. split; [by eapply emitted_trans|].
    intros pc. rewrite elem_of_app, Hpc1, Hpc2, Hh1. split.
    + intros [Hin|(l' & c' & Hl' & Hc' & Hin)].
      * exists l, c. split; [by left|]. done.
      * exists l', c'. split; [by right|]. done.
    + intros (l' & c' & [->|Hl']%elem_of_cons & Hc' & Hin).
      * left. rewrite Hc in Hc'. by injection Hc' as <-.
      * right. by exists l', c'.
Qed.

(** [closeAll] on ready clusters returns, and the partition-consumers it
    closes are those the clusters of the registry hold. *)
Lemma closeAll_closes_registered (clusters : gmap string loc) (s : @state W) :
  all_ready clusters (heap s) ->
  exists s' new,
    run (closeAll clusters) s = Returned tt s' /\ emitted s s' new
    /\ (forall pc, EvClosePartitionConsumer pc ∈ new
          <-> exists b l c, clusters !! b = Some l /\ heap s !! l = Some c
                /\ Some pc ∈ partitionConsumers c).
Proof.
  intros Hready. unfold closeAll. rewrite run_bind, run_log.
  set (s1 := emit (EvLog LogTryCloseAll) (world s) s).
  assert (forall l, l ∈ map snd (range_order clusters) <-> exists b, clusters !! b = Some l)
    as Hrange.
  { intros l. rewrite list_elem_of_fmap. split.
    - intros ([b l'] & -> & Hin). exists b. apply range_order_lookup.
      by apply list_elem_of_lookup.
    - intros [b Hb]. exists (b, l). split; [done|].
      apply list_elem_of_lookup. by apply range_order_lookup. }
  destruct (closeEach_closes_registered (map snd (range_order clusters)) s1)
    as (s2 & new & Hrun & Hem & Hpc).
  { intros l [b Hb]%Hrange. exact (Hready b l Hb). }
  rewrite run_bind, Hrun, run_log.
  eexists _, ([EvLog LogTryCloseAll] ++ new ++ [EvLog LogFinishedCloseAll]).
  split; [reflexivity|]. split.
  - apply (emitted_trans s s1); [apply emitted_emit|].
    apply (emitted_trans s1 s2); [exact Hem | apply emitted_emit].
  - intros pc. rewrite !elem_of_app, Hpc. split.
    + intros [Hin|[(l & c & [b Hb]%Hrange & Hc & Hin)|Hin]].
      * apply list_elem_of_singleton in Hin. discriminate.
      * by exists b, l, c.
      * apply list_elem_of_singleton in Hin. discriminate.
    + intros (b & l & c & Hb & Hc & Hin). right. left. exists l, c.
      split; [apply Hrange; by exists b|]. done.
Qed.

(** X11: the append to [cluster.partitionConsumers] is not protected.
    The mutex a worker locks is its own copy of [cluster.pcL], so two
    workers whose specs name the same cluster can both read the slice
    before either writes it back.  Take two such specs, each naming one
    partition and an end of it, on ready clusters, and a consumer that
    opens every partition asked for, with a handle for the partition of
    the first spec that differs from those for the partition of the
    second and that no cluster holds yet.  Then there is a schedule under
    which both workers finish without error, both partition-consumers are
    opened and asked for their channels, two channels are collected, and
    the shared cluster is written back with its former partition-consumers
    and the second one only.  The first partition-consumer, though opened,
    is then in no cluster of the memory, and [closeAll] on the registry
    returns having closed the second and not the first. *)
Theorem shared_cluster_can_lose_a_partition_consumer
    (clusters : gmap string loc) (c1 c2 : consumerConfig) (l : loc) (c0 : cluster)
    (k : Consumer) (s : @state W) :
  clusters !! brokerKey c1 = Some l -> brokerKey c2 = brokerKey c1 ->
  heap s !! l = Some c0 -> consumer c0 = Some k ->
  all_ready clusters (heap s) ->
  Config.partition c1 <> -1 -> Config.partition c2 <> -1 ->
  named_offset (Config.offset c1) = true -> named_offset (Config.offset c2) = true ->
  (forall topic partition offset w,
      exists pc, fst (ConsumePartition k topic partition offset w) = (Some pc, None)) ->
  (forall off off' w w' pc pc',
      fst (ConsumePartition k (Config.topic c1) (Int.wrap32 (Config.partition c1)) off w)
        = (Some pc, None) ->
      fst (ConsumePartition k (Config.topic c2) (Int.wrap32 (Config.partition c2)) off' w')
        = (Some pc', None) ->
      pc <> pc') ->
  (forall off w pc l' c',
      fst (ConsumePartition k (Config.topic c1) (Int.wrap32 (Config.partition c1)) off w)
        = (Some pc, None) ->
      heap s !! l' = Some c' -> Some pc ∉ partitionConsumers c') ->
  exists sched s' off1 off2 pc1 pc2,
    run_sched sched [partitionWorker clusters c1; partitionWorker clusters c2] s
      = Returned tt s'
    /\ errors s' = errors s
    /\ calls (drop (length (trace s)) (trace s'))
       = [EvConsumePartition k (Config.topic c1) (Int.wrap32 (Config.partition c1)) off1;
          EvConsumePartition k (Config.topic c2) (Int.wrap32 (Config.partition c2)) off2;
          EvMessages pc1; EvMessages pc2]
    /\ fst (ConsumePartition k (Config.topic c1) (Int.wrap32 (Config.partition c1)) off1
              (world s)) = (Some pc1, None)
    /\ pc1 <> pc2
    /\ length (partitionConsumerChans s') = (length (partitionConsumerChans s) + 2)%nat
    /\ heap s'
       = <[l := Cluster (brokers c0) (consumer c0) (client c0)
                  (partitionConsumers c0 ++ [Some pc2])]> (heap s)
    /\ (forall l' c', heap s' !! l' = Some c' -> Some pc1 ∉ partitionConsumers c')
    /\ exists s'' new,
         run (closeAll clusters) s' = Returned tt s''
         /\ emitted s' s'' new
         /\ EvClosePartitionConsumer pc2 ∈ new
         /\ EvClosePartitionConsumer pc1 ∉ new.
Proof.
  intros Hl Hk Hh Hcons Hready Hp1 Hp2 Ho1 Ho2 Hopen Hdiff Hnew.
  destruct (resolveOffset_named _ Ho1) as [off1 Hr1].
  destruct (resolveOffset_named _ Ho2) as [off2 Hr2].
  assert (forall topic p off (w : W), exists pc w',
            ConsumePartition k topic p off w = ((Some pc, None), w')) as Hopen'.
  { intros topic p off w. destruct (Hopen topic p off w) as [pc Hpc].
    destruct (ConsumePartition k topic p off w) as [r w'] eqn:E. simpl in Hpc. subst r.
    by exists pc, w'. }
  destruct (Hopen' (Config.topic c1) (Int.wrap32 (Config.partition c1)) off1 (world s))
    as (pc1 & w1 & E1).
  destruct (Hopen' (Config.topic c2) (Int.wrap32 (Config.partition c2)) off2 w1)
    as (pc2 & w2 & E2).
  destruct (Messages pc1 w2) as [ch1 w3] eqn:M1.
  destruct (Messages pc2 w3) as [ch2 w4] eqn:M2.
  assert (pc1 <> pc2) as Hne.
  { apply (Hdiff off1 off2 (world s) w1); [by rewrite E1 | by rewrite E2]. }
  assert (forall l' c', heap s !! l' = Some c' -> Some pc1 ∉ partitionConsumers c') as Hfresh.
  { intros l' c'. apply (Hnew off1 (world s)). by rewrite E1. }
  set (c' := Cluster (brokers c0) (consumer c0) (client c0)
               (partitionConsumers c0 ++ [Some pc2])).
  assert (forall l' c'', <[l := c']> (heap s) !! l' = Some c'' ->
            Some pc1 ∉ partitionConsumers c'') as Hfresh'.
  { intros l' c''. destruct (decide (l' = l)) as [->|Hne'].
    - rewrite lookup_insert_eq. intros [= <-]. subst c'. cbn [partitionConsumers].
      intros [Hin|Hin]%elem_of_app; [by apply (Hfresh l c0)|].
      apply list_elem_of_singleton in Hin. by injection Hin.
    - rewrite lookup_insert_ne by done. apply Hfresh. }
  assert (all_ready clusters (<[l := c']> (heap s))) as Hready'.
  { intros b lb Hb. destruct (decide (lb = l)) as [->|Hne'].
    - exists c'. rewrite lookup_insert_eq. split; [done|].
      destruct (Hready _ _ Hl) as (c0' & Hc0' & Hcl & Hk0 & Hpcs).
      rewrite Hh in Hc0'. injection Hc0' as <-.
      subst c'. split; [done|]. split; [done|]. cbn [partitionConsumers].
      apply Forall_app. split; [done|]. by repeat constructor.
    - rewrite lookup_insert_ne by done. exact (Hready b lb Hb). }
  exists [0; 0; 0; 1; 1; 1; 0; 1]%nat.
  unfold partitionWorker. fold (brokerKey c1) (brokerKey c2). rewrite Hk, Hl.
  apply Z.eqb_neq in Hp1, Hp2. rewrite Hp1, Hp2.
  match goal with
  | |- context [run_sched ?a ?b ?c] => destruct (run_sched a b c) as [[] s'|s'] eqn:Hrun
  end;
    repeat (cbn [run_sched step_at lookup list_lookup bind call exec_op insert list_insert
              forPartitions method emit set_heap set_chans heap world run_all run] in Hrun;
            rewrite ?Hh, ?Hr1, ?Hr2, ?Hcons, ?E1, ?E2, ?M1, ?M2, ?lookup_insert_eq in Hrun);
    [|discriminate].
  injection Hrun as <-. eexists. exists off1, off2, pc1, pc2.
  split; [reflexivity|]. cbn [errors trace heap partitionConsumerChans emit set_chans set_heap].
  rewrite insert_insert_eq. rewrite <- Hcons. fold c'.
  split; [done|]. split.
  { rewrite <- !app_assoc. rewrite drop_app_length. done. }
  split; [by rewrite E1|]. split; [done|].
  split; [rewrite !length_app; simpl; lia|].
  split; [done|]. split; [exact Hfresh'|].
  match goal with
  | |- exists s'' new, run (closeAll clusters) ?st = _ /\ _ =>
      destruct (closeAll_closes_registered clusters st Hready')
        as (s'' & new & Hrun & Hem & Hpc)
  end.
  exists s'', new. split; [exact Hrun|]. split; [exact Hem|].
  cbn [heap emit set_chans set_heap] in Hpc. split.
  - apply Hpc. exists (brokerKey c1), l, c'. split; [done|].
    rewrite lookup_insert_eq. split; [done|]. subst c'. cbn [partitionConsumers].
    apply elem_of_app. right. by apply list_elem_of_singleton.
  - intros (b & lb & cb & _ & Hcb & Hin)%Hpc. by apply (Hfresh' lb cb).
Qed.

End SharedCluster.

(** Two specs for partitions 0 and 1 of a topic on a cluster that is
    opened and holds no partition-consumer yet: partition-consumer 10 is
    opened and used, only 11 is written into the cluster, and only 11 is
    closed by [closeAll]. *)
Lemma shared_cluster_can_lose_a_partition_consumer_example :
  let c1 := Config.ConsumerConfig ["b:9092"] "t" 0 "newest" in
  let c2 := Config.ConsumerConfig ["b:9092"] "t" 1 "oldest" in
  let clusters : gmap string loc := {[ "b:9092" := 0%nat ]} in
  let c0 := Cluster ["b:9092"] (Some 2%nat) (Some 1%nat) [] in
  let s : @state unit := State tt [] {[0%nat := c0]} [] [] in
  exists sched s' off1 off2 pc1 pc2,
    @run_sched unit (Fixtures.scripted Fixtures.healthy) sched
      [partitionWorker clusters c1; partitionWorker clusters c2] s
      = Returned tt s'
    /\ errors s' = []
    /\ calls (drop 0 (trace s'))
       = [EvConsumePartition 2%nat "t" 0 off1; EvConsumePartition 2%nat "t" 1 off2;
          EvMessages pc1; EvMessages pc2]
    /\ fst (@ConsumePartition unit (Fixtures.scripted Fixtures.healthy) 2%nat "t" 0 off1 tt)
       = (Some pc1, None)
    /\ pc1 <> pc2
    /\ length (partitionConsumerChans s') = 2%nat
    /\ heap s' = <[0%nat := Cluster ["b:9092"] (Some 2%nat) (Some 1%nat) [Some pc2]]> (heap s)
    /\ (forall l' c', heap s' !! l' = Some c' -> Some pc1 ∉ partitionConsumers c')
    /\ exists s'' new,
         @run unit (Fixtures.scripted Fixtures.healthy) unit
           (@closeAll Fixtures.listRange clusters) s' = Returned tt s''
         /\ emitted s' s'' new
         /\ EvClosePartitionConsumer pc2 ∈ new
         /\ EvClosePartitionConsumer pc1 ∉ new.
Proof.
  intros c1 c2 clusters c0 s.
  apply (@shared_cluster_can_lose_a_partition_consumer unit (Fixtures.scripted Fixtures.healthy)
           Fixtures.listRange clusters c1 c2 0%nat c0 2%nat s);
    try reflexivity; try discriminate.
  - intros b l Hb. apply lookup_singleton_Some in Hb as [_ <-].
    exists c0. split; [reflexivity|]. split; [by eexists|]. split; [by eexists|].
    constructor.
  - intros topic partition offset w. by eexists.
  - intros off off' w w' pc pc' [= <-] [= <-]. discriminate.
  - intros off w pc l' c' [= <-] Hc'. unfold s in Hc'. cbn [heap] in Hc'.
    apply lookup_singleton_Some in Hc' as [_ <-]. apply not_elem_of_nil.
Defined.

(** ** The fan-in *)

Module DemuxFacts.
Import Demux.

(** One input stream with one buffered message.  [q] is closed, then the
    worker's [select] takes the message all the same, and the loop's
    [select] takes it from the worker: the message passes over the
    merged channel after the cancellation.  Or else the loop's [select]
    takes the cancellation: then the worker is left blocked in
    [c <- msg] and no move of the program is possible any more, so it
    never exits. *)
Lemma message_delivered_after_cancel :
  (exists p1, steps [Cancel] (demuxMessages [[m1]]) = Some p1
              /\ cancelled p1 = true /\ merged p1 = [])
  /\ (exists p3, steps [Cancel; Receive 0; Forward 0 true] (demuxMessages [[m1]]) = Some p3
                 /\ merged p3 = [m1] /\ workers p3 = [AtSelect] /\ loop p3 = Forwarding)
  /\ (exists p3, steps [Cancel; Receive 0; LoopQuit] (demuxMessages [[m1]]) = Some p3
                 /\ workers p3 = [Sending m1] /\ loop p3 = ForwarderReturned
                 /\ forall mv, of_program mv -> step mv p3 = None).
Proof.
  split; [|split].
  - eexists. by split.
  - eexists. by split.
  - eexists. split; [reflexivity|]. split; [done|]. split; [done|].
    intros [i msg| |[|i]|[|i]|[|i] ok|] Hmv; try done.
Qed.

Lemma step_cancelled mv p p' :
  step mv p = Some p' -> cancelled p = true -> cancelled p' = true.
Proof.
  destruct mv as [i msg| |i|i|i ok|]; simpl; intros Hstep Hc;
    repeat match type of Hstep with
           | context [match ?x with _ => _ end] => destruct x; try discriminate
           end;
    by injection Hstep as <-.
Qed.

Lemma loop_returned_stays mv p p' :
  loop p = ForwarderReturned -> step mv p = Some p' ->
  loop p' = ForwarderReturned /\ merged p' = merged p.
Proof.
  intros Hl Hstep.
  destruct mv as [i msg| |i|i|i ok|]; simpl in Hstep; rewrite ?Hl in Hstep;
    repeat match type of Hstep with
           | context [match ?x with _ => _ end] => destruct x; try discriminate
           end;
    try discriminate; by injection Hstep as <-.
Qed.

(** C9, as the code has it.  Once the quit channel is closed: it stays
    closed; every worker at its [select] can take the cancellation and
    exit without forwarding, whatever its input stream holds, and for a
    worker whose input stream is empty that is the only move; the loop
    at its [select] can take the cancellation and return, and that is
    its only move when no worker is sending; and once the loop has
    returned it stays returned and no message passes over the merged
    channel any more. *)
Theorem cancellation_lets_everyone_stop (p : pipeline) :
  cancelled p = true ->
  (forall mv p', step mv p = Some p' -> cancelled p' = true)
  /\ (forall i, workers p !! i = Some AtSelect ->
        exists p', step (Quit i) p = Some p'
          /\ workers p' !! i = Some Exited
          /\ merged p' = merged p /\ inputs p' = inputs p)
  /\ (forall i mv, workers p !! i = Some AtSelect -> inputs p !! i = Some [] ->
        of_worker i mv -> is_Some (step mv p) -> mv = Quit i)
  /\ (loop p = Forwarding ->
        exists p', step LoopQuit p = Some p'
          /\ loop p' = ForwarderReturned /\ merged p' = merged p)
  /\ (forall mv, loop p = Forwarding -> (forall i msg, workers p !! i <> Some (Sending msg)) ->
        mv = LoopQuit \/ (exists i ok, mv = Forward i ok) ->
        is_Some (step mv p) -> mv = LoopQuit)
  /\ (forall mv p', loop p = ForwarderReturned -> step mv p = Some p' ->
        loop p' = ForwarderReturned /\ merged p' = merged p).
Proof.
  intros Hc. repeat split.
  - intros mv p' Hstep. by eapply step_cancelled.
  - intros i Hi. simpl. rewrite Hi, Hc. eexists. split; [done|]. simpl.
    split; [|done]. apply list_lookup_insert_eq. by eapply lookup_lt_Some.
  - intros i mv Hi Hin Hmv [p' Hstep].
    destruct mv as [j msg| |j|j|j ok|]; simpl in Hmv; try done; subst j; simpl in Hstep.
    + by rewrite Hi, Hin in Hstep.
    + done.
    + by rewrite Hi in Hstep.
  - intros Hl. simpl. rewrite Hl, Hc. by eexists.
  - intros mv Hl Hnone [->|(i & ok & ->)] [p' Hstep]; [done|].
    simpl in Hstep. destruct (workers p !! i) as [[|msg|]|] eqn:Hi; try done.
    by destruct (Hnone i msg).
  - by eapply loop_returned_stays.
  - by eapply loop_returned_stays.
Qed.

(** A pipeline with a message ready and [q] closed. *)
Lemma cancellation_lets_everyone_stop_example :
  exists p', step (Quit 0) (Pipeline [[m1]] [AtSelect] Forwarding true []) = Some p'
             /\ workers p' !! 0%nat = Some Exited
             /\ merged p' = [] /\ inputs p' = [[m1]].
Proof.
  exact (proj1 (proj2 (cancellation_lets_everyone_stop
                         (Pipeline [[m1]] [AtSelect] Forwarding true []) eq_refl))
           0%nat eq_refl).
Defined.

End DemuxFacts.

(** ** Order and conservation in the fan-in *)

Module DemuxLanesFacts.
Import Demux DemuxLanes.

Lemma sending_of_insert_eq (ws : list worker) i w :
  (i < length ws)%nat -> sending_of (<[i := w]> ws !! i) = sending_of (Some w).
Proof. intros Hi. by rewrite list_lookup_insert_eq. Qed.

Lemma buffered_insert_eq p i buf (ws : list worker) l c m :
  (i < length (inputs p))%nat ->
  buffered (Pipeline (<[i := buf]> (inputs p)) ws l c m) i = buf.
Proof. intros Hi. unfold buffered. simpl. by rewrite list_lookup_insert_eq. Qed.

Lemma buffered_insert_ne p i j buf (ws : list worker) l c m :
  i <> j -> buffered (Pipeline (<[i := buf]> (inputs p)) ws l c m) j = buffered p j.
Proof. intros Hne. unfold buffered. simpl. by rewrite list_lookup_insert_ne. Qed.

(** One move: the lane of [i] grows by what arrives on it and is
    otherwise unchanged, and the kind stays on stream [i]. *)
Lemma lane_step P i mv p p' :
  exclusive P i p -> arrive_on P i mv -> step mv p = Some p' ->
  exclusive P i p' /\ lane P i p' = lane P i p ++ arrivals P [mv].
Proof.
  intros Hex Harr Hstep. destruct mv as [j msg| |j|j|j ok|]; simpl in Hstep.
  - (* Arrive *)
    destruct (inputs p !! j) as [buf|] eqn:Hj; [|discriminate]. injection Hstep as <-.
    assert (j < length (inputs p))%nat as Hlt by (by eapply lookup_lt_Some).
    cbn [arrivals]. rewrite app_nil_r. split.
    + intros j' Hne. destruct (Hex j' Hne) as [Hs Hb]. split; [done|].
      destruct (decide (j = j')) as [<-|Hjj].
      * rewrite buffered_insert_eq by done. rewrite List.filter_app.
        unfold buffered in Hb. rewrite Hj in Hb. simpl in Hb. rewrite Hb.
        destruct Harr as [->|HP]; [done|]. simpl. by rewrite HP.
      * by rewrite buffered_insert_ne.
    + unfold lane. simpl. destruct (decide (j = i)) as [->|Hji].
      * rewrite buffered_insert_eq by done. unfold buffered. rewrite Hj. simpl.
        rewrite List.filter_app. by rewrite <- !app_assoc.
      * rewrite buffered_insert_ne by done.
        destruct Harr as [->|HP]; [done|]. simpl. rewrite HP. by rewrite !app_nil_r.
  - (* Cancel *)
    injection Hstep as <-. cbn [arrivals]. rewrite app_nil_r. by split.
  - (* Receive *)
    destruct (workers p !! j) as [[| |]|] eqn:Hw; try discriminate.
    destruct (inputs p !! j) as [[|msg buf]|] eqn:Hj; try discriminate.
    injection Hstep as <-. cbn [arrivals]. rewrite app_nil_r.
    assert (j < length (inputs p))%nat as Hlt by (by eapply lookup_lt_Some).
    assert (j < length (workers p))%nat as Hlw by (by eapply lookup_lt_Some).
    split.
    + intros j' Hne. destruct (Hex j' Hne) as [Hs Hb]. simpl.
      destruct (decide (j = j')) as [<-|Hjj].
      * rewrite list_lookup_insert_eq by done. rewrite buffered_insert_eq by done.
        unfold buffered in Hb. rewrite Hj in Hb. simpl in Hb. simpl.
        destruct (P msg); [discriminate|]. by split.
      * rewrite list_lookup_insert_ne by done. by rewrite buffered_insert_ne.
    + unfold lane. simpl. destruct (decide (j = i)) as [->|Hji].
      * rewrite list_lookup_insert_eq by done. rewrite buffered_insert_eq by done.
        unfold buffered. rewrite Hw, Hj. simpl. by destruct (P msg).
      * rewrite list_lookup_insert_ne by done. by rewrite buffered_insert_ne.
  - (* Quit *)
    destruct (workers p !! j) as [[| |]|] eqn:Hw; try discriminate.
    destruct (cancelled p); [|discriminate]. injection Hstep as <-.
    cbn [arrivals]. rewrite app_nil_r.
    assert (j < length (workers p))%nat as Hlw by (by eapply lookup_lt_Some).
    split.
    + intros j' Hne. destruct (Hex j' Hne) as [Hs Hb]. simpl. split; [|done].
      destruct (decide (j = j')) as [<-|Hjj].
      * by rewrite list_lookup_insert_eq.
      * by rewrite list_lookup_insert_ne.
    + unfold lane. simpl. destruct (decide (j = i)) as [->|Hji].
      * rewrite list_lookup_insert_eq by done. by rewrite Hw.
      * by rewrite list_lookup_insert_ne.
  - (* Forward *)
    destruct (workers p !! j) as [[|msg|]|] eqn:Hw; try discriminate.
    destruct (loop p); [|discriminate]. injection Hstep as <-.
    cbn [arrivals]. rewrite app_nil_r.
    assert (j < length (workers p))%nat as Hlw by (by eapply lookup_lt_Some).
    split.
    + intros j' Hne. destruct (Hex j' Hne) as [Hs Hb]. simpl. split; [|done].
      destruct (decide (j = j')) as [<-|Hjj].
      * by rewrite list_lookup_insert_eq.
      * by rewrite list_lookup_insert_ne.
    + unfold lane. simpl. rewrite List.filter_app.
      destruct (decide (j = i)) as [->|Hji].
      * rewrite list_lookup_insert_eq by done. rewrite Hw. simpl.
        by rewrite <- !app_assoc.
      * rewrite list_lookup_insert_ne by done.
        destruct (Hex j Hji) as [Hs _]. rewrite Hw in Hs. simpl in Hs.
        simpl. rewrite Hs. by rewrite app_nil_r.
  - (* LoopQuit *)
    destruct (loop p); [|discriminate]. destruct (cancelled p); [|discriminate].
    injection Hstep as <-. cbn [arrivals]. rewrite app_nil_r. by split.
Qed.

Lemma lane_steps P i mvs : forall p p',
  exclusive P i p -> Forall (arrive_on P i) mvs -> steps mvs p = Some p' ->
  exclusive P i p' /\ lane P i p' = lane P i p ++ arrivals P mvs.
Proof.
  induction mvs as [|mv mvs IH]; intros p p' Hex Harr Hsteps; simpl in Hsteps.
  - injection Hsteps as <-. by rewrite app_nil_r.
  - apply Forall_cons in Harr as [Hmv Harr].
    destruct (step mv p) as [p1|] eqn:Hstep; [|discriminate].
    destruct (lane_step P i mv p p1 Hex Hmv Hstep) as [Hex1 Hlane1].
    destruct (IH p1 p' Hex1 Harr Hsteps) as [Hex' Hlane'].
    split; [done|]. rewrite Hlane', Hlane1, <- app_assoc. f_equal.
    destruct mv as [j msg| | | |j ok|]; cbn [arrivals]; by rewrite ?app_nil_r.
Qed.

(** X5: the fan-in keeps the order of every input stream and neither
    loses nor repeats a message.  For messages of a kind [P] that enter by
    stream [i] only, after any moves of the pipeline started by
    [demuxMessages] the messages of that kind that have passed over the
    merged channel, then the one worker [i] is sending, then those still
    buffered on the stream, are the messages of that kind the stream held
    at the start followed by those that arrived, in order. *)
Theorem fan_in_keeps_stream_order (P : ConsumerMessage -> bool) (i : nat)
    (pc : list (list ConsumerMessage)) (mvs : list move) (p' : pipeline) :
  (forall j, j <> i -> List.filter P (default [] (pc !! j)) = []) ->
  Forall (arrive_on P i) mvs ->
  steps mvs (demuxMessages pc) = Some p' ->
  List.filter P (merged p') ++ List.filter P (sending_of (workers p' !! i))
  ++ List.filter P (buffered p' i)
  = List.filter P (default [] (pc !! i)) ++ arrivals P mvs.
Proof.
  intros Hpc Harr Hsteps.
  destruct (lane_steps P i mvs (demuxMessages pc) p') as [_ Hlane]; [|done|done|].
  - intros j Hne. split; [|by apply Hpc].
    unfold demuxMessages. simpl. rewrite list_lookup_fmap.
    by destruct (pc !! j).
  - fold (lane P i p'). rewrite Hlane. f_equal.
    unfold lane, demuxMessages, buffered. simpl. rewrite list_lookup_fmap.
    by destruct (pc !! i).
Qed.

(** With two streams of partitions 0 and 1, the messages of partition 0
    pass in their order whatever is done on the other stream. *)
Lemma fan_in_keeps_stream_order_example :
  let a := Message "t" 0 1 "k" "a" in
  let b := Message "t" 0 2 "k" "b" in
  let c := Message "t" 1 7 "k" "c" in
  let P := fun msg => Partition msg =? 0 in
  exists p',
    steps [Receive 1; Receive 0; Forward 0 true; Arrive 0 m1; Forward 1 true; Receive 0]
      (demuxMessages [[a; b]; [c]]) = Some p'
    /\ merged p' = [a; c]
    /\ List.filter P (merged p') ++ List.filter P (sending_of (workers p' !! 0%nat))
       ++ List.filter P (buffered p' 0)
       = [a; b; m1].
Proof.
  intros a b c P. eexists. split; [reflexivity|]. split; [reflexivity|].
  refine (fan_in_keeps_stream_order P 0%nat [[a; b]; [c]]
    [Receive 1; Receive 0; Forward 0 true; Arrive 0 m1; Forward 1 true; Receive 0] _ _ _ _).
  - intros [|[|j]] Hne; done.
  - repeat constructor; by left.
  - reflexivity.
Defined.

(** *** What stops the goroutines *)

Lemma stopped_by_cause_step mvs mv p p' :
  stopped_by_cause mvs p -> step mv p = Some p' ->
  stopped_by_cause (mvs ++ [mv]) p' /\ length (workers p') = length (workers p).
Proof.
  intros (Hw & Hc & Hl) Hstep.
  assert (forall x, In x mvs -> In x (mvs ++ [mv])) as Hin
    by (intros x Hx; apply in_or_app; by left).
  assert (Exists failed_send mvs -> Exists failed_send (mvs ++ [mv])) as Hex
    by (intros Hx; apply Exists_app; by left).
  destruct mv as [j msg| |j|j|j ok|]; simpl in Hstep.
  - destruct (inputs p !! j); [|discriminate]. injection Hstep as <-.
    split; [|done]. split; [done|]. split; simpl; [auto|].
    intros Hr. destruct (Hl Hr); auto.
  - injection Hstep as <-. split; [|done]. split; [done|]. split; simpl.
    + intros _. apply in_or_app. right. by left.
    + auto.
  - destruct (workers p !! j) as [[| |]|] eqn:Hwj; try discriminate.
    destruct (inputs p !! j) as [[|msg buf]|]; try discriminate.
    injection Hstep as <-. split; [|simpl; by rewrite length_insert].
    split; [|split]; simpl; [|auto|intros Hr; destruct (Hl Hr); auto].
    intros i Hi. destruct (decide (j = i)) as [<-|Hne].
    + rewrite list_lookup_insert_eq in Hi by (by eapply lookup_lt_Some). done.
    + rewrite list_lookup_insert_ne in Hi by done. eauto.
  - destruct (workers p !! j) as [[| |]|] eqn:Hwj; try discriminate.
    destruct (cancelled p) eqn:Hcp; [|discriminate].
    injection Hstep as <-. split; [|simpl; by rewrite length_insert].
    split; [|split]; simpl; [done|auto|auto].
  - destruct (workers p !! j) as [[|msg|]|] eqn:Hwj; try discriminate.
    destruct (loop p) eqn:Hlp; [|discriminate].
    injection Hstep as <-. split; [|simpl; by rewrite length_insert].
    split; [|split]; simpl; [|auto|].
    + intros i Hi. destruct (decide (j = i)) as [<-|Hne].
      * rewrite list_lookup_insert_eq in Hi by (by eapply lookup_lt_Some). done.
      * rewrite list_lookup_insert_ne in Hi by done. eauto.
    + destruct ok; [done|]. intros _. right. apply Exists_app. right.
      by constructor.
  - destruct (loop p); [|discriminate].
    destruct (cancelled p) eqn:Hcp; [|discriminate].
    injection Hstep as <-. split; [|done]. split; [|split]; simpl; auto.
Qed.

Lemma stopped_by_cause_steps mvs : forall done p p',
  stopped_by_cause done p -> steps mvs p = Some p' ->
  stopped_by_cause (done ++ mvs) p' /\ length (workers p') = length (workers p).
Proof.
  induction mvs as [|mv mvs IH]; intros done p p' Hinv Hsteps; simpl in Hsteps.
  - injection Hsteps as <-. by rewrite app_nil_r.
  - destruct (step mv p) as [p1|] eqn:Hstep; [|discriminate].
    destruct (stopped_by_cause_step done mv p p1 Hinv Hstep) as [Hinv1 Hlen1].
    destruct (IH (done ++ [mv]) p1 p' Hinv1 Hsteps) as [Hinv' Hlen'].
    rewrite <- app_assoc in Hinv'. split; [done|]. by rewrite Hlen', Hlen1.
Qed.

(** X6: no goroutine of the fan-in stops by itself.  In the pipeline
    started by [demuxMessages], whatever moves are made, there stays one
    worker per input stream; a worker has returned only if [q] has been
    closed, and the forwarding loop has returned only if [q] has been
    closed or a [sender.Send] has failed.  So while [q] is open and every
    send succeeds, every worker and the loop are still running. *)
Theorem fan_in_stops_only_for_a_cause (pc : list (list ConsumerMessage))
    (mvs : list move) (p' : pipeline) :
  steps mvs (demuxMessages pc) = Some p' ->
  length (workers p') = length pc
  /\ (forall i, workers p' !! i = Some Exited -> In Cancel mvs)
  /\ (loop p' = ForwarderReturned -> In Cancel mvs \/ Exists failed_send mvs)
  /\ (~ In Cancel mvs -> ~ Exists failed_send mvs ->
      loop p' = Forwarding
      /\ forall i w, workers p' !! i = Some w -> w <> Exited).
Proof.
  intros Hsteps.
  destruct (stopped_by_cause_steps mvs [] (demuxMessages pc) p') as [(Hw & Hc & Hl) Hlen];
    [|done|].
  { split; [|split]; simpl; [|done|done].
    intros i Hi. rewrite list_lookup_fmap in Hi. by destruct (pc !! i). }
  simpl in Hc, Hl.
  split; [by rewrite Hlen; simpl; rewrite length_map|].
  split; [by eauto|]. split; [intros Hr; destruct (Hl Hr); auto|].
  intros Hnc Hnf. split.
  - destruct (loop p') eqn:Hlp; [done|]. destruct (Hl eq_refl); [|done].
    by destruct Hnc; auto.
  - intros i w Hi ->. apply Hnc. eauto.
Qed.

(** Two streams; a message is received and forwarded, another one is
    received, no cancellation. *)
Lemma fan_in_stops_only_for_a_cause_example :
  exists p',
    steps [Receive 0; Forward 0 true; Arrive 1 m1; Receive 1] (demuxMessages [[m1]; []])
      = Some p'
    /\ workers p' = [AtSelect; Sending m1]
    /\ loop p' = Forwarding.
Proof.
  eexists. split; [reflexivity|]. split; [reflexivity|].
  refine (proj1 (proj2 (proj2 (proj2 (fan_in_stops_only_for_a_cause [[m1]; []]
    [Receive 0; Forward 0 true; Arrive 1 m1; Receive 1] _ eq_refl))) _ _)).
  - intros [H|[H|[H|[H|[]]]]]; discriminate.
  - intros H. repeat (apply Exists_cons in H as [H|H]; [done|]). by apply Exists_nil in H.
Defined.

Lemma blocked_step mv i msg p p' :
  loop p = ForwarderReturned -> workers p !! i = Some (Sending msg) ->
  step mv p = Some p' ->
  loop p' = ForwarderReturned /\ workers p' !! i = Some (Sending msg).
Proof.
  intros Hl Hw Hstep.
  destruct mv as [j m| |j|j|j ok|]; simpl in Hstep; rewrite ?Hl in Hstep.
  - destruct (inputs p !! j); [|discriminate]. by injection Hstep as <-.
  - by injection Hstep as <-.
  - destruct (workers p !! j) as [[| |]|] eqn:Hwj; try discriminate.
    destruct (inputs p !! j) as [[|m buf]|]; try discriminate.
    injection Hstep as <-. simpl. split; [done|].
    destruct (decide (j = i)) as [->|Hne]; [congruence|].
    by rewrite list_lookup_insert_ne.
  - destruct (workers p !! j) as [[| |]|] eqn:Hwj; try discriminate.
    destruct (cancelled p); [|discriminate].
    injection Hstep as <-. simpl. split; [done|].
    destruct (decide (j = i)) as [->|Hne]; [congruence|].
    by rewrite list_lookup_insert_ne.
  - by destruct (workers p !! j) as [[| |]|].
  - discriminate.
Qed.

(** X7: a worker blocked in [c <- msg] when the forwarding loop has
    returned stays blocked for ever.  Whatever moves follow, closing [q]
    among them, the worker is still sending the same message, the loop
    stays returned and the message never reaches the merged channel: the
    goroutine of [demuxMessages] and the message it holds are lost. *)
Theorem blocked_worker_never_exits (i : nat) (msg : ConsumerMessage)
    (mvs : list move) (p p' : pipeline) :
  loop p = ForwarderReturned ->
  workers p !! i = Some (Sending msg) ->
  steps mvs p = Some p' ->
  workers p' !! i = Some (Sending msg)
  /\ loop p' = ForwarderReturned
  /\ merged p' = merged p
  /\ Forall (fun mv => ~ of_worker i mv) mvs.
Proof.
  revert p. induction mvs as [|mv mvs IH]; intros p Hl Hw Hsteps; simpl in Hsteps.
  - by injection Hsteps as <-.
  - destruct (step mv p) as [p1|] eqn:Hstep; [|discriminate].
    destruct (blocked_step mv i msg p p1 Hl Hw Hstep) as [Hl1 Hw1].
    destruct (DemuxFacts.loop_returned_stays mv p p1 Hl Hstep) as [_ Hm1].
    destruct (IH p1 Hl1 Hw1 Hsteps) as (Hw' & Hl' & Hm' & Hall).
    split; [done|]. split; [done|]. split; [congruence|].
    constructor; [|done]. intros Hof.
    destruct mv as [j m| |j|j|j ok|]; simpl in Hof; try done; subst j;
      simpl in Hstep; rewrite ?Hw, ?Hl in Hstep; discriminate.
Qed.

(** The send of the first message fails, the loop returns; the second
    message is then received by the worker and stays with it when [q] is
    closed. *)
Lemma blocked_worker_never_exits_example :
  exists p p',
    steps [Receive 0; Forward 0 false; Receive 0] (demuxMessages [[m1; m1]]) = Some p
    /\ steps [Cancel; Arrive 0 m1] p = Some p'
    /\ workers p' !! 0%nat = Some (Sending m1)
    /\ merged p' = [m1].
Proof.
  exists (Pipeline [[]] [Sending m1] ForwarderReturned false [m1]).
  exists (Pipeline [[m1]] [Sending m1] ForwarderReturned true [m1]).
  split; [reflexivity|]. split; [reflexivity|].
  destruct (blocked_worker_never_exits 0%nat m1 [Cancel; Arrive 0 m1]
    (Pipeline [[]] [Sending m1] ForwarderReturned false [m1])
    (Pipeline [[m1]] [Sending m1] ForwarderReturned true [m1])
    eq_refl eq_refl eq_refl) as (Hw & _ & Hm & _).
  split; [exact Hw|exact Hm].
Defined.

End DemuxLanesFacts.

(** ** The text sent for a message *)

Module FormatFacts.
Import Demux Format.

Local Abbreviation chars := list_ascii_of_string.

Lemma chars_app (a b : string) : chars (a +:+ b) = chars a ++ chars b.
Proof. induction a as [|c a IH]; simpl; [done | by rewrite IH]. Qed.

Lemma chars_inj (a b : string) : chars a = chars b -> a = b.
Proof.
  intros H. rewrite <- (string_of_list_ascii_of_string a),
    <- (string_of_list_ascii_of_string b). by rewrite H.
Qed.

Lemma escape_chars (s : string) : chars (escape s) = flat_map escape_char (chars s).
Proof.
  unfold escape, Replace, q. induction s as [|c s IH]; [done|].
  cbn [Replace_from String.prefix String.length Nat.sub chars flat_map].
  unfold escape_char at 1. destruct (ascii_dec quote c) as [<-|Hne].
  - assert (String.prefix "" s = true) as -> by (by destruct s).
    by rewrite chars_app, IH, Ascii.eqb_refl.
  - assert (Ascii.eqb c quote = false) as ->.
    { apply Ascii.eqb_neq. congruence. }
    cbn [chars]. by rewrite IH.
Qed.

Lemma escape_char_head c rest : exists d tl,
  escape_char c ++ rest = d :: tl /\ d <> quote.
Proof.
  unfold escape_char. destruct (Ascii.eqb_spec c quote) as [->|Hne].
  - exists backslash, (quote :: rest). by split.
  - exists c, rest. by split.
Qed.

Lemma flat_map_escape_inj l : forall l',
  flat_map escape_char l = flat_map escape_char l' -> l = l'.
Proof.
  induction l as [|c l IH]; intros [|c' l'] H; simpl in H.
  - done.
  - destruct (escape_char_head c' (flat_map escape_char l')) as (d & tl & Hd & _).
    rewrite Hd in H. discriminate.
  - destruct (escape_char_head c (flat_map escape_char l)) as (d & tl & Hd & _).
    rewrite Hd in H. discriminate.
  - unfold escape_char at 1 3 in H.
    destruct (Ascii.eqb_spec c quote) as [->|Hc];
      destruct (Ascii.eqb_spec c' quote) as [->|Hc']; simpl in H.
    + injection H as H. f_equal. by apply IH.
    + injection H as <- H.
      destruct l' as [|c2 l']; simpl in H; [discriminate|].
      destruct (escape_char_head c2 (flat_map escape_char l')) as (d & tl & Hd & Hq).
      rewrite Hd in H. injection H as <- _. done.
    + injection H as -> H.
      destruct l as [|c2 l]; simpl in H; [discriminate|].
      destruct (escape_char_head c2 (flat_map escape_char l)) as (d & tl & Hd & Hq).
      rewrite Hd in H. injection H as -> _. done.
    + injection H as -> H. f_equal. by apply IH.
Qed.

Lemma guarded_after_flat_map l : forall prev,
  guarded_after prev (flat_map escape_char l) = true.
Proof.
  induction l as [|c l IH]; intros prev; [done|]. simpl. unfold escape_char.
  destruct (Ascii.eqb_spec c quote) as [->|Hc]; simpl.
  - apply IH.
  - rewrite IH. destruct (Ascii.eqb_spec c quote); [done|]. done.
Qed.

Lemma length_flat_map_escape l :
  length (flat_map escape_char l)
  = (length l + length (List.filter (fun c => Ascii.eqb c quote) l))%nat.
Proof.
  induction l as [|c l IH]; [done|]. simpl. rewrite length_app, IH.
  unfold escape_char. destruct (Ascii.eqb c quote); simpl; lia.
Qed.

Lemma flat_map_escape_id l :
  Forall (fun c => c <> quote) l -> flat_map escape_char l = l.
Proof.
  induction 1 as [|c l Hc _ IH]; [done|]. simpl. rewrite IH. unfold escape_char.
  by destruct (Ascii.eqb_spec c quote).
Qed.

Lemma length_chars s : length (chars s) = String.length s.
Proof. induction s as [|c s IH]; simpl; [done | by rewrite IH]. Qed.

Lemma escape_inj s s' : escape s = escape s' -> s = s'.
Proof.
  intros H. apply chars_inj, flat_map_escape_inj. by rewrite <- !escape_chars, H.
Qed.

(** X8: the escaping of the key and of the value.  In the escaped text
    every double quote stands right after a backslash; the text is longer
    than the original by the number of its double quotes, and equal to it
    when it has none; and the original can be told from the escaped text:
    two different byte strings never have the same escaped text. *)
Theorem escape_guards_every_quote (s : string) :
  guarded (escape s) = true
  /\ String.length (escape s) = (String.length s + quotes s)%nat
  /\ (quote_free s -> escape s = s)
  /\ (forall s', escape s = escape s' -> s = s').
Proof.
  split; [|split; [|split]].
  - unfold guarded. rewrite escape_chars. apply guarded_after_flat_map.
  - rewrite <- !length_chars, escape_chars. apply length_flat_map_escape.
  - intros Hs. apply chars_inj. rewrite escape_chars. by apply flat_map_escape_id.
  - intros s'. apply escape_inj.
Qed.

(** *** The line can be read back *)

Lemma format_digits_quote_free fuel : forall un acc,
  quote_free acc -> quote_free (Strconv.format_digits fuel un acc).
Proof.
  induction fuel as [|fuel IH]; intros un acc Hacc; cbn [Strconv.format_digits]; [done|].
  assert (quote_free (String (Strconv.digit_char (un mod 10)) acc)) as Hacc'.
  { constructor; [|done]. pose proof (Z.mod_pos_bound un 10 ltac:(lia)) as Hd.
    assert (un mod 10 = 0 \/ un mod 10 = 1 \/ un mod 10 = 2 \/ un mod 10 = 3
            \/ un mod 10 = 4 \/ un mod 10 = 5 \/ un mod 10 = 6 \/ un mod 10 = 7
            \/ un mod 10 = 8 \/ un mod 10 = 9) as Hcases by lia.
    destruct Hcases as [-> | [-> | [-> | [-> | [-> | [-> | [-> | [-> | [-> | ->]]]]]]]]];
      discriminate. }
  destruct (un <? 10); [done | by apply IH].
Qed.

Lemma FormatInt_quote_free i : quote_free (Strconv.FormatInt i).
Proof.
  unfold Strconv.FormatInt, Strconv.FormatUint.
  destruct (i <? 0).
  - constructor; [discriminate|]. apply format_digits_quote_free. constructor.
  - apply format_digits_quote_free. constructor.
Qed.

Lemma FormatInt_inj i j :
  Int.in64 i -> Int.in64 j -> Strconv.FormatInt i = Strconv.FormatInt j -> i = j.
Proof.
  intros Hi Hj H. pose proof (StrconvFacts.ParseInt_FormatInt i Hi) as Pi.
  rewrite H, (StrconvFacts.ParseInt_FormatInt j Hj) in Pi. by injection Pi.
Qed.

Lemma escape_guarded_after prev s : guarded_after prev (chars (escape s)) = true.
Proof. rewrite escape_chars. apply guarded_after_flat_map. Qed.

(** A field without double quotes ends at the first double quote. *)
Lemma cut_quote_free (a : list ascii) : forall a' r r',
  Forall (fun c => c <> quote) a -> Forall (fun c => c <> quote) a' ->
  a ++ quote :: r = a' ++ quote :: r' -> a = a' /\ r = r'.
Proof.
  induction a as [|c a IH]; intros [|c' a'] r r' Ha Ha' H; simpl in H.
  - by injection H.
  - injection H as <- _. apply Forall_cons in Ha' as [Hc _]. done.
  - injection H as -> _. apply Forall_cons in Ha as [Hc _]. done.
  - injection H as <- H. apply Forall_cons in Ha as [_ Ha].
    apply Forall_cons in Ha' as [_ Ha'].
    destruct (IH a' r r' Ha Ha' H) as [-> ->]. done.
Qed.

Lemma guarded_after_app prev (a b : list ascii) :
  guarded_after prev (a ++ b) = true -> exists prev', guarded_after prev' b = true.
Proof.
  revert prev. induction a as [|c a IH]; intros prev H; simpl in H; [by eexists|].
  apply andb_prop in H as [_ H]. by eapply IH.
Qed.

(** A separator cannot begin inside an escaped field. *)
Lemma no_overlap prev (a d : list ascii) c r r' :
  guarded_after prev (a ++ d) = true -> c <> ","%char ->
  quote :: ","%char :: " "%char :: quote :: c :: r
  = d ++ quote :: ","%char :: " "%char :: quote :: c :: r' ->
  d = [].
Proof.
  intros Hg Hc H. destruct d as [|d0 [|d1 [|d2 [|d3 d]]]]; simpl in H.
  - done.
  - by simplify_eq.
  - by simplify_eq.
  - by simplify_eq.
  - assert (d2 = " "%char /\ d3 = quote) as [-> ->] by (by simplify_eq).
    apply guarded_after_app in Hg as [prev' Hg]. cbn [guarded_after] in Hg.
    apply andb_prop in Hg as [_ Hg]. apply andb_prop in Hg as [_ Hg].
    apply andb_prop in Hg as [_ Hg]. apply andb_prop in Hg as [Hg _].
    discriminate.
Qed.

(** An escaped field ends where its separator begins. *)
Lemma cut_guarded prev prev' (a a' : list ascii) c r r' :
  guarded_after prev a = true -> guarded_after prev' a' = true -> c <> ","%char ->
  a ++ quote :: ","%char :: " "%char :: quote :: c :: r
  = a' ++ quote :: ","%char :: " "%char :: quote :: c :: r' ->
  a = a' /\ r = r'.
Proof.
  intros Ha Ha' Hc H.
  destruct (List.app_eq_app _ _ _ _ H) as [d [[-> Hd]|[-> Hd]]].
  - pose proof (no_overlap prev a' d c r' r Ha Hc Hd) as ->.
    rewrite app_nil_r. simpl in Hd. by simplify_eq.
  - pose proof (no_overlap prev' a d c r r' Ha' Hc Hd) as ->.
    rewrite app_nil_r. simpl in Hd. by simplify_eq.
Qed.

(** X9: the line sent for a message tells the message and the time of
    consumption.  For topics without a double quote and numbers within
    [int64], two lines built by [sendMessagesToWsBlocking] are equal only
    if topic, partition, offset, key, value and time are: a key or value
    can never pass for the end of its own field and the start of the
    next. *)
Theorem message_text_tells_message (m m' : ConsumerMessage) (now now' : Z) :
  quote_free (Topic m) -> quote_free (Topic m') ->
  Int.in64 (Partition m) -> Int.in64 (Partition m') ->
  Int.in64 (Offset m) -> Int.in64 (Offset m') ->
  Int.in64 now -> Int.in64 now' ->
  message_text m now = message_text m' now' ->
  m = m' /\ now = now'.
Proof.
  intros HT HT' HP HP' HO HO' HN HN' H.
  destruct m as [T P O K V], m' as [T' P' O' K' V']. simpl in *.
  apply (f_equal chars) in H. unfold message_text in H. cbn [Topic Partition Offset Key Value] in H.
  pose proof (FormatInt_quote_free P) as QP. pose proof (FormatInt_quote_free P') as QP'.
  pose proof (FormatInt_quote_free O) as QO. pose proof (FormatInt_quote_free O') as QO'.
  pose proof (FormatInt_quote_free now) as QN. pose proof (FormatInt_quote_free now') as QN'.
  pose proof (escape_guarded_after "{"%char K) as GK.
  pose proof (escape_guarded_after "{"%char K') as GK'.
  pose proof (escape_guarded_after "{"%char V) as GV.
  pose proof (escape_guarded_after "{"%char V') as GV'.
  unfold quote_free in *.
  rewrite !chars_app in H.
  change (chars q) with [quote] in H.
  cbn [chars app] in H.
  repeat match type of H with _ :: _ = _ :: _ => injection H as H end.
  apply cut_quote_free in H as [HeT H]; [|done|done].
  repeat match type of H with _ :: _ = _ :: _ => injection H as H end.
  apply cut_quote_free in H as [HeP H]; [|done|done].
  repeat match type of H with _ :: _ = _ :: _ => injection H as H end.
  apply cut_quote_free in H as [HeO H]; [|done|done].
  repeat match type of H with _ :: _ = _ :: _ => injection H as H end.
  eapply cut_guarded in H as [HeK H]; [|done|done|discriminate].
  repeat match type of H with _ :: _ = _ :: _ => injection H as H end.
  eapply cut_guarded in H as [HeV H]; [|done|done|discriminate].
  repeat match type of H with _ :: _ = _ :: _ => injection H as H end.
  apply cut_quote_free in H as [HeN _]; [|done|done].
  apply chars_inj in HeT, HeP, HeO, HeK, HeV, HeN.
  apply FormatInt_inj in HeP, HeO, HeN; try done.
  apply escape_inj in HeK, HeV. by subst.
Qed.

(** A key that holds a double quote. *)
Lemma message_text_tells_message_example :
  let m := Message "t" 3 (-41) (String quote "k") "v" in
  let m' := Message "t" 3 (-41) (String quote "k") "v" in
  message_text m 1700000000 = message_text m' 1700000000
  /\ m = m' /\ 1700000000 = 1700000000.
Proof.
  intros m m'. split; [reflexivity|].
  apply (message_text_tells_message m m' 1700000000 1700000000);
    try (repeat constructor; discriminate);
    try (unfold Int.in64, Int.min64, Int.max64; simpl; lia).
Defined.

End FormatFacts.

(** ** Keys of the registry *)

Module KeyFacts.

Local Abbreviation chars := list_ascii_of_string.

(** What follows the first element in a joined list. *)
Lemma Join_chars x rest :
  chars (Join (x :: rest) ",")
  = chars x ++ match rest with
               | [] => []
               | _ => ","%char :: chars (Join rest ",")
               end.
Proof.
  destruct rest as [|y rest]; cbn [Join].
  - by rewrite app_nil_r.
  - by rewrite !FormatFacts.chars_app.
Qed.

Lemma plain_address_chars a :
  plain_address a = true ->
  a <> EmptyString /\ Forall (fun c => c <> ","%char) (chars a).
Proof.
  unfold plain_address. intros [Hne Hall]%andb_prop. split.
  - intros ->. done.
  - apply Forall_forall. intros c Hc. rewrite forallb_forall in Hall.
    specialize (Hall c). rewrite <- list_elem_of_In in Hall. specialize (Hall Hc).
    intros ->. done.
Qed.

(** An address ends at the first comma or at the end of the key. *)
Lemma cut_at_comma (a : list ascii) : forall a' t t',
  Forall (fun c => c <> ","%char) a -> Forall (fun c => c <> ","%char) a' ->
  (t = [] \/ exists r, t = ","%char :: r) ->
  (t' = [] \/ exists r, t' = ","%char :: r) ->
  a ++ t = a' ++ t' -> a = a' /\ t = t'.
Proof.
  induction a as [|c a IH]; intros [|c' a'] t t' Ha Ha' Ht Ht' H; simpl in H.
  - done.
  - apply Forall_cons in Ha' as [Hc _]. destruct Ht as [->|[r ->]]; [done|].
    injection H as <- _. done.
  - apply Forall_cons in Ha as [Hc _]. destruct Ht' as [->|[r ->]]; [done|].
    injection H as -> _. done.
  - injection H as <- H. apply Forall_cons in Ha as [_ Ha].
    apply Forall_cons in Ha' as [_ Ha'].
    destruct (IH a' t t' Ha Ha' Ht Ht' H) as [-> ->]. done.
Qed.

(** Lists of plain addresses with the same key are the same list. *)
Lemma Join_inj (bs : list string) : forall bs',
  forallb plain_address bs = true -> forallb plain_address bs' = true ->
  Join bs "," = Join bs' "," -> bs = bs'.
Proof.
  induction bs as [|x bs IH]; intros [|x' bs'] Hbs Hbs' H.
  - done.
  - cbn [forallb] in Hbs'. apply andb_prop in Hbs' as [Hx' _].
    apply plain_address_chars in Hx' as [Hne _].
    apply (f_equal chars) in H. rewrite Join_chars in H.
    destruct x'; [done | discriminate].
  - cbn [forallb] in Hbs. apply andb_prop in Hbs as [Hx _].
    apply plain_address_chars in Hx as [Hne _].
    apply (f_equal chars) in H. rewrite Join_chars in H.
    destruct x; [done | discriminate].
  - cbn [forallb] in Hbs, Hbs'.
    apply andb_prop in Hbs as [Hx Hbs]. apply andb_prop in Hbs' as [Hx' Hbs'].
    apply plain_address_chars in Hx as [_ Hx]. apply plain_address_chars in Hx' as [_ Hx'].
    apply (f_equal chars) in H. rewrite !Join_chars in H.
    apply cut_at_comma in H as [Hxx Ht]; [|done|done| |].
    + apply FormatFacts.chars_inj in Hxx as ->. f_equal.
      destruct bs as [|y bs], bs' as [|y' bs']; try done.
      injection Ht as Ht. apply FormatFacts.chars_inj in Ht. by apply IH.
    + destruct bs; [by left | right; by eexists].
    + destruct bs'; [by left | right; by eexists].
Qed.

(** X10: with plain broker addresses (none empty, none holding a comma)
    every spec finds in the registry a cluster made for its own broker
    list, and two specs find the same cluster exactly when their broker
    lists are equal, element by element and in the same order. *)
Theorem registry_entry_has_own_brokers (cs : list consumerConfig) (h : gmap loc cluster) :
  forallb plain_brokers cs = true ->
  let clusters := (buildClusters cs h).1 in
  let h' := (buildClusters cs h).2 in
  (forall c, c ∈ cs ->
     exists l, clusters !! brokerKey c = Some l
       /\ h' !! l = Some (Cluster (Config.brokers c) None None []))
  /\ (forall c1 c2, c1 ∈ cs -> c2 ∈ cs ->
        clusters !! brokerKey c1 = clusters !! brokerKey c2
        <-> Config.brokers c1 = Config.brokers c2).
Proof.
  intros Hplain clusters h'.
  destruct (buildClusters_inv h cs) as [Hkeys Hfresh Hinj Hold Hnew].
  fold clusters in Hkeys, Hfresh, Hinj. fold h' in Hfresh.
  assert (forall c, c ∈ cs -> plain_brokers c = true) as Hp.
  { intros c Hc. rewrite forallb_forall in Hplain. apply Hplain.
    by apply list_elem_of_In. }
  split.
  - intros c Hc. destruct (proj2 (Hkeys (brokerKey c))) as [l Hl]; [by exists c|].
    destruct (Hfresh _ _ Hl) as (_ & c0 & Hc0 & Hk & Hh).
    exists l. split; [done|]. rewrite Hh. do 2 f_equal.
    apply Join_inj; [by apply Hp | by apply Hp | exact Hk].
  - intros c1 c2 Hc1 Hc2. split.
    + intros Heq. destruct (proj2 (Hkeys (brokerKey c1))) as [l Hl]; [by exists c1|].
      pose proof Hl as Hl2. rewrite Heq in Hl2.
      apply Join_inj; [by apply Hp | by apply Hp |].
      exact (Hinj _ _ l Hl Hl2).
    + intros Hb. unfold brokerKey. by rewrite Hb.
Qed.

(** The three specs of the fixtures: two on one cluster, the third on
    another. *)
Lemma registry_entry_has_own_brokers_example :
  let cs := [ConfigFixtures.spec_ab_all; ConfigFixtures.spec_ab_3; ConfigFixtures.spec_ba] in
  forallb plain_brokers cs = true
  /\ (exists l, (buildClusters cs ∅).1 !! brokerKey ConfigFixtures.spec_ab_3 = Some l
        /\ (buildClusters cs ∅).2 !! l = Some (Cluster ["a:9092"; "b:9092"] None None []))
  /\ (buildClusters cs ∅).1 !! brokerKey ConfigFixtures.spec_ab_all
     <> (buildClusters cs ∅).1 !! brokerKey ConfigFixtures.spec_ba.
Proof.
  intros cs. split; [reflexivity|].
  destruct (registry_entry_has_own_brokers cs ∅ eq_refl) as [Hown Hsame]. split.
  - apply (Hown ConfigFixtures.spec_ab_3). apply list_elem_of_In. simpl. auto.
  - intros Heq. apply Hsame in Heq; [discriminate| |]; apply list_elem_of_In; simpl; auto.
Defined.

(** An address that holds a comma: the one-address list and the
    two-address list have the same key, and the second spec is given the
    cluster made for the broker list of the first. *)
Lemma comma_in_address_shares_cluster :
  let c1 := Config.ConsumerConfig ["a:9092,b:9092"] "t" 0 "newest" in
  let c2 := Config.ConsumerConfig ["a:9092"; "b:9092"] "t" 1 "newest" in
  brokerKey c1 = brokerKey c2
  /\ (buildClusters [c1; c2] ∅).1 !! brokerKey c2 = Some 0%nat
  /\ (buildClusters [c1; c2] ∅).2 !! 0%nat = Some (Cluster ["a:9092,b:9092"] None None []).
Proof. by vm_compute. Qed.

End KeyFacts.
